(** * mini-vue: reactivity engine, scheduler, renderer and component props

    A shallow embedding of the parts of mini-vue that its specification
    makes claims about, and the theorems that settle those claims.

    - [Js]         values of the host language, [hasChanged] and friends (utils)
    - [Renderer]   [h], [patchChildren], [patchKeyedChildren], [getSequence]
    - [Dom]        [patchProps], [patch], [render] on the nodes of a document
    - [Scheduler]  [queueJob], [flushJob]
    - [Component]  [updateProps]
    - [Reactivity] [track], [trigger], [effect], [reactive], [ref],
                   [computed], [watch], [watchEffect] *)

From Stdlib Require Import ZArith Lia.
From stdpp Require Import base option list gmap strings pretty.

#[local] Set Warnings "-register-all".

Local Open Scope Z_scope.

(** ** Values of the host language *)

Module Js.

(** Function identities: a function value is compared by reference. *)
Inductive fname :=
| FUser (n : nat)            (* a function written by the application *)
| FWatchGetter (w : nat).    (* the closure [() => traverse(souce)] that the
                                watcher number [w] builds for itself *)

(** The values that flow through the modelled code.  Numbers are the
    integers plus NaN; objects, boxed references and functions are
    references (compared by identity). *)
Inductive value :=
| VUndef
| VNull
| VBool (b : bool)
| VNum (n : Z)
| VNaN
| VStr (s : string)
| VObj (a : nat)      (* a plain object or array, seen through its proxy *)
| VRef (r : nat)      (* a RefImpl instance *)
| VFun (f : fname).

#[global] Instance fname_eq_dec : EqDecision fname.
Proof. solve_decision. Defined.

#[global] Instance value_eq_dec : EqDecision value.
Proof. solve_decision. Defined.

(** [a === b]: identity on every value but NaN, which equals nothing. *)
Definition strict_eq (a b : value) : bool :=
  match a, b with
  | VNaN, _ | _, VNaN => false
  | _, _ => bool_decide (a = b)
  end.

(** [a == a], the only loose comparison the code makes: a value compared
    with itself is equal unless it is NaN. *)
Definition loose_eq_self (a : value) : bool :=
  match a with VNaN => false | _ => true end.

(** utils: [hasChanged(oldVal, newVal)]
    [oldVal !== newVal && oldVal === oldVal && newVal == newVal] *)
Definition hasChanged (oldVal newVal : value) : bool :=
  negb (strict_eq oldVal newVal) && strict_eq oldVal oldVal && loose_eq_self newVal.

(** Truthiness, as [if (x)], [x && y] and [!!x] see it. *)
Definition truthy (v : value) : bool :=
  match v with
  | VUndef | VNull | VNaN => false
  | VBool b => b
  | VNum n => negb (n =? 0)
  | VStr s => negb (bool_decide (s = ""%string))
  | VObj _ | VRef _ | VFun _ => true
  end.

(** utils: [isObject(val)], [typeof val === 'object' && val !== null].
    Of the values here the plain objects and arrays and the RefImpl
    instances are objects; a function is not. *)
Definition isObject (v : value) : bool :=
  match v with
  | VObj _ | VRef _ => true
  | _ => false
  end.

(** [Number.isSafeInteger(n)]: the integers that [String] prints digit by
    digit. *)
Definition safe_integer (n : Z) : Prop := Z.abs n < 2 ^ 53.

(** What a call can come to: a value, a thrown exception, or a run that
    the given number of steps did not finish. *)
Inductive result (A : Type) :=
| Ok (a : A)
| Throw (msg : string)
| OutOfFuel.
Arguments Ok {A} a.
Arguments Throw {A} msg.
Arguments OutOfFuel {A}.

#[global] Instance result_ret : MRet result := fun A a => Ok a.
#[global] Instance result_bind : MBind result := fun A B f m =>
  match m with
  | Ok a => f a
  | Throw e => Throw e
  | OutOfFuel => OutOfFuel
  end.

#[global] Instance result_fmap : FMap result := fun A B f m =>
  match m with
  | Ok a => Ok (f a)
  | Throw e => Throw e
  | OutOfFuel => OutOfFuel
  end.

Definition TypeError : string := "TypeError".
Definition RangeError : string := "RangeError".

End Js.

Export Js.

(** ** Renderer: virtual nodes and the children diff *)

Module Renderer.

(** *** getSequence *)

(** An array of numbers as the function fills it: [None] is a hole, which
    reads as [undefined]. *)
Definition arr_get (a : list (option Z)) (i : Z) : option Z :=
  if i <? 0 then None else mjoin (a !! Z.to_nat i).

(** [a[i] = v]: overwrites inside the array, extends it (leaving holes)
    beyond its end; a negative index is not an element. *)
Definition arr_set (a : list (option Z)) (i : Z) (v : Z) : list (option Z) :=
  if i <? 0 then a
  else
    let n := Z.to_nat i in
    if (n <? length a)%nat then <[n := Some v]> a
    else a ++ replicate (n - length a) None ++ [Some v].

(** [x > y] and [x < y] where [y] may be [undefined]: both are false then. *)
Definition js_gt (x : Z) (y : option Z) : bool :=
  match y with Some y => x >? y | None => false end.
Definition js_lt (x : Z) (y : option Z) : bool :=
  match y with Some y => x <? y | None => false end.

(** The binary search [while (l <= r) { ... }]; it yields the final [l].
    [mid = ~~((l + r) / 2)] truncates towards zero. *)
Fixpoint bsearch (fuel : nat) (x : Z) (result : list (option Z)) (l r : Z)
  : option Z :=
  if l <=? r then
    match fuel with
    | O => None
    | S fuel' =>
        let mid := Z.quot (l + r) 2 in
        if js_gt x (arr_get result mid) then bsearch fuel' x result (mid + 1) r
        else if js_lt x (arr_get result mid) then bsearch fuel' x result l (mid - 1)
        else Some mid
    end
  else Some l.

(** One turn of [for (let i = 0; i < nums.length; i++)] on [nums[i] = x]. *)
Definition seq_step (st : list (option Z) * list Z) (x : Z)
  : option (list (option Z) * list Z) :=
  let '(result, position) := st in
  if x =? -1 then Some st
  else if js_gt x (arr_get result (Z.of_nat (length result) - 1)) then
    let result' := result ++ [Some x] in
    Some (result', position ++ [Z.of_nat (length result') - 1])
  else
    l ← bsearch (S (length result)) x result 0 (Z.of_nat (length result) - 1);
    Some (arr_set result l x, position ++ [l]).

Fixpoint seq_scan (nums : list Z) (st : list (option Z) * list Z)
  : option (list (option Z) * list Z) :=
  match nums with
  | [] => Some st
  | x :: nums' => st' ← seq_step st x; seq_scan nums' st'
  end.

(** [for (let i = position.length - 1; i >= 0 && cur >= 0; i--)], entered
    with [i = n - 1]. *)
Fixpoint backtrack (n : nat) (position : list Z) (result : list (option Z))
    (cur : Z) : list (option Z) :=
  match n with
  | O => result
  | S i =>
      if cur <? 0 then result
      else if bool_decide (position !! i = Some cur)
      then backtrack i position (arr_set result cur (Z.of_nat i)) (cur - 1)
      else backtrack i position result cur
  end.

Definition getSequence (nums : list Z) : option (list (option Z)) :=
  '(result, position) ← seq_scan nums ([], []);
  Some (backtrack (length position) position result
          (Z.of_nat (length result) - 1)).

(** What the result is meant to be: positions of [nums], strictly
    increasing, none of them a sentinel, carrying strictly increasing
    values; and no longer list of positions does the same. *)
Fixpoint increasing_from (nums : list Z) (prev : option (Z * Z)) (idxs : list (option Z))
  : bool :=
  match idxs with
  | [] => true
  | None :: _ => false
  | Some i :: idxs' =>
      match (if i <? 0 then None else nums !! Z.to_nat i) with
      | None => false
      | Some v =>
          negb (v =? -1)
          && match prev with
             | None => true
             | Some (j, w) => (j <? i) && (w <? v)
             end
          && increasing_from nums (Some (i, v)) idxs'
      end
  end.

Definition increasing_subsequence (nums : list Z) (idxs : list (option Z)) : bool :=
  increasing_from nums None idxs.

Definition longest_increasing (nums : list Z) (idxs : list (option Z)) : Prop :=
  increasing_subsequence nums idxs = true
  /\ forall idxs', increasing_subsequence nums idxs' = true ->
                   (length idxs' <= length idxs)%nat.


(** *** Virtual nodes *)

Inductive vtype :=
| TTag (tag : string)       (* a host tag name *)
| TText                     (* the Text symbol *)
| TFragment                 (* the Fragment symbol *)
| TComponent (c : nat).     (* a component descriptor, by identity *)

#[global] Instance vtype_eq_dec : EqDecision vtype.
Proof. solve_decision. Defined.

Inductive children (V : Type) :=
| ChNull
| ChText (s : string)
| ChNumber (n : Z)
| ChArray (l : list V).
Arguments ChNull {V}.
Arguments ChText {V} s.
Arguments ChNumber {V} n.
Arguments ChArray {V} l.

(** The fields of a vnode that the children diff reads; [el], [anchor]
    and [component] are filled by [patch] and referred to by position. *)
Inductive vnode :=
  VNode (type : vtype) (props : option (gmap string value))
        (kids : children vnode) (shapeFlag : Z) (key : value).

Definition vn_type (v : vnode) : vtype := let 'VNode t _ _ _ _ := v in t.
Definition vn_props (v : vnode) := let 'VNode _ p _ _ _ := v in p.
Definition vn_children (v : vnode) := let 'VNode _ _ c _ _ := v in c.
Definition vn_shapeFlag (v : vnode) : Z := let 'VNode _ _ _ f _ := v in f.
Definition vn_key (v : vnode) : value := let 'VNode _ _ _ _ k := v in k.

Module ShapeFlags.
Definition ELEMENT : Z := 1.
Definition TEXT : Z := Z.shiftl 1 1.
Definition FRAGMENT : Z := Z.shiftl 1 2.
Definition COMPONENT : Z := Z.shiftl 1 3.
Definition TEXT_CHILDREN : Z := Z.shiftl 1 4.
Definition ARRAY_CHILDREN : Z := Z.shiftl 1 5.
Definition CHILDREN : Z := Z.lor (Z.shiftl 1 4) (Z.shiftl 1 5).
End ShapeFlags.

(** [flags & bit], read as a condition. *)
Definition has_flag (flags bit : Z) : bool := negb (Z.land flags bit =? 0).

(** [h(type, props, children)].  Number children are integers; those that
    are safe integers are the ones [String(children)] prints as [pretty]
    does, digit by digit. *)
Definition h (type : vtype) (props : option (gmap string value))
    (kids : children vnode) : vnode :=
  let shapeFlag :=
    match type with
    | TTag _ => ShapeFlags.ELEMENT
    | TText => ShapeFlags.TEXT
    | TFragment => ShapeFlags.FRAGMENT
    | TComponent _ => ShapeFlags.COMPONENT
    end in
  let '(shapeFlag, kids) :=
    match kids with
    | ChText s => (Z.lor shapeFlag ShapeFlags.TEXT_CHILDREN, ChText s)
    | ChNumber n => (Z.lor shapeFlag ShapeFlags.TEXT_CHILDREN, ChText (pretty n))
    | ChArray l => (Z.lor shapeFlag ShapeFlags.ARRAY_CHILDREN, ChArray l)
    | ChNull => (shapeFlag, ChNull)
    end in
  let key :=
    match props with
    | None => VNull                        (* [props && ...] with props null *)
    | Some p =>
        match p !! "key"%string with
        | None | Some VUndef | Some VNull => VNull   (* [props.key != null] fails *)
        | Some k => k
        end
    end in
  VNode type props kids shapeFlag key.

(** *** Host operations requested by the children diff

    The diff of a child list asks for whole-node operations; they are
    recorded in the order in which they are requested.  Children are named
    by their index in the previous ([i]) or the next ([k]) list. *)

Inductive anchor :=
| ANull                 (* null *)
| AParam                (* the [anchor] argument of the diff *)
| AEl (k : nat).        (* [newChildren[k].el] *)

Inductive op :=
| OPatch (i k : nat)              (* patch(oldChildren[i], newChildren[k], container, anchor) *)
| OMount (k : nat) (a : anchor)   (* patch(null, newChildren[k], container, a) *)
| OUnmount (i : nat)              (* unmount(oldChildren[i]) *)
| OUnmountNew (k : nat)           (* unmount(newChildren[k]) *)
| OInsert (k : nat) (a : anchor)  (* container.insertBefore(newChildren[k].el, a) *)
| OSetText (s : string).          (* container.textContent = s *)

#[global] Instance anchor_eq_dec : EqDecision anchor.
Proof. solve_decision. Defined.
#[global] Instance op_eq_dec : EqDecision op.
Proof. solve_decision. Defined.

(** [children[i]] for a number [i]: [undefined] ([None]) out of bounds. *)
Definition child (l : list vnode) (i : Z) : option vnode :=
  if i <? 0 then None else l !! Z.to_nat i.

(** [unmountChildren(children)] and [mountChildren(children, container, anchor)],
    for the children at positions [from, from + 1, ...]. *)
Definition unmountChildren (from : nat) (l : list vnode) : list op :=
  imap (fun i _ => OUnmount (from + i)) l.
Definition mountChildren (from : nat) (l : list vnode) (a : anchor) : list op :=
  imap (fun k _ => OMount (from + k) a) l.

(** *** patchUnkeyedChildren *)
Definition patchUnkeyedChildren (oldChildren newChildren : list vnode) : list op :=
  let oldLength := length oldChildren in
  let newLength := length newChildren in
  let commonLength := Nat.min oldLength newLength in
  let ops := (fun i => OPatch i i) <$> seq 0 commonLength in
  if (newLength <? oldLength)%nat then
    ops ++ unmountChildren commonLength (drop commonLength oldChildren)
  else if (oldLength <? newLength)%nat then
    ops ++ mountChildren commonLength (drop commonLength newChildren) AParam
  else ops.

(** *** patchKeyedChildren *)

(** The first loop: [while (oldNode.key === newNode?.key)].  It yields
    the final [j] and the patches requested.  Reading [.key] of an
    [undefined] previous node throws, and so does [patch] on an
    [undefined] next node. *)
Fixpoint forward (fuel : nat) (oldChildren newChildren : list vnode) (j : Z)
    (ops : list op) : result (Z * list op) :=
  match fuel with
  | O => OutOfFuel
  | S fuel' =>
      match child oldChildren j with
      | None => Throw TypeError
      | Some oldNode =>
          let newKey :=
            match child newChildren j with
            | Some newNode => vn_key newNode
            | None => VUndef
            end in
          if strict_eq (vn_key oldNode) newKey then
            match child newChildren j with
            | None => Throw TypeError
            | Some _ =>
                forward fuel' oldChildren newChildren (j + 1)
                        (ops ++ [OPatch (Z.to_nat j) (Z.to_nat j)])
            end
          else Ok (j, ops)
      end
  end.

(** The second loop: [while (oldNode.key === newNode.key)], from both
    ends; here either node being [undefined] throws. *)
Fixpoint backward (fuel : nat) (oldChildren newChildren : list vnode)
    (oldEnd newEnd : Z) (ops : list op) : result (Z * Z * list op) :=
  match fuel with
  | O => OutOfFuel
  | S fuel' =>
      match child oldChildren oldEnd, child newChildren newEnd with
      | Some oldNode, Some newNode =>
          if strict_eq (vn_key oldNode) (vn_key newNode) then
            backward fuel' oldChildren newChildren (oldEnd - 1) (newEnd - 1)
                     (ops ++ [OPatch (Z.to_nat oldEnd) (Z.to_nat newEnd)])
          else Ok (oldEnd, newEnd, ops)
      | _, _ => Throw TypeError
      end
  end.

(** [nextPos < newChildren.length ? newChildren[nextPos].el : null] *)
Definition anchor_at (newChildren : list vnode) (nextPos : Z) : anchor :=
  if nextPos <? Z.of_nat (length newChildren) then AEl (Z.to_nat nextPos) else ANull.

(** [String(key)], the property name under which [keyIndex] files a key.
    Plain objects and boxed references all print as [[object Object]]; the
    text of a function is represented by a name of its own. *)
Definition js_String (v : value) : string :=
  match v with
  | VUndef => "undefined"
  | VNull => "null"
  | VBool true => "true"
  | VBool false => "false"
  | VNum n => pretty n
  | VNaN => "NaN"
  | VStr s => s
  | VObj _ | VRef _ => "[object Object]"
  | VFun (FUser n) => "function user" +:+ pretty n
  | VFun (FWatchGetter w) => "function getter" +:+ pretty w
  end.

(** The names every object literal inherits from [Object.prototype]. *)
Definition object_prototype_names : list string :=
  ["constructor"; "__defineGetter__"; "__defineSetter__"; "hasOwnProperty";
   "__lookupGetter__"; "__lookupSetter__"; "isPrototypeOf";
   "propertyIsEnumerable"; "toString"; "valueOf"; "__proto__";
   "toLocaleString"]%string.

(** [keyIndex[key] = i] on the object literal [keyIndex]: assigning a
    number to [__proto__] is ignored. *)
Definition keyIndex_set (keyIndex : gmap string Z) (key : value) (i : Z)
  : gmap string Z :=
  if bool_decide (js_String key = "__proto__"%string) then keyIndex
  else <[js_String key := i]> keyIndex.

(** [keyIndex[key]]: an own entry, an inherited member (which is not
    [undefined] and indexes no child), or [undefined]. *)
Inductive keyIndex_entry :=
| KOwn (k : Z)
| KInherited
| KUndefined.

Definition keyIndex_get (keyIndex : gmap string Z) (key : value) : keyIndex_entry :=
  match keyIndex !! js_String key with
  | Some k => KOwn k
  | None =>
      if bool_decide (js_String key ∈ object_prototype_names) then KInherited
      else KUndefined
  end.

(** State of the loop over the unresolved previous children. *)
Record middle := Middle {
  m_souce : list Z;
  m_patched : Z;
  m_pos : Z;
  m_moved : bool;
  m_ops : list op
}.

(** One turn of [for (let i = j; i <= oldEnd; i++)]. *)
Definition middle_step (newChildren : list vnode) (keyIndex : gmap string Z)
    (j count : Z) (oldChildren : list vnode) (st : middle) (i : Z) : result middle :=
  match child oldChildren i with
  | None => Throw TypeError
  | Some oldNode =>
      if m_patched st <? count then
        match keyIndex_get keyIndex (vn_key oldNode) with
        | KOwn k =>
            Ok {| m_souce := <[Z.to_nat (k - j) := i]> (m_souce st);
                  m_patched := m_patched st + 1;
                  m_pos := if k <? m_pos st then m_pos st else k;
                  m_moved := if k <? m_pos st then true else m_moved st;
                  m_ops := m_ops st ++ [OPatch (Z.to_nat i) (Z.to_nat k)] |}
        | KInherited => Throw TypeError     (* patch(oldNode, undefined, ...) *)
        | KUndefined =>
            Ok {| m_souce := m_souce st; m_patched := m_patched st;
                  m_pos := m_pos st; m_moved := m_moved st;
                  m_ops := m_ops st ++ [OUnmount (Z.to_nat i)] |}
        end
      else
        Ok {| m_souce := m_souce st; m_patched := m_patched st;
              m_pos := m_pos st; m_moved := m_moved st;
              m_ops := m_ops st ++ [OUnmount (Z.to_nat i)] |}
  end.

Fixpoint middle_loop (newChildren : list vnode) (keyIndex : gmap string Z)
    (j count : Z) (oldChildren : list vnode) (idxs : list Z) (st : middle)
  : result middle :=
  match idxs with
  | [] => Ok st
  | i :: idxs' =>
      st' ← middle_step newChildren keyIndex j count oldChildren st i;
      middle_loop newChildren keyIndex j count oldChildren idxs' st'
  end.

(** [for (i; i >= 0; i--)] over the unresolved next children, entered
    with [i = n - 1]; [s] is the cursor into [seq]. *)
Fixpoint move_loop (n : nat) (newChildren : list vnode) (souce : list Z)
    (seq : list (option Z)) (j s : Z) (ops : list op) : list op :=
  match n with
  | O => ops
  | S i =>
      let pos := Z.of_nat i + j in
      if bool_decide (souce !! i = Some (-1)) then
        move_loop i newChildren souce seq j s
                  (ops ++ [OMount (Z.to_nat pos) (anchor_at newChildren (pos + 1))])
      else if negb (bool_decide (arr_get seq s = Some (Z.of_nat i))) then
        move_loop i newChildren souce seq j s
                  (ops ++ [OInsert (Z.to_nat pos) (anchor_at newChildren (pos + 1))])
      else move_loop i newChildren souce seq j (s - 1) ops
  end.

Definition patchKeyedChildren (oldChildren newChildren : list vnode)
  : result (list op) :=
  let j := 0 in
  let oldEnd := Z.of_nat (length oldChildren) - 1 in
  let newEnd := Z.of_nat (length newChildren) - 1 in
  '(j, ops) ← forward (S (length oldChildren)) oldChildren newChildren j [];
  '(oldEnd, newEnd, ops) ←
    backward (S (length oldChildren)) oldChildren newChildren oldEnd newEnd ops;
  if (j <=? newEnd) && (oldEnd <? j) then
    let anchorIndex := newEnd + 1 in
    let anchor := anchor_at newChildren anchorIndex in
    Ok (ops ++ ((fun k => OMount (Z.to_nat k) anchor) <$> seqZ j (newEnd - j + 1)))
  else if (newEnd <? j) && (j <=? oldEnd) then
    Ok (ops ++ ((fun i => OUnmount (Z.to_nat i)) <$> seqZ j (oldEnd - j + 1)))
  else
    let count := newEnd - j + 1 in
    if count <? 0 then Throw RangeError      (* new Array(count) *)
    else
      let souce := replicate (Z.to_nat count) (-1) in
      let keyIndex :=
        foldl (fun m i =>
                 match child newChildren i with
                 | Some newNode => keyIndex_set m (vn_key newNode) i
                 | None => m
                 end) ∅ (seqZ j count) in
      st ← middle_loop newChildren keyIndex j count oldChildren
             (seqZ j (oldEnd - j + 1))
             {| m_souce := souce; m_patched := 0; m_pos := 0;
                m_moved := false; m_ops := ops |};
      if m_moved st then
        match getSequence (m_souce st) with
        | None => OutOfFuel
        | Some seq =>
            Ok (move_loop (Z.to_nat count) newChildren (m_souce st) seq j
                          (Z.of_nat (length seq) - 1) (m_ops st))
        end
      else Ok (m_ops st).

(** *** patchChildren *)

(** [children as TypeVnode[]], then used as an array: anything but an
    array has no [forEach], [length] or elements to offer. *)
Definition as_array (c : children vnode) : result (list vnode) :=
  match c with
  | ChArray l => Ok l
  | _ => Throw TypeError
  end.

(** [newChildren !== oldChildren], asked when the next children are text. *)
Definition children_differ (newChildren oldChildren : children vnode) : bool :=
  match newChildren, oldChildren with
  | ChText s, ChText s' => negb (bool_decide (s = s'))
  | ChNumber n, ChNumber n' => negb (n =? n')
  | ChNull, ChNull => false
  | _, _ => true
  end.

Definition text_of (c : children vnode) : string :=
  match c with
  | ChText s => s
  | ChNumber n => pretty n
  | ChNull => "null"
  | ChArray _ => ""
  end.

(** The test that chooses between the two diffs:
    [oldChildren[0] && oldChildren[0].key && newChildren[0] && newChildren[0].key] *)
Definition first_keys_truthy (oldChildren newChildren : list vnode) : bool :=
  match oldChildren !! 0%nat, newChildren !! 0%nat with
  | Some o, Some n => truthy (vn_key o) && truthy (vn_key n)
  | _, _ => false
  end.

Definition patchChildren (preVnode newVnode : vnode) : result (list op) :=
  let prevShapeFlag := vn_shapeFlag preVnode in
  let oldChildren := vn_children preVnode in
  let newShapFlag := vn_shapeFlag newVnode in
  let newChildren := vn_children newVnode in
  if has_flag newShapFlag ShapeFlags.TEXT_CHILDREN then
    ops ← (if has_flag prevShapeFlag ShapeFlags.ARRAY_CHILDREN
           then l ← as_array oldChildren; Ok (unmountChildren 0 l)
           else Ok []);
    if children_differ newChildren oldChildren
    then Ok (ops ++ [OSetText (text_of newChildren)])
    else Ok ops
  else if has_flag newShapFlag ShapeFlags.ARRAY_CHILDREN then
    if has_flag prevShapeFlag ShapeFlags.ARRAY_CHILDREN then
      olds ← as_array oldChildren;
      news ← as_array newChildren;
      if first_keys_truthy olds news
      then patchKeyedChildren olds news
      else Ok (patchUnkeyedChildren olds news)
    else
      news ← as_array newChildren;
      Ok (OSetText "" :: mountChildren 0 news AParam)
  else
    ops ← (if has_flag prevShapeFlag ShapeFlags.ARRAY_CHILDREN
           then l ← as_array newChildren;
                Ok (imap (fun k _ => OUnmountNew k) l)
           else Ok []);
    Ok (ops ++ [OSetText ""]).

(** *** Small trees to run the diff on *)

(** [h('li', { key: k })] *)
Definition li (k : value) : vnode :=
  h (TTag "li") (Some {[ "key"%string := k ]}) ChNull.

(** [h('ul', null, [...])] *)
Definition ul (l : list vnode) : vnode :=
  h (TTag "ul") None (ChArray l).

(** *** Notions used to state what the renderer does *)

(** Strictly ascending values. *)
Definition ascending (vals : list Z) : Prop :=
  forall i j a b, vals !! i = Some a -> vals !! j = Some b -> (i < j)%nat -> a < b.

(** The slot [l] of [vals] taken by [x]: overwritten, or added at the end. *)
Definition place (l : nat) (x : Z) (vals : list Z) : list Z :=
  take l vals ++ x :: drop (S l) vals.

(** Positions of [nums] in increasing order that carry increasing
    values, built at the end ([incr]) or at the front ([chain]). *)
Inductive incr (nums : list Z) : list nat -> Prop :=
| incr_nil : incr nums []
| incr_one i v : nums !! i = Some v -> incr nums [i]
| incr_snoc js i j v w :
    incr nums (js ++ [i]) -> (i < j)%nat ->
    nums !! i = Some v -> nums !! j = Some w -> v < w ->
    incr nums (js ++ [i; j]).

Inductive chain (nums : list Z) : list nat -> Prop :=
| chain_nil : chain nums []
| chain_one i v : nums !! i = Some v -> chain nums [i]
| chain_cons i j js v w :
    nums !! i = Some v -> nums !! j = Some w -> (i < j)%nat -> v < w ->
    chain nums (j :: js) -> chain nums (i :: j :: js).

Definition positions (js : list nat) : list (option Z) :=
  (fun j => Some (Z.of_nat j)) <$> js.

(** What the scan has built when it has read [prefix]. *)
Record scanned (prefix vals position : list Z) : Prop := Scanned {
  sc_asc : ascending vals;
  sc_len : length position = length prefix;
  sc_last : forall c v, vals !! c = Some v ->
    exists i, position !! i = Some (Z.of_nat c) /\ prefix !! i = Some v
      /\ forall i', (i < i')%nat -> position !! i' ≠ Some (Z.of_nat c);
  sc_prev : forall i c x,
    position !! i = Some (Z.of_nat (S c)) -> prefix !! i = Some x ->
    exists i' y, (i' < i)%nat /\ position !! i' = Some (Z.of_nat c)
      /\ prefix !! i' = Some y /\ y < x
      /\ forall i'', (i' < i'' < i)%nat -> position !! i'' ≠ Some (Z.of_nat c);
  sc_best : forall js, incr prefix js ->
    (length js <= length vals)%nat
    /\ forall j v, last js = Some j -> prefix !! j = Some v ->
         exists w, vals !! (length js - 1)%nat = Some w /\ w <= v
}.

(** What the keyed diff may ask for: a patch of two children that exist
    and whose keys print the same, the removal of a previous child that
    exists, the mounting or the moving of a next child that exists, before
    a next child that exists or at the end. *)
Definition anchor_exists (news : list vnode) (a : anchor) : Prop :=
  match a with
  | AEl k => is_Some (news !! k)
  | ANull | AParam => True
  end.

Definition sound_op (olds news : list vnode) (o : op) : Prop :=
  match o with
  | OPatch i k =>
      exists old new, olds !! i = Some old /\ news !! k = Some new
        /\ js_String (vn_key old) = js_String (vn_key new)
  | OUnmount i => is_Some (olds !! i)
  | OMount k a | OInsert k a => is_Some (news !! k) /\ anchor_exists news a
  | OUnmountNew _ | OSetText _ => False
  end.

(** Every entry of [keyIndex] names a next child under the printed form
    of its key. *)
Definition keyIndex_sound (news : list vnode) (keyIndex : gmap string Z) : Prop :=
  forall s k, keyIndex !! s = Some k ->
    exists new, child news k = Some new /\ js_String (vn_key new) = s.

End Renderer.

(** ** The host side of the renderer: props and DOM nodes *)

Module Dom.
Import Stdlib.Strings.Ascii.
Import Renderer.

(** *** patchProps

    What [patchProps] does to an element is a sequence of calls of the
    host; they are recorded in the order in which they are made.  In
    [patchProps] a call is taken to return: one that throws ends
    [patchProps] there.  What a call does to the nodes of the document, or
    that it throws, is the host's affair: [el.textContent = v], for one,
    replaces the children of the element.  [mountProps], which patches the
    props of an element being mounted, has the host carry the calls out
    ([host_call] below). *)

Inductive dom_call :=
| SetClassName (v : value)                        (* [el.className = v] *)
| RemoveAttribute (name : string)                 (* [el.removeAttribute(name)] *)
| SetAttribute (name : string) (v : value)        (* [el.setAttribute(name, v)] *)
| SetStyle (name : string) (v : value)            (* [el.style[name] = v] *)
| RemoveEventListener (event : string) (fn : value)
| AddEventListener (event : string) (fn : value)
| SetDomProp (name : string) (v : value).         (* [el[name] = v] *)

(** [v == null] *)
Definition nullish (v : value) : bool :=
  match v with VUndef | VNull => true | _ => false end.

Definition is_lower (c : Ascii.ascii) : bool :=
  ((97 <=? Ascii.nat_of_ascii c) && (Ascii.nat_of_ascii c <=? 122))%nat.
Definition is_upper (c : Ascii.ascii) : bool :=
  ((65 <=? Ascii.nat_of_ascii c) && (Ascii.nat_of_ascii c <=? 90))%nat.

(** [/^on[^a-z]/.test(key)] *)
Definition is_event (key : string) : bool :=
  match key with
  | String "o"%char (String "n"%char (String c _)) => negb (is_lower c)
  | _ => false
  end.

Fixpoint has_upper (s : string) : bool :=
  match s with
  | EmptyString => false
  | String c s' => is_upper c || has_upper s'
  end.

(** [domPropsRE.test(key)], for
    [/[A-Z]|^(value|checked|selected|muted|disabled)$/] *)
Definition domPropsRE (key : string) : bool :=
  has_upper key
  || bool_decide (key ∈ ["value"; "checked"; "selected"; "muted"; "disabled"]%string).

(** [key.slice(2)] *)
Definition slice2 (key : string) : string :=
  match key with
  | String _ (String _ rest) => rest
  | _ => ""%string
  end.

(** *** DOM nodes

    The nodes there are, each named by its index in the list: nodes are
    created and changed, never deleted.  A node has its kind, its
    children and its parent; of a text node the data is kept, and of an
    element the calls that [patchProps] made on it. *)

Inductive kind :=
| KElement (tag : string)
| KText.

Record node := Node {
  n_kind : kind;
  n_data : string;            (* the data of a text node *)
  n_children : list nat;
  n_parent : option nat;
  n_calls : list dom_call
}.

Definition is_text (n : node) : bool :=
  match n_kind n with KText => true | KElement _ => false end.

Definition with_children (l : list nat) (n : node) : node :=
  Node (n_kind n) (n_data n) l (n_parent n) (n_calls n).
Definition with_parent (p : option nat) (n : node) : node :=
  Node (n_kind n) (n_data n) (n_children n) p (n_calls n).
Definition with_data (s : string) (n : node) : node :=
  Node (n_kind n) s (n_children n) (n_parent n) (n_calls n).
Definition with_calls (c : list dom_call) (n : node) : node :=
  Node (n_kind n) (n_data n) (n_children n) (n_parent n) c.

(** Names as those of [HTMLElementTagNameMap] are: a small letter, then
    small letters and digits. *)
Definition is_digit (c : Ascii.ascii) : bool :=
  ((48 <=? Ascii.nat_of_ascii c) && (Ascii.nat_of_ascii c <=? 57))%nat.

Fixpoint all_chars (p : Ascii.ascii -> bool) (s : string) : bool :=
  match s with
  | EmptyString => true
  | String c s' => p c && all_chars p s'
  end.

Definition tag_name (tag : string) : bool :=
  match tag with
  | EmptyString => false
  | String c rest => is_lower c && all_chars (fun c => is_lower c || is_digit c) rest
  end.

(** [document.createElement(tag)] and [document.createTextNode(data)]; a
    tag is one of the names of [HTMLElementTagNameMap], which the host
    accepts and keeps as they are (see [tag_name]). *)
Definition createElement (tag : string) (d : list node) : nat * list node :=
  (length d, d ++ [Node (KElement tag) "" [] None []]).
Definition createTextNode (data : string) (d : list node) : nat * list node :=
  (length d, d ++ [Node KText data [] None []]).

(** [node.parentNode] *)
Definition parentNode (d : list node) (i : nat) : option nat := d !! i ≫= n_parent.

(** The element of [l] that follows [i]. *)
Fixpoint following (i : nat) (l : list nat) : option nat :=
  match l with
  | [] => None
  | x :: l' => if bool_decide (x = i) then head l' else following i l'
  end.

(** [node.nextSibling] *)
Definition nextSibling (d : list node) (i : nat) : option nat :=
  p ← parentNode d i; n ← d !! p; following i (n_children n).

(** Taking a node out of the children of its parent. *)
Definition detach (i : nat) (d : list node) : list node :=
  match parentNode d i with
  | None => d
  | Some p =>
      alter (with_parent None) i
        (alter (fun n => with_children (filter (fun x => x ≠ i) (n_children n)) n) p d)
  end.

(** [node.parentNode.removeChild(node)]: a [TypeError] when the node has
    no parent. *)
Definition remove (i : nat) (d : list node) : result (list node) :=
  match parentNode d i with
  | None => Throw TypeError
  | Some _ => Ok (detach i d)
  end.

(** [l] with [c] put before [a], at the end when there is no [a]. *)
Fixpoint put_before (c : nat) (a : option nat) (l : list nat) : list nat :=
  match l with
  | [] => [c]
  | x :: l' => if bool_decide (a = Some x) then c :: x :: l' else x :: put_before c a l'
  end.

(** The node [i], its parent, the parent of that, and so on. *)
Fixpoint ancestors (fuel : nat) (d : list node) (i : nat) : list nat :=
  match fuel with
  | O => []
  | S fuel' =>
      i :: match parentNode d i with
           | Some p => ancestors fuel' d p
           | None => []
           end
  end.

(** [parent.insertBefore(node, anchor)].  The host refuses a parent that
    is a text node, a node that is the parent or one of its ancestors, and
    an anchor that is not a child of the parent.  A node that has a parent
    is taken out of it first; with the node itself as anchor, the anchor is
    the node that follows it. *)
Definition insertBefore (parent c : nat) (a : option nat) (d : list node) : result (list node) :=
  match d !! parent with
  | None => Throw TypeError
  | Some pn =>
      if is_text pn then Throw "HierarchyRequestError"
      else if bool_decide (c ∈ ancestors (S (length d)) d parent)
      then Throw "HierarchyRequestError"
      else if match a with Some a' => bool_decide (a' ∈ n_children pn) | None => true end
      then
        let a := if bool_decide (a = Some c) then nextSibling d c else a in
        let d := detach c d in
        Ok (alter (with_parent (Some parent)) c
              (alter (fun n => with_children (put_before c a (n_children n)) n) parent d))
      else Throw "NotFoundError"
  end.

(** [node.textContent = s]: the data of a text node; for an element, its
    children are replaced by one text node, by none when [s] is empty. *)
Definition set_textContent (i : nat) (s : string) (d : list node) : list node :=
  match d !! i with
  | None => d
  | Some n =>
      match n_kind n with
      | KText => alter (with_data s) i d
      | KElement _ =>
          let d := foldr (fun c d => alter (with_parent None) c d) d (n_children n) in
          if bool_decide (s = ""%string) then alter (with_children []) i d
          else
            let '(t, d) := createTextNode s d in
            alter (with_parent (Some i)) t (alter (with_children [t]) i d)
      end
  end.

(** *** Mounted vnodes

    A vnode with what [patch] has written into it: its [el], its
    [anchor], and its array children, each with its own.  (Every vnode
    is taken to be an object of its own: one object mounted in two places
    is not modelled.) *)
#[warnings="-register-all"]
Inductive mounted :=
  Mounted (v : vnode) (el anchor : option nat) (kids : list mounted).

Definition m_vnode (m : mounted) : vnode := let 'Mounted v _ _ _ := m in v.
Definition m_el (m : mounted) : option nat := let 'Mounted _ el _ _ := m in el.
Definition m_anchor (m : mounted) : option nat := let 'Mounted _ _ a _ := m in a.
Definition m_kids (m : mounted) : list mounted := let 'Mounted _ _ _ k := m in k.

(** [String(children)], as [createTextNode] takes it: vnodes are object
    literals. *)
Definition text_of (c : children vnode) : string :=
  match c with
  | ChNull => "null"
  | ChText s => s
  | ChNumber n => pretty n
  | ChArray l => String.concat "," ((fun _ => "[object Object]"%string) <$> l)
  end.

(** The same as the setter of [textContent] takes it: [null] is the
    empty string. *)
Definition textContent_of (c : children vnode) : string :=
  match c with
  | ChNull => ""
  | _ => text_of c
  end.

(** [children.forEach]: a [TypeError] unless the children are an array. *)
Definition as_array (c : children vnode) : result (list vnode) :=
  match c with
  | ChArray l => Ok l
  | _ => Throw TypeError
  end.

(** *** Notions used to state what mounting does *)

(** A tree of nodes as it shows in the document. *)
#[warnings="-register-all"]
Inductive shape :=
| SElement (tag : string) (kids : list shape)
| SText (data : string).

(** The node [i] of [d], a child of [parent], is the root of a tree of
    the given shape, and all the nodes of the tree are among the nodes
    [lo], ..., [hi - 1]. *)
Fixpoint has_shape (lo hi : nat) (d : list node) (parent : option nat) (i : nat)
    (sh : shape) {struct sh} : Prop :=
  (lo <= i < hi)%nat
  /\ exists n, d !! i = Some n /\ n_parent n = parent
     /\ match sh with
        | SText data => n_kind n = KText /\ n_data n = data /\ n_children n = []
        | SElement tag kids =>
            n_kind n = KElement tag
            /\ (fix all (ids : list nat) (kids : list shape) {struct kids} : Prop :=
                  match kids, ids with
                  | [], [] => True
                  | k :: kids', j :: ids' =>
                      has_shape lo hi d (Some i) j k /\ all ids' kids'
                  | _, _ => False
                  end) (n_children n) kids
        end.

(** Props that ask nothing of the host: [null], or an object with no own
    key but [key]. *)
Definition only_key (props : option (gmap string value)) : Prop :=
  match props with
  | None => True
  | Some p => forall k, is_Some (p !! k) -> k = "key"%string
  end.

(** The vnodes that [h] builds without components, a Fragment having an
    array of children and an element a tag name and no props but a [key]. *)
Fixpoint built (v : vnode) : Prop :=
  let 'VNode type props kids shapeFlag key := v in
  VNode type props kids shapeFlag key = h type props kids
  /\ match type with
     | TComponent _ => False
     | TFragment => exists l, kids = ChArray l
     | TTag tag => tag_name tag = true /\ only_key props
     | TText => True
     end
  /\ match kids with
     | ChArray l =>
         (fix all (l : list vnode) : Prop :=
            match l with
            | [] => True
            | c :: l' => built c /\ all l'
            end) l
     | _ => True
     end.

(** The number of levels of a vnode. *)
Fixpoint height (v : vnode) : nat :=
  let 'VNode _ _ kids _ _ := v in
  match kids with
  | ChArray l =>
      S ((fix most (l : list vnode) : nat :=
            match l with
            | [] => O
            | c :: l' => Nat.max (height c) (most l')
            end) l)
  | _ => 1%nat
  end.

(** The nodes a vnode stands for: an element with its children, a text
    node, or for a Fragment an empty text node, the nodes of its children
    and another empty text node. *)
Fixpoint dom_of (v : vnode) : list shape :=
  let 'VNode type _ kids _ _ := v in
  let below :=
    match kids with
    | ChArray l =>
        (fix go (l : list vnode) : list shape :=
           match l with
           | [] => []
           | c :: l' => dom_of c ++ go l'
           end) l
    | ChText s => if bool_decide (s = ""%string) then [] else [SText s]
    | ChNumber n => [SText (pretty n)]
    | ChNull => []
    end in
  match type with
  | TTag tag => [SElement tag below]
  | TText => [SText (text_of kids)]
  | TFragment => SText "" :: below ++ [SText ""]
  | TComponent _ => []
  end.

(** [anchor] is where [after] begins in the children [before ++ after]
    of a container: [null] stands for the end. *)
Definition anchor_at_split (anchor : option nat) (before after : list nat) : Prop :=
  match anchor with
  | None => after = []
  | Some a => head after = Some a /\ a ∉ before
  end.

(** What mounting before an anchor does to the nodes [d]: the container
    [c] gets the new nodes [ids] between [before] and [after], the new
    nodes are the roots of trees of the given shapes, made of nodes that
    were not there, and no other node that was there is touched. *)
Record mounts (c : nat) (cn : node) (before after : list nat) (d d' : list node)
    (ids : list nat) (shapes : list shape) : Prop := Mounts {
  mp_len : (length d <= length d')%nat;
  mp_frame : forall i, (i < length d)%nat -> i ≠ c -> d' !! i = d !! i;
  mp_container : d' !! c = Some (with_children (before ++ ids ++ after) cn);
  mp_shapes : Forall2 (has_shape (length d) (length d') d' (Some c)) ids shapes;
  mp_nodup : NoDup ids
}.

(** What [patch] has written into a vnode that it mounted as the nodes
    [ids]: its [el] is the first of them, and for a Fragment its [anchor]
    is the last. *)
Definition mounted_as (v : vnode) (m : mounted) (ids : list nat) : Prop :=
  m_vnode m = v /\ m_el m = head ids
  /\ m_anchor m = match vn_type v with TFragment => last ids | _ => None end.

(** A place where nodes can be mounted: an element [c] of [d] whose
    children are [before ++ after], with [anchor] where [after] begins;
    the children and the ancestors of [c] are nodes of [d]. *)
Record mount_point (c : nat) (cn : node) (before after : list nat) (anchor : option nat)
    (d : list node) : Prop := MountPoint {
  mt_container : d !! c = Some cn;
  mt_element : is_text cn = false;
  mt_children : n_children cn = before ++ after;
  mt_anchor : anchor_at_split anchor before after;
  mt_exist : Forall (fun x => (x < length d)%nat) (before ++ after);
  mt_nodup : NoDup (before ++ after);
  mt_above : forall fuel j, j ∈ ancestors fuel d c -> (j < length d)%nat
}.

Section Host.
(** What is left to the host and to the language. *)
Variable keys_of : value -> list string.      (* the names [for (name in v)] visits *)
Variable get : value -> string -> value.      (* [v[name]] *)
Variable toLowerCase : string -> string.
Variable is_boolean : list dom_call -> string -> bool.
  (* [typeof el[key] === 'boolean'], for the element the calls so far made *)
Variable inherited : string -> value.
  (* what an object literal answers for a key it does not own: the member
     of [Object.prototype] of that name, [undefined] when there is none *)
Variable enumerate : gmap string value -> list string.
  (* the keys of a props object in the order in which [for ... in] visits them *)
Variable host_call : dom_call -> nat -> list node -> result (list node).
  (* what a call on the element [el] does to the nodes, or that it throws *)

(** [patchDomProp(prev, next, key, el)] *)
Definition patchDomProp (prev next : value) (key : string) (el : list dom_call)
  : list dom_call :=
  if bool_decide (key = "class"%string) then
    el ++ [SetClassName (if truthy next then next else VStr "")]
  else if bool_decide (key = "style"%string) then
    if nullish next then el ++ [RemoveAttribute "style"]
    else
      el ++ ((fun styleName => SetStyle styleName (get next styleName)) <$> keys_of next)
         ++ (if truthy prev then
               keys_of prev ≫= (fun styleName =>
                 if nullish (get next styleName) then [SetStyle styleName (VStr "")] else [])
             else [])
  else if is_event key then
    let eventName := toLowerCase (slice2 key) in
    el ++ (if truthy prev then [RemoveEventListener eventName prev] else [])
       ++ (if truthy next then [AddEventListener eventName next] else [])
  else if domPropsRE key then
    let next :=
      if strict_eq next (VStr "") && is_boolean el key then VBool true else next in
    el ++ [SetDomProp key next]
  else if strict_eq next (VBool false) || nullish next then el ++ [RemoveAttribute key]
  else el ++ [SetAttribute key next].

(** [props[key]] for a props object *)
Definition prop (props : gmap string value) (key : string) : value :=
  from_option id (inherited key) (props !! key).

(** The calls of [patchDomProp] that [patchProps] makes, as
    [(prev, next, key)].  [same] tells whether the two props are one and
    the same object; two [null]s are equal. *)
Definition patchProps_requests (same : bool) (oldProps newProps : option (gmap string value))
  : list (value * value * string) :=
  if match oldProps, newProps with
     | None, None => true
     | Some _, Some _ => same
     | _, _ => false
     end
  then []                                                   (* [oldProps === newProps] *)
  else
    let oldProps := default ∅ oldProps in
    let newProps := default ∅ newProps in
    (enumerate newProps ≫= (fun key =>
       if bool_decide (key = "key"%string) then []
       else
         let next := prop newProps key in
         let prev := prop oldProps key in
         if negb (strict_eq next prev) then [(prev, next, key)] else []))
    ++ (enumerate oldProps ≫= (fun key =>
          if nullish (prop newProps key) then [(prop oldProps key, VNull, key)] else [])).

(** [patchProps(oldProps, newProps, el)] *)
Definition patchProps (same : bool) (oldProps newProps : option (gmap string value))
    (el : list dom_call) : list dom_call :=
  foldl (fun el '(prev, next, key) => patchDomProp prev next key el) el
        (patchProps_requests same oldProps newProps).

(** The parts of [patch] that are not modelled: what it does to a
    component, and what it does to the children of two vnodes of the same
    element or fragment type. *)
Variable mountComponent : vnode -> nat -> option nat -> list node -> result (mounted * list node).
Variable updateComponent : mounted -> vnode -> list node -> result (mounted * list node).
Variable unmountComponent : mounted -> list node -> result (list node).
Variable patchElement : mounted -> vnode -> list node -> result (mounted * list node).
Variable patchFragment : mounted -> vnode -> nat -> list node -> result (mounted * list node).
  (* [patchChildren(preVnode, newVnode, container, fragmentEndAnchor)] *)

(** [patchProps(null, props, el)] on the node [el]: the calls it makes are
    recorded on the element, and the host carries them out one after
    another, until one throws. *)
Definition mountProps (props : option (gmap string value)) (el : nat) (d : list node)
  : result (list node) :=
  match d !! el with
  | None => Throw TypeError
  | Some n =>
      let calls := patchProps false None props (n_calls n) in
      foldl (fun r c => d ← r; host_call c el d)
            (Ok (<[el := with_calls calls n]> d))
            (drop (length (n_calls n)) calls)
  end.

Section Patch.
Variable patch : option mounted -> vnode -> nat -> option nat -> list node -> result (mounted * list node).

(** [mountChildren(children, container, anchor)] *)
Fixpoint mountChildren (l : list vnode) (container : nat) (anchor : option nat) (d : list node)
  : result (list mounted * list node) :=
  match l with
  | [] => Ok ([], d)
  | child :: l' =>
      '(m, d) ← patch None child container anchor d;
      '(ms, d) ← mountChildren l' container anchor d;
      Ok (m :: ms, d)
  end.

(** [mountElement(vnode, container, anchor)] *)
Definition mountElement (v : vnode) (container : nat) (anchor : option nat) (d : list node)
  : result (mounted * list node) :=
  match vn_type v with
  | TTag tag =>
      let '(el, d) := createElement tag d in
      d ← mountProps (vn_props v) el d;
      '(ms, d) ←
        (if has_flag (vn_shapeFlag v) ShapeFlags.TEXT_CHILDREN
         then Ok ([], set_textContent el (textContent_of (vn_children v)) d)
         else if has_flag (vn_shapeFlag v) ShapeFlags.ARRAY_CHILDREN
         then l ← as_array (vn_children v); mountChildren l el None d
         else Ok ([], d));
      d ← match vn_props v with
          | Some _ => mountProps (vn_props v) el d      (* [if (props)] *)
          | None => Ok d
          end;
      d ← insertBefore container el anchor d;
      Ok (Mounted v (Some el) None ms, d)
  | TText | TFragment => Throw TypeError              (* [createElement] of a symbol *)
  | TComponent _ => Throw "InvalidCharacterError"    (* [createElement] of an object *)
  end.

(** [mountTextNode(vnode, container, anchor)] *)
Definition mountTextNode (v : vnode) (container : nat) (anchor : option nat) (d : list node)
  : result (mounted * list node) :=
  let '(textNode, d) := createTextNode (text_of (vn_children v)) d in
  d ← insertBefore container textNode anchor d;
  Ok (Mounted v (Some textNode) None [], d).

(** [processElement(preVnode, newVnode, container, anchor)] *)
Definition processElement (pre : option mounted) (new : vnode) (container : nat)
    (anchor : option nat) (d : list node) : result (mounted * list node) :=
  match pre with
  | None => mountElement new container anchor d
  | Some pre => patchElement pre new d
  end.

(** [processText(preVnode, newVnode, container, anchor)] *)
Definition processText (pre : option mounted) (new : vnode) (container : nat)
    (anchor : option nat) (d : list node) : result (mounted * list node) :=
  match pre with
  | None => mountTextNode new container anchor d
  | Some pre =>
      match m_el pre with
      | None => Throw TypeError
      | Some el =>
          Ok (Mounted new (Some el) None [],
              set_textContent el (textContent_of (vn_children new)) d)
      end
  end.

(** [processFragment(preVnode, newVnode, container, anchor)] *)
Definition processFragment (pre : option mounted) (new : vnode) (container : nat)
    (anchor : option nat) (d : list node) : result (mounted * list node) :=
  match pre with
  | None =>
      let '(fragmentStartAnchor, d) := createTextNode "" d in
      let '(fragmentEndAnchor, d) := createTextNode "" d in
      d ← insertBefore container fragmentStartAnchor anchor d;
      d ← insertBefore container fragmentEndAnchor anchor d;
      l ← as_array (vn_children new);
      '(ms, d) ← mountChildren l container (Some fragmentEndAnchor) d;
      Ok (Mounted new (Some fragmentStartAnchor) (Some fragmentEndAnchor) ms, d)
  | Some pre => patchFragment pre new container d
  end.

(** [processComponent(preVnode, newVnode, container, anchor)] *)
Definition processComponent (pre : option mounted) (new : vnode) (container : nat)
    (anchor : option nat) (d : list node) : result (mounted * list node) :=
  match pre with
  | None => mountComponent new container anchor d
  | Some pre => updateComponent pre new d
  end.

(** The loop of [unmountFragment], entered with [cur]. *)
Fixpoint unmountFragment_loop (fuel : nat) (cur end_ : option nat) (d : list node) : result (list node) :=
  if bool_decide (cur = end_) then Ok d
  else
    match fuel with
    | O => OutOfFuel
    | S fuel' =>
        match cur with
        | None => Throw TypeError
        | Some c =>
            let next := nextSibling d c in
            d ← remove c d;
            unmountFragment_loop fuel' next end_ d
        end
    end.

(** [unmountFragment(vnode)] *)
Definition unmountFragment (m : mounted) (d : list node) : result (list node) :=
  d ← unmountFragment_loop (length d) (m_el m) (m_anchor m) d;
  match m_anchor m with
  | None => Throw TypeError
  | Some end_ => remove end_ d
  end.

(** [unmount(vnode)] *)
Definition unmount (m : mounted) (d : list node) : result (list node) :=
  let shapeFlag := vn_shapeFlag (m_vnode m) in
  if has_flag shapeFlag ShapeFlags.COMPONENT then unmountComponent m d
  else if has_flag shapeFlag ShapeFlags.FRAGMENT then unmountFragment m d
  else
    match m_el m with
    | None => Throw TypeError
    | Some el => remove el d
    end.

(** [patch(preVnode, newVnode, container, anchor)] *)
Definition patch_body (pre : option mounted) (new : vnode) (container : nat)
    (anchor : option nat) (d : list node) : result (mounted * list node) :=
  let shapeFlag := vn_shapeFlag new in
  '(pre, anchor, d) ←
    match pre with
    | Some p =>
        if bool_decide (vn_type (m_vnode p) = vn_type new) then Ok (pre, anchor, d)
        else
          match (match m_anchor p with Some a => Some a | None => m_el p end) with
          | None => Throw TypeError
          | Some x =>
              let anchor := nextSibling d x in
              d ← unmount p d;
              Ok (None, anchor, d)
          end
    | None => Ok (None, anchor, d)
    end;
  if has_flag shapeFlag ShapeFlags.ELEMENT then processElement pre new container anchor d
  else if has_flag shapeFlag ShapeFlags.TEXT then processText pre new container anchor d
  else if has_flag shapeFlag ShapeFlags.FRAGMENT then processFragment pre new container anchor d
  else if has_flag shapeFlag ShapeFlags.COMPONENT
  then processComponent pre new container anchor d
  else Ok (Mounted new None None [], d).

End Patch.

Fixpoint patch (fuel : nat) (pre : option mounted) (new : vnode) (container : nat)
    (anchor : option nat) (d : list node) : result (mounted * list node) :=
  match fuel with
  | O => OutOfFuel
  | S fuel' => patch_body (patch fuel') pre new container anchor d
  end.

(** [render(vnode, container)], [prev] being [container._vnode]; it
    yields the new [container._vnode]. *)
Definition render (fuel : nat) (vnode : option vnode) (container : nat)
    (prev : option mounted) (d : list node) : result (option mounted * list node) :=
  match vnode with
  | None =>
      match prev with
      | Some p => d ← unmount p d; Ok (None, d)
      | None => Ok (None, d)
      end
  | Some v => '(m, d) ← patch fuel prev v container None d; Ok (Some m, d)
  end.

End Host.

(** A page to mount into: a [div] that holds a heading and a footer. *)
Definition page : list node :=
  [ Node (KElement "div") "" [1; 2]%nat None [];
    Node (KElement "h1") "" [] (Some 0%nat) [];
    Node (KElement "footer") "" [] (Some 0%nat) [] ].

(** [h('ul', null, [h('li', { key: 1 }, 'a'), h(Fragment, null, [h(Text, null, 'b')])])] *)
Definition a_list : vnode :=
  h (TTag "ul") None
    (ChArray [ h (TTag "li") (Some {[ "key"%string := VNum 1 ]}) (ChText "a");
               h TFragment None (ChArray [h TText None (ChText "b")]) ]).

End Dom.

(** ** Scheduler: the job queue and its flush *)

Module Scheduler.

Inductive microtask :=
| MFlushThen       (* [() => { jobQueue.forEach((fn) => fn()) }] *)
| MFlushFinally.   (* [() => { isFlushing = false; jobQueue.clear(); ... }] *)

(** How the loop of a flush comes to its end. *)
Inductive loop_end :=
| Completed      (* every entry of the queue has been visited *)
| Thrown         (* a callback threw: the exception leaves [forEach] *)
| Stopped.       (* the given number of calls did not suffice *)

#[global] Instance loop_end_eq_dec : EqDecision loop_end.
Proof. solve_decision. Defined.

Section Jobs.
(** Jobs are functions compared by identity.  What a job does when it is
    called is up to the application: it updates the application's own
    state and may call [queueJob], any number of times, and then it
    returns or throws.  [run_job fn u] is what the call made in state [u]
    has done when it ends, [throws fn u] whether it ends by an exception. *)
Context {job : Type} `{EqDecision job}.
Context {U : Type}.
Variable run_job : job -> U -> U * list job.
Variable throws : job -> U -> bool.

Record state := State {
  jobQueue : list job;             (* a Set, in insertion order *)
  isFlushing : bool;
  currentFlushPromise : bool;      (* [true]: a promise, [false]: null *)
  microtasks : list microtask;     (* the host's microtask queue *)
  user : U;
  ran : list job;                  (* every call of a job, in order *)
  queued : list job                (* every call of [queueJob], in order *)
}.

Definition initial (u : U) : state :=
  {| jobQueue := []; isFlushing := false; currentFlushPromise := false;
     microtasks := []; user := u; ran := []; queued := [] |}.

(** [jobQueue.add(fn)] *)
Definition set_add (fn : job) (q : list job) : list job :=
  if bool_decide (fn ∈ q) then q else q ++ [fn].

(** [flushJob()] *)
Definition flushJob (st : state) : state :=
  if isFlushing st then st
  else {| jobQueue := jobQueue st; isFlushing := true;
          currentFlushPromise := true;
          microtasks := microtasks st ++ [MFlushThen];
          user := user st; ran := ran st; queued := queued st |}.

(** [queueJob(fn)] *)
Definition queueJob (fn : job) (st : state) : state :=
  flushJob {| jobQueue := set_add fn (jobQueue st); isFlushing := isFlushing st;
              currentFlushPromise := currentFlushPromise st;
              microtasks := microtasks st; user := user st; ran := ran st;
              queued := queued st ++ [fn] |}.

(** [fn()] for a queued job: its own work and the [queueJob] calls it made,
    up to its return or to the exception it throws. *)
Definition call_job (fn : job) (st : state) : state :=
  let '(u, qs) := run_job fn (user st) in
  foldl (fun st q => queueJob q st)
        {| jobQueue := jobQueue st; isFlushing := isFlushing st;
           currentFlushPromise := currentFlushPromise st;
           microtasks := microtasks st; user := u; ran := ran st ++ [fn];
           queued := queued st |}
        qs.

(** [jobQueue.forEach((fn) => fn())], resumed at position [i] of the
    set's insertion order.  An entry added while the loop runs is visited
    like any other.  Nothing catches what a callback throws: the exception
    ends the loop there.  At most [fuel] callbacks are called; how the loop
    ended and the position reached are returned with the state. *)
Fixpoint forEach (fuel : nat) (i : nat) (st : state) : loop_end * nat * state :=
  match jobQueue st !! i with
  | None => (Completed, i, st)
  | Some fn =>
      match fuel with
      | O => (Stopped, i, st)
      | S fuel' =>
          if throws fn (user st) then (Thrown, S i, call_job fn st)
          else forEach fuel' (S i) (call_job fn st)
      end
  end.

(** The [then] callback of a flush.  Whether it returns or throws, the
    [finally] callback becomes a microtask; an exception goes on to reject
    the promise that [finally] returns, which has no handler. *)
Definition flush_then (fuel : nat) (st : state) : result state :=
  let '(e, _, st') := forEach fuel 0 st in
  match e with
  | Stopped => OutOfFuel
  | Completed | Thrown =>
      Ok {| jobQueue := jobQueue st'; isFlushing := isFlushing st';
            currentFlushPromise := currentFlushPromise st';
            microtasks := microtasks st' ++ [MFlushFinally];
            user := user st'; ran := ran st'; queued := queued st' |}
  end.

(** The [finally] callback of a flush. *)
Definition flush_finally (st : state) : state :=
  {| jobQueue := []; isFlushing := false; currentFlushPromise := false;
     microtasks := microtasks st; user := user st; ran := ran st;
     queued := queued st |}.

Definition pop_microtask (st : state) : state :=
  {| jobQueue := jobQueue st; isFlushing := isFlushing st;
     currentFlushPromise := currentFlushPromise st;
     microtasks := tail (microtasks st); user := user st; ran := ran st;
     queued := queued st |}.

(** The host runs microtasks until none is left. *)
Fixpoint run_microtasks (fuel : nat) (st : state) : result state :=
  match fuel with
  | O => OutOfFuel
  | S fuel' =>
      match microtasks st with
      | [] => Ok st
      | MFlushThen :: _ =>
          st' ← flush_then fuel' (pop_microtask st);
          run_microtasks fuel' st'
      | MFlushFinally :: _ =>
          run_microtasks fuel' (flush_finally (pop_microtask st))
      end
  end.

(** The reading of the specification that is put to the test: a callback
    passed to [queueJob] while a flush calls the queued callbacks is not
    called by that flush. *)
Definition defers_to_next_flush (fuel : nat) (st : state) : Prop :=
  forall fn,
    fn ∈ drop (length (queued st)) (queued (forEach fuel 0 st).2) ->
    fn ∉ drop (length (ran st)) (ran (forEach fuel 0 st).2).

End Jobs.

Arguments state : clear implicits.

(** A job that queues another while the flush runs: job 0 calls
    [queueJob(1)], job 1 does nothing. *)
Definition chain_job (fn : nat) (u : unit) : unit * list nat :=
  match fn with
  | O => (u, [1%nat])
  | _ => (u, [])
  end.

(** Jobs that never throw. *)
Definition never_throws {job U : Type} (fn : job) (u : U) : bool := false.

(** Jobs that record their call; job 1 throws once it has done so. *)
Definition record_job (fn : nat) (u : list nat) : list nat * list nat := (u ++ [fn], []).

Definition one_throws (fn : nat) (u : list nat) : bool := bool_decide (fn = 1%nat).

(** *** Notions used to state what a flush does *)

Section Batches.
Context {job : Type} `{EqDecision job} {U : Type}.

(** The jobs of [qs] without repetition, in the order in which each was
    queued first. *)
Definition first_queued (qs : list job) : list job :=
  reverse (remove_dups (reverse qs)).

(** States between two flushes. *)
Definition idle (st : state job U) : Prop :=
  isFlushing st = false /\ jobQueue st = [] /\ microtasks st = [].

(** What the application's state comes to when the jobs have run. *)
Definition after_jobs (run_job : job -> U -> U * list job) (u : U) (jobs : list job) : U :=
  foldl (fun u fn => (run_job fn u).1) u jobs.

End Batches.

End Scheduler.

(** ** Component: the instance's props and attrs *)

Module Component.

(** A component descriptor, as far as [updateProps] reads it:
    [Component.props], the declared prop names, if any. *)
Record descriptor := Descriptor {
  declared : option (list string)
}.

(** A component vnode: its type and its props, the latter in the order
    [for (const key in vnodeProps)] visits them ([None] is null). *)
Record ComponentVnode := CVnode {
  type : descriptor;
  props : option (list (string * value))
}.

(** The instance, as far as props go.  [instance.props] is a plain object
    until [updateProps] has wrapped it with [reactive]; from then on a
    write to it goes through the proxy, which calls [trigger] for a changed
    value.  [triggered] lists those calls. *)
Record Instance := MkInstance {
  i_props : gmap string value;
  i_props_reactive : bool;
  i_attrs : gmap string value;
  i_setupState : option (gmap string value);
  i_ctx : option (gmap string value);
  i_isMounted : bool;
  i_next : option ComponentVnode;
  i_triggered : list string
}.

(** [obj[key]]: [undefined] when absent. *)
Definition getProp (m : gmap string value) (key : string) : value :=
  default VUndef (m !! key).

(** [Compontent.props?.includes(key)] *)
Definition isDeclared (c : descriptor) (key : string) : bool :=
  match declared c with
  | Some names => bool_decide (key ∈ names)
  | None => false
  end.

(** [instance.props[key] = v] *)
Definition setInstanceProp (inst : Instance) (key : string) (v : value) : Instance :=
  {| i_props := <[key := v]> (i_props inst);
     i_props_reactive := i_props_reactive inst;
     i_attrs := i_attrs inst;
     i_setupState := i_setupState inst;
     i_ctx := i_ctx inst;
     i_isMounted := i_isMounted inst;
     i_next := i_next inst;
     i_triggered :=
       if i_props_reactive inst && hasChanged (getProp (i_props inst) key) v
       then i_triggered inst ++ [key]
       else i_triggered inst |}.

(** [instance.attrs[key] = v] *)
Definition setInstanceAttr (inst : Instance) (key : string) (v : value) : Instance :=
  {| i_props := i_props inst;
     i_props_reactive := i_props_reactive inst;
     i_attrs := <[key := v]> (i_attrs inst);
     i_setupState := i_setupState inst;
     i_ctx := i_ctx inst;
     i_isMounted := i_isMounted inst;
     i_next := i_next inst;
     i_triggered := i_triggered inst |}.

(** [updateProps(instance, vnode)] *)
Definition updateProps (inst : Instance) (vnode : ComponentVnode) : Instance :=
  let Compontent := type vnode in
  let vnodeProps := default [] (props vnode) in
  let inst :=
    foldl (fun inst '(key, v) =>
             if isDeclared Compontent key
             then setInstanceProp inst key v
             else setInstanceAttr inst key v)
          inst vnodeProps in
  {| i_props := i_props inst;
     i_props_reactive := true;              (* reactive(instance.props) *)
     i_attrs := i_attrs inst;
     i_setupState := i_setupState inst;
     i_ctx := i_ctx inst;
     i_isMounted := i_isMounted inst;
     i_next := i_next inst;
     i_triggered := i_triggered inst |}.

(** The instance [mountComponent] creates, after its first [updateProps]. *)
Definition newInstance : Instance :=
  {| i_props := ∅; i_props_reactive := false; i_attrs := ∅;
     i_setupState := None; i_ctx := None; i_isMounted := false;
     i_next := None; i_triggered := [] |}.

(** The part of the update effect that concerns the instance when it is
    already mounted: take the stashed vnode, refresh props and attrs,
    rebuild the context as [{...instance.props, ...instance.setupState}].
    (Rendering and patching the subtree do not write props or attrs.) *)
Definition update (inst : Instance) : Instance :=
  if i_isMounted inst then
    match i_next inst with
    | Some vnode =>
        let inst :=
          updateProps
            {| i_props := i_props inst;
               i_props_reactive := i_props_reactive inst;
               i_attrs := i_attrs inst;
               i_setupState := i_setupState inst;
               i_ctx := i_ctx inst;
               i_isMounted := i_isMounted inst;
               i_next := None;
               i_triggered := i_triggered inst |}
            vnode in
        {| i_props := i_props inst;
           i_props_reactive := i_props_reactive inst;
           i_attrs := i_attrs inst;
           i_setupState := i_setupState inst;
           i_ctx := Some (default ∅ (i_setupState inst) ∪ i_props inst);
           i_isMounted := i_isMounted inst;
           i_next := i_next inst;
           i_triggered := i_triggered inst |}
    | None => inst
    end
  else
    (* first run: render and mount the subtree, then [isMounted = true] *)
    {| i_props := i_props inst;
       i_props_reactive := i_props_reactive inst;
       i_attrs := i_attrs inst;
       i_setupState := i_setupState inst;
       i_ctx := i_ctx inst;
       i_isMounted := true;
       i_next := i_next inst;
       i_triggered := i_triggered inst |}.

(** [updateComponent(preVnode, newVnode)], on the instance the previous
    vnode carries. *)
Definition updateComponent (inst : Instance) (newVnode : ComponentVnode) : Instance :=
  update
    {| i_props := i_props inst;
       i_props_reactive := i_props_reactive inst;
       i_attrs := i_attrs inst;
       i_setupState := i_setupState inst;
       i_ctx := i_ctx inst;
       i_isMounted := i_isMounted inst;
       i_next := Some newVnode;
       i_triggered := i_triggered inst |}.

(** The keys a vnode passes. *)
Definition passed (vnode : ComponentVnode) : list string :=
  (default [] (props vnode)).*1.

(** A component that declares the prop [title], mounted with
    [{ title: 'a', id: 'x' }]. *)
Definition titled : descriptor := Descriptor (Some ["title"%string]).
Definition mounted_instance : Instance :=
  update (updateProps newInstance
            (CVnode titled (Some [("title"%string, VStr "a"); ("id"%string, VStr "x")]))).

(** *** [fallThrough], and notions used to state what an update does *)

(** The value a vnode passes for a key, its keys being distinct. *)
Definition passed_value (vnode : ComponentVnode) (key : string) : option value :=
  (list_to_map (default [] (props vnode)) : gmap string value) !! key.

(** The writes of an update that reach [trigger]. *)
Definition changed_declared (inst : Instance) (c : descriptor) (kv : string * value) : bool :=
  i_props_reactive inst && isDeclared c kv.1 && hasChanged (getProp (i_props inst) kv.1) kv.2.

(** [fallThrough(instance, subTree)]: with attrs on the instance,
    [subTree.props = { ...instance.attrs, ...subTree.props }]. *)
Definition fallThrough (inst : Instance) (subTree : Renderer.vnode) : Renderer.vnode :=
  if bool_decide (i_attrs inst = ∅) then subTree    (* Object.keys(...).length is 0 *)
  else
    let 'Renderer.VNode type props kids shapeFlag key := subTree in
    Renderer.VNode type (Some (default ∅ props ∪ i_attrs inst)) kids shapeFlag key.

(** The props of a vnode, read at a key. *)
Definition prop_of (v : Renderer.vnode) (key : string) : option value :=
  Renderer.vn_props v ≫= (fun p => p !! key).

End Component.

(** ** Reactivity: the dependency graph and what is built on it *)

Module Reactivity.

(** The module-level state of the library ([targetMap], [activeEffect],
    [effectStack]) and the objects it creates are kept in one [store],
    passed along explicitly.

    - A reactive proxy and its target are one value, named by the address
      of the target: application code reaches an object through its proxy
      only, so every read and write of a field is a call of a trap.
    - A [Set] of effect functions is the list of its members in insertion
      order, which is the order [forEach] visits them in.  The set for a
      (target, key) is created once and never replaced, so (target, key)
      names it; that is how an effect's [deps] refers to the sets.
    - Functions kept in the store (an effect's [fn] and [scheduler]) are
      named by what builds them; callbacks written by the application are
      given as [cmd]s, the sequence of their calls into the library.
    - A callback may call back into the library without bound (an effect
      that triggers itself), so the functions that run callbacks take
      [fuel]: each nested call of an effect function, a [forEach] turn or
      a setter is given one unit less. *)

(** *** The store *)

(** Property keys: array indices and names (a name is never the decimal
    form of an index). *)
Inductive pkey :=
| KIdx (i : nat)
| KName (s : string).

#[global] Instance pkey_eq_dec : EqDecision pkey.
Proof. solve_decision. Defined.

Definition pkey_encode (k : pkey) : nat + string :=
  match k with KIdx i => inl i | KName s => inr s end.
Definition pkey_decode (x : nat + string) : pkey :=
  match x with inl i => KIdx i | inr s => KName s end.
#[global] Instance pkey_countable : Countable pkey :=
  inj_countable' pkey_encode pkey_decode
    (fun k => match k with KIdx _ | KName _ => eq_refl end).

(** What [track] and [trigger] are called on: the raw object behind a
    proxy, a RefImpl, or a ComputedImpl. *)
Inductive target :=
| TObj (a : nat)
| TRef (r : nat)
| TComputed (c : nat).

#[global] Instance target_eq_dec : EqDecision target.
Proof. solve_decision. Defined.

Definition target_encode (t : target) : nat + (nat + nat) :=
  match t with TObj a => inl a | TRef r => inr (inl r) | TComputed c => inr (inr c) end.
Definition target_decode (x : nat + (nat + nat)) : target :=
  match x with inl a => TObj a | inr (inl r) => TRef r | inr (inr c) => TComputed c end.
#[global] Instance target_countable : Countable target :=
  inj_countable' target_encode target_decode
    (fun t => match t with TObj _ | TRef _ | TComputed _ => eq_refl end).

(** A raw object.  An array keeps its [length] among its fields. *)
Record obj := Obj {
  o_array : bool;
  o_fields : gmap pkey value
}.

Definition klength : pkey := KName "length".
Definition kvalue : pkey := KName "value".

(** [Reflect.get(target, key)] *)
Definition reflect_get (o : obj) (k : pkey) : value :=
  default VUndef (o_fields o !! k).

(** The length of an array, as a number of elements. *)
Definition array_length (o : obj) : nat :=
  match o_fields o !! klength with
  | Some (VNum n) => Z.to_nat n
  | _ => O
  end.

(** [Reflect.set(target, key, newVal)].  On an array, writing at or past
    the end extends [length]; writing [length] truncates, and throws for a
    value that is not a valid length (only numbers are taken as lengths
    here). *)
Definition reflect_set (o : obj) (k : pkey) (v : value) : result obj :=
  if o_array o then
    match k with
    | KIdx i =>
        let fields := <[KIdx i := v]> (o_fields o) in
        if (i <? array_length o)%nat then Ok (Obj true fields)
        else Ok (Obj true (<[klength := VNum (Z.of_nat (S i))]> fields))
    | KName s =>
        if bool_decide (s = "length"%string) then
          match v with
          | VNum n =>
              if (0 <=? n) && (n <? 2 ^ 32) then
                let keep (kv : pkey * value) :=
                  match kv.1 with
                  | KIdx i => (Z.of_nat i <? n)
                  | KName _ => true
                  end in
                Ok (Obj true (<[klength := VNum n]> (filter (fun kv => keep kv = true) (o_fields o))))
              else Throw RangeError
          | _ => Throw RangeError
          end
        else Ok (Obj true (<[k := v]> (o_fields o)))
    end
  else Ok (Obj false (<[k := v]> (o_fields o))).

(** User code: what a callback does, as the sequence of its calls into
    the library.  Each read hands its result to the rest of the callback. *)
Inductive cmd :=
| Ret (v : value)                                      (* return v *)
| Get (a : nat) (k : pkey) (cont : value -> cmd)       (* proxy[k] *)
| Put (a : nat) (k : pkey) (v : value) (cont : cmd)    (* proxy[k] = v *)
| RefGet (r : nat) (cont : value -> cmd)               (* ref.value *)
| RefPut (r : nat) (v : value) (cont : cmd)            (* ref.value = v *)
| ComputedGet (c : nat) (cont : value -> cmd)          (* computed.value *)
| ComputedPut (c : nat) (v : value) (cont : cmd)       (* computed.value = v *)
| OnInvalidate (fn : cmd) (cont : cmd)                 (* onInvalidate(fn) *)
| Log (tag : string) (cont : cmd).                     (* a visible action *)

(** The function given to [effect]. *)
Inductive body :=
| BCmd (c : cmd)              (* a function of the application *)
| BWatch (w : nat)            (* the one [watch] builds around its getter *)
| BWatchEffect (w : nat).     (* [() => cb(onInvalidate)] of [watchEffect] *)

(** [options.scheduler] *)
Inductive scheduler :=
| SComputed (c : nat)         (* of a ComputedImpl *)
| SWatch (w : nat)            (* of [watch] *)
| SWatchEffect (w : nat).     (* of [watchEffect] *)

(** An effect function with what hangs on it.  [e_deps] lists the
    dependency sets the effect is recorded in, each named by the
    (target, key) it belongs to. *)
Record effect_rec := Effect {
  e_fn : body;
  e_deps : list (target * pkey);
  e_lazy : bool;
  e_scheduler : option scheduler
}.

Record computed_rec := Computed {
  c_value : value;                       (* __value *)
  c_dirty : bool;
  c_effect : nat;
  c_setter : option (value -> cmd)       (* None: the read-only warning *)
}.

(** The two [watch] functions of the repository. *)
Inductive watch_impl :=
| WatchTs        (* src/reactivity/watch.ts: [effect(() => getter, ...)] *)
| WatchFixed.    (* the corrected copy:      [effect(() => getter(), ...)] *)

(** What [watch] is given to observe. *)
Inductive source :=
| SrcFn (f : nat) (fn : cmd)     (* a function: its identity and what it does *)
| SrcRef (r : nat)               (* a RefImpl *)
| SrcObj (a : nat)               (* a reactive proxy *)
| SrcPrim (v : value).           (* a primitive value *)

(** The getter [watch] makes of its source. *)
Inductive getter :=
| GFn (fn : cmd)            (* the source itself, a function *)
| GRefValue (r : nat)       (* [() => source.value], source a RefImpl *)
| GProxyValue (a : nat)     (* [() => source.value], source a proxy whose
                               [__isRef] is truthy *)
| GTraverse (v : value)     (* [() => traverse(source)] *)
| GConst (v : value).       (* [() => source] *)

Record watcher := Watcher {
  w_impl : watch_impl;
  w_getter : getter;
  w_getter_name : fname;             (* the identity of the getter function *)
  w_cb : value -> value -> cmd;
  w_post : bool;                     (* options.flush === 'post' *)
  w_effect : nat;
  w_oldVal : value;
  w_newVal : value;
  w_cleanUp : option cmd
}.

Record watchEffect_rec := WatchEffect {
  we_cb : cmd;
  we_effect : nat;
  we_cleanUp : option cmd
}.

(** Whose [onInvalidate] a callback has at hand. *)
Inductive owner :=
| NoOwner
| OfWatch (w : nat)
| OfWatchEffect (w : nat).

Inductive event :=
| EvRun (e : nat)                       (* the function of effect e is called *)
| EvScheduler (e : nat)                 (* the scheduler of effect e is called *)
| EvTrigger (t : target) (k : pkey)     (* trigger(t, k) is called *)
| EvOnInvalidate (o : owner)            (* onInvalidate(fn) is called *)
| EvCleanup (o : owner)                 (* a registered cleanup is called *)
| EvCallback (w : nat) (oldVal newVal : value)   (* the callback of watch *)
| EvEffectCallback (w : nat)            (* the callback of watchEffect *)
| EvLog (tag : string)                  (* a visible action of user code *)
| EvWarn.                               (* console.warn of a read-only computed *)

#[global] Instance owner_eq_dec : EqDecision owner.
Proof. solve_decision. Defined.
#[global] Instance event_eq_dec : EqDecision event.
Proof. solve_decision. Defined.

Record store := Store {
  heap : gmap nat obj;
  refs : gmap nat value;                          (* RefImpl.__value *)
  computeds : gmap nat computed_rec;
  watchers : gmap nat watcher;
  watchEffects : gmap nat watchEffect_rec;
  effects : gmap nat effect_rec;
  targetMap : gmap (target * pkey) (list nat);    (* sets, in insertion order *)
  activeEffect : option nat;
  effectStack : list nat;
  microtasks : list nat;                          (* pending [job]s of post watchers *)
  log : list event
}.

Definition empty_store : store :=
  {| heap := ∅; refs := ∅; computeds := ∅; watchers := ∅; watchEffects := ∅;
     effects := ∅; targetMap := ∅; activeEffect := None; effectStack := [];
     microtasks := []; log := [] |}.


(** Field updates. *)
Definition with_heap (x : gmap nat obj) (s : store) : store :=
  {| heap := x; refs := refs s; computeds := computeds s; watchers := watchers s;
     watchEffects := watchEffects s; effects := effects s; targetMap := targetMap s;
     activeEffect := activeEffect s; effectStack := effectStack s;
     microtasks := microtasks s; log := log s |}.
Definition with_refs (x : gmap nat value) (s : store) : store :=
  {| heap := heap s; refs := x; computeds := computeds s; watchers := watchers s;
     watchEffects := watchEffects s; effects := effects s; targetMap := targetMap s;
     activeEffect := activeEffect s; effectStack := effectStack s;
     microtasks := microtasks s; log := log s |}.
Definition with_computeds (x : gmap nat computed_rec) (s : store) : store :=
  {| heap := heap s; refs := refs s; computeds := x; watchers := watchers s;
     watchEffects := watchEffects s; effects := effects s; targetMap := targetMap s;
     activeEffect := activeEffect s; effectStack := effectStack s;
     microtasks := microtasks s; log := log s |}.
Definition with_watchers (x : gmap nat watcher) (s : store) : store :=
  {| heap := heap s; refs := refs s; computeds := computeds s; watchers := x;
     watchEffects := watchEffects s; effects := effects s; targetMap := targetMap s;
     activeEffect := activeEffect s; effectStack := effectStack s;
     microtasks := microtasks s; log := log s |}.
Definition with_watchEffects (x : gmap nat watchEffect_rec) (s : store) : store :=
  {| heap := heap s; refs := refs s; computeds := computeds s; watchers := watchers s;
     watchEffects := x; effects := effects s; targetMap := targetMap s;
     activeEffect := activeEffect s; effectStack := effectStack s;
     microtasks := microtasks s; log := log s |}.
Definition with_effects (x : gmap nat effect_rec) (s : store) : store :=
  {| heap := heap s; refs := refs s; computeds := computeds s; watchers := watchers s;
     watchEffects := watchEffects s; effects := x; targetMap := targetMap s;
     activeEffect := activeEffect s; effectStack := effectStack s;
     microtasks := microtasks s; log := log s |}.
Definition with_targetMap (x : gmap (target * pkey) (list nat)) (s : store) : store :=
  {| heap := heap s; refs := refs s; computeds := computeds s; watchers := watchers s;
     watchEffects := watchEffects s; effects := effects s; targetMap := x;
     activeEffect := activeEffect s; effectStack := effectStack s;
     microtasks := microtasks s; log := log s |}.
Definition with_active (a : option nat) (stack : list nat) (s : store) : store :=
  {| heap := heap s; refs := refs s; computeds := computeds s; watchers := watchers s;
     watchEffects := watchEffects s; effects := effects s; targetMap := targetMap s;
     activeEffect := a; effectStack := stack;
     microtasks := microtasks s; log := log s |}.
Definition with_microtasks (x : list nat) (s : store) : store :=
  {| heap := heap s; refs := refs s; computeds := computeds s; watchers := watchers s;
     watchEffects := watchEffects s; effects := effects s; targetMap := targetMap s;
     activeEffect := activeEffect s; effectStack := effectStack s;
     microtasks := x; log := log s |}.
Definition emit (ev : event) (s : store) : store :=
  {| heap := heap s; refs := refs s; computeds := computeds s; watchers := watchers s;
     watchEffects := watchEffects s; effects := effects s; targetMap := targetMap s;
     activeEffect := activeEffect s; effectStack := effectStack s;
     microtasks := microtasks s; log := log s ++ [ev] |}.

(** *** The dependency graph: track, clean *)

(** [deps.add(effectFn)] on a set kept in insertion order. *)
Definition set_add (e : nat) (deps : list nat) : list nat :=
  if bool_decide (e ∈ deps) then deps else deps ++ [e].

(** The set for (target, key), empty when there is none. *)
Definition deps_of (s : store) (t : target) (k : pkey) : list nat :=
  default [] (targetMap s !! (t, k)).

(** [track(target, key)] *)
Definition track (t : target) (k : pkey) (s : store) : store :=
  match activeEffect s with
  | None => s
  | Some e => with_targetMap (<[(t, k) := set_add e (deps_of s t k)]> (targetMap s)) s
  end.

(** [clean(effectFn)]:
    [effectFn.deps?.forEach((deps) => deps.delete(effectFn))] *)
Definition clean (e : nat) (s : store) : store :=
  match effects s !! e with
  | Some r =>
      foldl (fun s d =>
               with_targetMap (alter (filter (fun x => x ≠ e)) d (targetMap s)) s)
            s (e_deps r)
  | None => s
  end.

(** *** Everything that may call back into user code *)

(** The calls that re-enter the library from inside a callback; each is
    given one unit less of [fuel] than its caller. *)
Inductive task :=
| TEffect (e : nat)                            (* effectFn() *)
| TTrigger (t : target) (k : pkey) (i : nat)   (* deps.forEach, from the i-th entry on *)
| TSetter (c : nat) (v : value).               (* the setter of a computed *)

Section Step.
Variable fuel : nat.
Variable call : task -> store -> result (value * store).

(** [trigger(target, key)] *)
Definition trigger (t : target) (k : pkey) (s : store) : result store :=
  let s := emit (EvTrigger t k) s in
  match targetMap s !! (t, k) with
  | None => Ok s
  | Some _ => '(_, s) ← call (TTrigger t k 0) s; Ok s
  end.

(** The [get] trap of [reactive].  The value read is wrapped by
    [reactive] when it is an object; a proxy and its target are one
    value here. *)
Definition proxy_get (a : nat) (k : pkey) (s : store) : result (value * store) :=
  match heap s !! a with
  | None => Throw TypeError
  | Some o =>
      if bool_decide (k = KName "__isReactive") then Ok (VBool true, s)
      else Ok (reflect_get o k, track (TObj a) k s)
  end.

(** The [set] trap of [reactive]. *)
Definition proxy_set (a : nat) (k : pkey) (newVal : value) (s : store)
  : result store :=
  match heap s !! a with
  | None => Throw TypeError
  | Some o =>
      let oldLength := reflect_get o klength in
      let oldVal := reflect_get o k in
      o' ← reflect_set o k newVal;
      let s := with_heap (<[a := o']> (heap s)) s in
      if hasChanged oldVal newVal then
        s ← trigger (TObj a) k s;
        match heap s !! a with
        | Some o'' =>
            if o_array o'' && negb (strict_eq oldLength (reflect_get o'' klength))
            then trigger (TObj a) klength s
            else Ok s
        | None => Ok s
        end
      else Ok s
  end.

(** [conver(value)]: [isObject(value) ? reactive(value) : value]; an
    object and its proxy being one value, this is the value itself.  (A
    RefImpl given as value would be wrapped in a proxy of its own, which is
    not among the values here.) *)
Definition conver (v : value) : value := v.

(** [RefImpl]: [get value()] *)
Definition ref_get (r : nat) (s : store) : result (value * store) :=
  match refs s !! r with
  | None => Throw TypeError
  | Some v => Ok (v, track (TRef r) kvalue s)
  end.

(** [RefImpl]: [set value(newVal)] *)
Definition ref_set (r : nat) (newVal : value) (s : store) : result store :=
  match refs s !! r with
  | None => Throw TypeError
  | Some v =>
      if hasChanged v newVal
      then trigger (TRef r) kvalue (with_refs (<[r := conver newVal]> (refs s)) s)
      else Ok s
  end.

(** [ComputedImpl]: [get value()] *)
Definition computed_get (c : nat) (s : store) : result (value * store) :=
  match computeds s !! c with
  | None => Throw TypeError
  | Some cr =>
      if c_dirty cr then
        '(v, s) ← call (TEffect (c_effect cr)) s;
        match computeds s !! c with
        | None => Throw TypeError
        | Some cr' =>
            let s := with_computeds
                       (<[c := Computed v false (c_effect cr') (c_setter cr')]>
                          (computeds s)) s in
            Ok (v, track (TComputed c) kvalue s)
        end
      else Ok (c_value cr, s)
  end.

(** [ComputedImpl]: [set value(newVal)] *)
Definition computed_set (c : nat) (newVal : value) (s : store) : result store :=
  '(_, s) ← call (TSetter c newVal) s; Ok s.

(** [onInvalidate(fn)]: [cleanUp = fn], in the watcher the callback
    belongs to. *)
Definition onInvalidate (o : owner) (fn : cmd) (s : store) : result store :=
  let s := emit (EvOnInvalidate o) s in
  match o with
  | NoOwner => Throw TypeError
  | OfWatch w =>
      match watchers s !! w with
      | None => Throw TypeError
      | Some wr =>
          Ok (with_watchers
                (<[w := Watcher (w_impl wr) (w_getter wr) (w_getter_name wr)
                                (w_cb wr) (w_post wr) (w_effect wr)
                                (w_oldVal wr) (w_newVal wr) (Some fn)]>
                   (watchers s)) s)
      end
  | OfWatchEffect w =>
      match watchEffects s !! w with
      | None => Throw TypeError
      | Some wr =>
          Ok (with_watchEffects
                (<[w := WatchEffect (we_cb wr) (we_effect wr) (Some fn)]>
                   (watchEffects s)) s)
      end
  end.

(** A callback of the application, run to its end. *)
Fixpoint exec (o : owner) (c : cmd) (s : store) : result (value * store) :=
  match c with
  | Ret v => Ok (v, s)
  | Get a k cont => '(v, s) ← proxy_get a k s; exec o (cont v) s
  | Put a k v cont => s ← proxy_set a k v s; exec o cont s
  | RefGet r cont => '(v, s) ← ref_get r s; exec o (cont v) s
  | RefPut r v cont => s ← ref_set r v s; exec o cont s
  | ComputedGet c cont => '(v, s) ← computed_get c s; exec o (cont v) s
  | ComputedPut c v cont => s ← computed_set c v s; exec o cont s
  | OnInvalidate fn cont => s ← onInvalidate o fn s; exec o cont s
  | Log tag cont => exec o cont (emit (EvLog tag) s)
  end.

(** The keys [for (const key in value)] visits on an object. *)
Definition enumerable_keys (o : obj) : list pkey :=
  filter (fun k => negb (o_array o && bool_decide (k = klength)) = true)
         (map_to_list (o_fields o)).*1.

(** [traverse(value, seen)] of the corrected watch: it reads every
    reachable key through the proxies, so that each is tracked. *)
Fixpoint traverse (n : nat) (v : value) (seen : list nat) (s : store)
  : result (value * list nat * store) :=
  match n with
  | O => OutOfFuel
  | S n' =>
      match v with
      | VRef r =>
          '(inner, s) ← ref_get r s;
          traverse n' inner seen s
      | VObj a =>
          '(flag, s) ← proxy_get a (KName "__isRef") s;
          if truthy flag then
            '(inner, s) ← proxy_get a kvalue s;
            traverse n' inner seen s
          else if bool_decide (a ∈ seen) then Ok (v, seen, s)
          else
            match heap s !! a with
            | None => Throw TypeError
            | Some o =>
                '(seen, s) ←
                  foldl (fun acc key =>
                           '(seen, s) ← acc;
                           '(x, s) ← proxy_get a key s;
                           '(_, seen, s) ← traverse n' x seen s;
                           Ok (seen, s))
                        (Ok (seen ++ [a], s)) (enumerable_keys o);
                Ok (v, seen, s)
            end
      | _ => Ok (v, seen, s)
      end
  end.

(** Calling the getter of a watcher. *)
Definition run_getter (g : getter) (s : store) : result (value * store) :=
  match g with
  | GFn fn => exec NoOwner fn s
  | GRefValue r => ref_get r s
  | GProxyValue a => proxy_get a kvalue s
  | GTraverse v => '(v, _, s) ← traverse fuel v [] s; Ok (v, s)
  | GConst v => Ok (v, s)
  end.

(** The function an effect wraps. *)
Definition run_body (b : body) (s : store) : result (value * store) :=
  match b with
  | BCmd c => exec NoOwner c s
  | BWatch w =>
      match watchers s !! w with
      | None => Throw TypeError
      | Some wr =>
          match w_impl wr with
          | WatchTs => Ok (VFun (w_getter_name wr), s)      (* () => getter *)
          | WatchFixed => run_getter (w_getter wr) s        (* () => getter() *)
          end
      end
  | BWatchEffect w =>
      match watchEffects s !! w with
      | None => Throw TypeError
      | Some wr => exec (OfWatchEffect w) (we_cb wr) (emit (EvEffectCallback w) s)
      end
  end.

(** [effectFn()], the function [effect] returns. *)
Definition effectFn (e : nat) (s : store) : result (value * store) :=
  match effects s !! e with
  | None => Throw TypeError
  | Some r =>
      let s := clean e s in
      let s := with_active (Some e) (effectStack s ++ [e]) s in
      '(res, s) ← run_body (e_fn r) (emit (EvRun e) s);
      let stack := removelast (effectStack s) in
      Ok (res, with_active (last stack) stack s)
  end.

(** [job] of [watch] *)
Definition watch_job (w : nat) (s : store) : result store :=
  match watchers s !! w with
  | None => Throw TypeError
  | Some wr =>
      '(newVal, s) ← call (TEffect (w_effect wr)) s;
      wr ← from_option Ok (Throw TypeError) (watchers s !! w);
      let s := with_watchers
                 (<[w := Watcher (w_impl wr) (w_getter wr) (w_getter_name wr)
                                 (w_cb wr) (w_post wr) (w_effect wr)
                                 (w_oldVal wr) newVal (w_cleanUp wr)]>
                    (watchers s)) s in
      s ← match w_cleanUp wr with
          | Some fn => '(_, s) ← exec (OfWatch w) fn (emit (EvCleanup (OfWatch w)) s); Ok s
          | None => Ok s
          end;
      wr ← from_option Ok (Throw TypeError) (watchers s !! w);
      '(_, s) ← exec (OfWatch w) (w_cb wr (w_oldVal wr) (w_newVal wr))
                     (emit (EvCallback w (w_oldVal wr) (w_newVal wr)) s);
      wr ← from_option Ok (Throw TypeError) (watchers s !! w);
      Ok (with_watchers
            (<[w := Watcher (w_impl wr) (w_getter wr) (w_getter_name wr)
                            (w_cb wr) (w_post wr) (w_effect wr)
                            (w_newVal wr) (w_newVal wr) (w_cleanUp wr)]>
               (watchers s)) s)
  end.

(** [job] of [watchEffect] *)
Definition watchEffect_job (w : nat) (s : store) : result store :=
  match watchEffects s !! w with
  | None => Throw TypeError
  | Some wr =>
      s ← match we_cleanUp wr with
          | Some fn =>
              '(_, s) ← exec (OfWatchEffect w) fn (emit (EvCleanup (OfWatchEffect w)) s);
              Ok s
          | None => Ok s
          end;
      wr ← from_option Ok (Throw TypeError) (watchEffects s !! w);
      '(_, s) ← exec (OfWatchEffect w) (we_cb wr) (emit (EvEffectCallback w) s);
      Ok s
  end.

(** [effectFn.options.scheduler(effectFn)] *)
Definition run_scheduler (sch : scheduler) (s : store) : result store :=
  match sch with
  | SComputed c =>
      match computeds s !! c with
      | None => Throw TypeError
      | Some cr =>
          if c_dirty cr then Ok s
          else
            trigger (TComputed c) kvalue
              (with_computeds
                 (<[c := Computed (c_value cr) true (c_effect cr) (c_setter cr)]>
                    (computeds s)) s)
      end
  | SWatch w =>
      match watchers s !! w with
      | None => Throw TypeError
      | Some wr =>
          if w_post wr then Ok (with_microtasks (microtasks s ++ [w]) s)
          else watch_job w s
      end
  | SWatchEffect w => watchEffect_job w s
  end.

(** One turn of [deps.forEach] in [trigger], on the i-th entry of the
    set in insertion order, and the turns after it.  The set is read
    anew at each turn: an entry added meanwhile is visited too. *)
Definition trigger_from (t : target) (k : pkey) (i : nat) (s : store)
  : result store :=
  match deps_of s t k !! i with
  | None => Ok s
  | Some e =>
      s ← match effects s !! e with
          | None => Throw TypeError
          | Some r =>
              match e_scheduler r with
              | Some sch => run_scheduler sch (emit (EvScheduler e) s)
              | None => '(_, s) ← call (TEffect e) s; Ok s
              end
          end;
      '(_, s) ← call (TTrigger t k (S i)) s; Ok s
  end.

Definition step (t : task) (s : store) : result (value * store) :=
  match t with
  | TEffect e => effectFn e s
  | TTrigger t k i => s ← trigger_from t k i s; Ok (VUndef, s)
  | TSetter c v =>
      match computeds s !! c with
      | None => Throw TypeError
      | Some cr =>
          match c_setter cr with
          | Some f => exec NoOwner (f v) s
          | None => Ok (VUndef, emit EvWarn s)
          end
      end
  end.

End Step.

(** The library, closed under its own calls. *)
Fixpoint run (fuel : nat) (t : task) (s : store) : result (value * store) :=
  match fuel with
  | O => OutOfFuel
  | S n => step n (run n) t s
  end.


(** *** The functions the library exports *)

(** [reactive(target)] for a raw object not wrapped before: the proxy
    is named by the address of its target. *)
Definition reactive (o : obj) (s : store) : nat * store :=
  let a := fresh (dom (heap s)) in
  (a, with_heap (<[a := o]> (heap s)) s).

(** [ref(value)] for a value that is not a ref already. *)
Definition ref (v : value) (s : store) : nat * store :=
  let r := fresh (dom (refs s)) in
  (r, with_refs (<[r := conver v]> (refs s)) s).

(** [effect(fn, options)] *)
Definition effect (fn : body) (lazy : bool) (sch : option scheduler)
    (fuel : nat) (s : store) : result (nat * store) :=
  let e := fresh (dom (effects s)) in
  let s := with_effects (<[e := Effect fn [] lazy sch]> (effects s)) s in
  if lazy then Ok (e, s)
  else '(_, s) ← run fuel (TEffect e) s; Ok (e, s).

(** [computed(computedOptions)]: a getter alone, or a getter and a setter. *)
Definition computed (getter : cmd) (setter : option (value -> cmd))
    (fuel : nat) (s : store) : result (nat * store) :=
  let c := fresh (dom (computeds s)) in
  '(e, s) ← effect (BCmd getter) true (Some (SComputed c)) fuel s;
  Ok (c, with_computeds (<[c := Computed VUndef true e setter]> (computeds s)) s).

(** How each [watch] turns its source into a getter.  (The [traverse] of
    watch.ts differs from the corrected one in details, but the getter of
    watch.ts is never called: see [run_body].) *)
Definition normalize (impl : watch_impl) (src : source) (s : store)
  : result (getter * store) :=
  match impl, src with
  | _, SrcFn _ fn => Ok (GFn fn, s)
  | WatchTs, SrcRef r => Ok (GTraverse (VRef r), s)
  | WatchTs, SrcObj a => Ok (GTraverse (VObj a), s)
  | WatchTs, SrcPrim v => Ok (GTraverse v, s)
  | WatchFixed, SrcRef r => Ok (GRefValue r, s)
  | WatchFixed, SrcObj a =>
      (* isRef(source) reads source.__isRef through the proxy *)
      '(flag, s) ← proxy_get a (KName "__isRef") s;
      if truthy flag then Ok (GProxyValue a, s) else Ok (GTraverse (VObj a), s)
  | WatchFixed, SrcPrim v => Ok (GConst v, s)
  end.

Definition getter_name (w : nat) (src : source) : fname :=
  match src with
  | SrcFn f _ => FUser f
  | _ => FWatchGetter w
  end.

(** [watch(source, cb, options)], in either of its two versions. *)
Definition watch (impl : watch_impl) (src : source) (cb : value -> value -> cmd)
    (immediate post : bool) (fuel : nat) (s : store) : result (nat * store) :=
  let w := fresh (dom (watchers s)) in
  '(g, s) ← normalize impl src s;
  '(e, s) ← effect (BWatch w) true (Some (SWatch w)) fuel s;
  let s := with_watchers
             (<[w := Watcher impl g (getter_name w src) cb post e VUndef VUndef None]>
                (watchers s)) s in
  let prime (s : store) : result store :=
    '(v, s) ← run fuel (TEffect e) s;
    wr ← from_option Ok (Throw TypeError) (watchers s !! w);
    Ok (with_watchers
          (<[w := Watcher (w_impl wr) (w_getter wr) (w_getter_name wr) (w_cb wr)
                          (w_post wr) (w_effect wr) v (w_newVal wr) (w_cleanUp wr)]>
             (watchers s)) s) in
  match impl with
  | WatchTs =>
      s ← (if immediate then watch_job (run fuel) w s else prime s);
      Ok (w, s)
  | WatchFixed =>
      s ← prime s;
      s ← (if immediate then watch_job (run fuel) w s else Ok s);
      Ok (w, s)
  end.

(** [watchEffect(cb)] *)
Definition watchEffect (cb : cmd) (fuel : nat) (s : store) : result (nat * store) :=
  let w := fresh (dom (watchEffects s)) in
  '(e, s) ← effect (BWatchEffect w) true (Some (SWatchEffect w)) fuel s;
  let s := with_watchEffects (<[w := WatchEffect cb e None]> (watchEffects s)) s in
  '(_, s) ← run fuel (TEffect e) s;
  Ok (w, s).

(** Code of the application running outside any callback. *)
Definition main (c : cmd) (fuel : nat) (s : store) : result (value * store) :=
  exec (run fuel) NoOwner c s.

(** The host runs the pending [job]s of the post watchers. *)
Fixpoint run_microtasks (fuel : nat) (s : store) : result store :=
  match fuel with
  | O => OutOfFuel
  | S n =>
      match microtasks s with
      | [] => Ok s
      | w :: rest =>
          s ← watch_job (run n) w (with_microtasks rest s);
          run_microtasks n s
      end
  end.

(** How often an event occurs in a log. *)
Definition count_event (ev : event) (l : list event) : nat :=
  length (filter (fun x => x = ev) l).

(** *** Callbacks that keep to themselves *)

(** The cleanup a watcher holds, if it holds one. *)
Definition cleanUp_of (o : owner) (s : store) : option cmd :=
  match o with
  | NoOwner => None
  | OfWatch w => watchers s !! w ≫= w_cleanUp
  | OfWatchEffect w => watchEffects s !! w ≫= we_cleanUp
  end.

(** A callback is calm, in a given heap and given refs, when all it does
    is read reactive state that exists, act visibly, and register
    cleanups that are calm themselves: it writes no reactive state, so it
    triggers nothing. *)
Inductive calm (hp : gmap nat obj) (rf : gmap nat value) : cmd -> Prop :=
| calm_Ret v : calm hp rf (Ret v)
| calm_Get a k cont o :
    hp !! a = Some o ->
    calm hp rf (cont (if bool_decide (k = KName "__isReactive") then VBool true
                      else reflect_get o k)) ->
    calm hp rf (Get a k cont)
| calm_RefGet r cont v :
    rf !! r = Some v -> calm hp rf (cont v) -> calm hp rf (RefGet r cont)
| calm_Log tag cont : calm hp rf cont -> calm hp rf (Log tag cont)
| calm_OnInvalidate fn cont :
    calm hp rf fn -> calm hp rf cont -> calm hp rf (OnInvalidate fn cont).

(** What a calm callback of owner [o] leaves in the log. *)
Definition calm_event (o : owner) (ev : event) : Prop :=
  (exists tag, ev = EvLog tag) \/ ev = EvOnInvalidate o.

(** A getter that only reads reactive state that exists (and may act
    visibly), with the (target, key) pairs it reads, in order. *)
Inductive reads (hp : gmap nat obj) (rf : gmap nat value)
  : cmd -> list (target * pkey) -> Prop :=
| reads_Ret v : reads hp rf (Ret v) []
| reads_Get a k cont o tks :
    hp !! a = Some o -> k ≠ KName "__isReactive" ->
    reads hp rf (cont (reflect_get o k)) tks ->
    reads hp rf (Get a k cont) ((TObj a, k) :: tks)
| reads_RefGet r cont v tks :
    rf !! r = Some v -> reads hp rf (cont v) tks ->
    reads hp rf (RefGet r cont) ((TRef r, kvalue) :: tks)
| reads_Log tag cont tks :
    reads hp rf cont tks -> reads hp rf (Log tag cont) tks.

Definition log_event (ev : event) : Prop := exists tag, ev = EvLog tag.

(** The watcher's record is there and keeps all its fields but, possibly,
    the cleanup. *)
Definition owner_kept (o : owner) (s s' : store) : Prop :=
  match o with
  | NoOwner => False
  | OfWatch w =>
      exists wr c', watchers s !! w = Some wr
        /\ watchers s' !! w
           = Some (Watcher (w_impl wr) (w_getter wr) (w_getter_name wr) (w_cb wr)
                           (w_post wr) (w_effect wr) (w_oldVal wr) (w_newVal wr) c')
  | OfWatchEffect w =>
      exists wr c', watchEffects s !! w = Some wr
        /\ watchEffects s' !! w = Some (WatchEffect (we_cb wr) (we_effect wr) c')
  end.

(** The cleanup held, if any, is calm. *)
Definition pending_calm (o : owner) (s : store) : Prop :=
  match cleanUp_of o s with
  | Some f => calm (heap s) (refs s) f
  | None => True
  end.

(** What running a calm callback of owner [o] comes to: [l] is what it
    adds to the log. *)
Record calm_run (o : owner) (s s' : store) (l : list event) : Prop := CalmRun {
  cr_log : log s' = log s ++ l;
  cr_events : Forall (calm_event o) l;
  cr_heap : heap s' = heap s;
  cr_refs : refs s' = refs s;
  cr_kept : owner_kept o s s';
  cr_pending : pending_calm o s -> pending_calm o s';
  cr_same : EvOnInvalidate o ∉ l -> cleanUp_of o s' = cleanUp_of o s;
  cr_some : is_Some (cleanUp_of o s) -> is_Some (cleanUp_of o s')
}.

(** What running a getter that only reads comes to: the graph and the
    log may have grown, the rest of the store is as it was. *)
Record read_run (s s' : store) (l : list event) : Prop := ReadRun {
  rr_log : log s' = log s ++ l;
  rr_events : Forall log_event l;
  rr_heap : heap s' = heap s;
  rr_refs : refs s' = refs s;
  rr_computeds : computeds s' = computeds s;
  rr_effects : effects s' = effects s;
  rr_active : activeEffect s' = activeEffect s;
  rr_stack : effectStack s' = effectStack s;
  rr_deps : forall t k e, e ∈ deps_of s t k -> e ∈ deps_of s' t k
}.

(** *** The graph over time *)

(** No effect of the store has recorded a dependency set. *)
Definition deps_free (s : store) : Prop :=
  forall e r, effects s !! e = Some r -> e_deps r = [].

(** From [s] to [s']: the same effects, and every member of every
    dependency set still a member. *)
Record grows (s s' : store) : Prop := Grows {
  g_effects : effects s' = effects s;
  g_deps : forall t k e, e ∈ deps_of s t k -> e ∈ deps_of s' t k
}.

(** *** Programs to run the library on *)

(** [reactive({ flag: true, a: 1, b: 2 })] and the effect
    [() => proxy.flag ? proxy.a : proxy.b]; then [proxy.flag = false]. *)
Definition flagged : obj :=
  Obj false (<[KName "flag" := VBool true]>
               (<[KName "a" := VNum 1]> (<[KName "b" := VNum 2]> ∅))).

Definition choose (a : nat) : cmd :=
  Get a (KName "flag") (fun flag =>
    if truthy flag then Get a (KName "a") Ret else Get a (KName "b") Ret).

Definition conditional_reads : result (nat * nat * store) :=
  let '(a, s) := reactive flagged empty_store in
  '(e, s) ← effect (BCmd (choose a)) false None 10 s;
  '(_, s) ← main (Put a (KName "flag") (VBool false) (Ret VUndef)) 10 s;
  Ok (a, e, s).

(** [const count = ref(1)]; [watch(() => count.value, cb)];
    then [count.value = 2]. *)
Definition watch_count (impl : watch_impl) : result (nat * store * store) :=
  let '(r, s) := ref (VNum 1) empty_store in
  '(w, s0) ← watch impl (SrcFn 7 (RefGet r Ret))
                   (fun _ _ => Log "cb" (Ret VUndef)) false false 10 s;
  '(_, s) ← main (RefPut r (VNum 2) (Ret VUndef)) 10 s0;
  Ok (w, s0, s).

(** A callback that registers a cleanup when the value it sees is [x]:
    [if (v === x) onInvalidate(cleanup)], and then goes about its work. *)
Definition register_when (x : Z) (v : value) : cmd :=
  if strict_eq v (VNum x)
  then OnInvalidate (Log "cleanup" (Ret VUndef)) (Log "cb" (Ret VUndef))
  else Log "cb" (Ret VUndef).

(** [const n = ref(0)]; [watch(() => n.value, cb)] where [cb] registers
    its cleanup when the new value is 1; then [n.value = 1],
    [n.value = 2], [n.value = 3]. *)
Definition three_changes (impl : watch_impl) : result (nat * store) :=
  let '(r, s) := ref (VNum 0) empty_store in
  '(w, s) ← watch impl (SrcFn 7 (RefGet r Ret)) (fun _ newVal => register_when 1 newVal)
                 false false 10 s;
  '(_, s) ← main (RefPut r (VNum 1) (RefPut r (VNum 2) (RefPut r (VNum 3) (Ret VUndef)))) 10 s;
  Ok (w, s).


(** A cleanup that is not calm: the callback of the [watchEffect] reads
    [n.value] and registers a cleanup that writes [n.value = 7]; then
    [n.value = 1]. *)
Definition cleanup_that_writes : result (nat * store) :=
  let '(r, s) := ref (VNum 0) empty_store in
  '(w, s) ← watchEffect
              (RefGet r (fun _ =>
                 OnInvalidate (RefPut r (VNum 7) (Log "cleanup" (Ret VUndef)))
                              (Log "cb" (Ret VUndef)))) 10 s;
  '(_, s) ← main (RefPut r (VNum 1) (Ret VUndef)) 10 s;
  Ok (w, s).

(** The reading of the specification that is put to the test: a cleanup
    is called once for each time it was registered, at most. *)
Definition cleanups_run_once (o : owner) (l : list event) : Prop :=
  (count_event (EvCleanup o) l <= count_event (EvOnInvalidate o) l)%nat.

(** [reactive([1, 2, 3])] and the effect [() => proxy.length], which
    subscribes to the length of the array and to nothing else. *)
Definition three_items : obj :=
  Obj true (<[KIdx 0 := VNum 1]> (<[KIdx 1 := VNum 2]> (<[KIdx 2 := VNum 3]>
              (<[klength := VNum 3]> ∅)))).

Definition store_of {A} (r : result (A * store)) : store :=
  match r with
  | Ok (_, s) => s
  | _ => empty_store
  end.

Definition watched_array : store :=
  let '(a, s) := reactive three_items empty_store in
  store_of (effect (BCmd (Get a klength Ret)) false None 10 s).

(** A [watchEffect] whose callback has registered its cleanup, at the
    moment [n.value] has become 1 and the job is about to run. *)
Definition effect_with_cleanup : store :=
  let '(r, s) := ref (VNum 0) empty_store in
  let s := store_of (watchEffect (RefGet r (register_when 0)) 10 s) in
  with_refs (<[r := VNum 1]> (refs s)) s.

(** [const n = ref(1)]; [const double = computed(() => n.value * 2)]. *)
Definition double_of (r : nat) : cmd :=
  RefGet r (fun v => Ret (match v with VNum n => VNum (2 * n) | _ => VNaN end)).

Definition fresh_double : store :=
  let '(r, s) := ref (VNum 1) empty_store in
  store_of (computed (double_of r) None 10 s).

(** Then [double.value] twice, [n.value = 5], and [double.value] twice
    again; the four values read, and the store at the end. *)
Definition read_twice_change_read_twice : result (list value * store) :=
  '(v1, s) ← main (ComputedGet 0 Ret) 10 fresh_double;
  '(v2, s) ← main (ComputedGet 0 Ret) 10 s;
  '(_, s) ← main (RefPut 0 (VNum 5) (Ret VUndef)) 10 s;
  '(v3, s) ← main (ComputedGet 0 Ret) 10 s;
  '(v4, s) ← main (ComputedGet 0 Ret) 10 s;
  Ok ([v1; v2; v3; v4], s).

(** [const plusOne = computed(() => double.value + 1)]: a computed whose
    getter reads the computed [double]. *)
Definition plus_one_of (c : nat) : cmd :=
  ComputedGet c (fun v => Ret (match v with VNum n => VNum (n + 1) | _ => VNaN end)).

Definition double_and_plus_one : store :=
  store_of (computed (plus_one_of 0) None 10 fresh_double).

(** [double.value]; [plusOne.value]; [n.value = 5]: the two values read,
    and the store once [n] has changed. *)
Definition read_both_then_change : result (list value * store) :=
  '(v1, s) ← main (ComputedGet 0 Ret) 10 double_and_plus_one;
  '(v2, s) ← main (ComputedGet 1 Ret) 10 s;
  '(_, s) ← main (RefPut 0 (VNum 5) (Ret VUndef)) 10 s;
  Ok ([v1; v2], s).

(** The same without the read of [double] at the start: [plusOne.value];
    [n.value = 5]. *)
Definition read_plus_one_then_change : result (list value * store) :=
  '(v1, s) ← main (ComputedGet 1 Ret) 10 double_and_plus_one;
  '(_, s) ← main (RefPut 0 (VNum 5) (Ret VUndef)) 10 s;
  Ok ([v1], s).

(** The reading of the specification that is put to the test: a read of
    the computed [c] in the store [s], which a change of a dependency has
    led to, calls the getter, once. *)
Definition recomputes_on_read (c e : nat) (s : store) : Prop :=
  exists v s', main (ComputedGet c Ret) 10 s = Ok (v, s')
    /\ count_event (EvRun e) (log s') = S (count_event (EvRun e) (log s)).

(** *** Notions used to state what the effects do *)

(** The effect that collects dependencies is the one on top of the stack. *)
Definition settled (s : store) : Prop := activeEffect s = last (effectStack s).

(** From [s] to [s']: the same effect collects, on the same stack. *)
Definition same_stack (s s' : store) : Prop :=
  activeEffect s' = activeEffect s /\ effectStack s' = effectStack s.

(** [const n = ref(1); const double = computed(() => n.value * 2)] and a
    lazy [effect(() => double.value, { lazy: true })]: running the effect
    runs the effect of [double] inside it. *)
Definition reader_of_double : store :=
  store_of (effect (BCmd (ComputedGet 0 Ret)) true None 10 fresh_double).





(** [const n = ref(1)]; the corrected [watch(() => n.value, cb, { flush: 'post' })]. *)
Definition post_watcher : store :=
  let '(r, s) := ref (VNum 1) empty_store in
  store_of (watch WatchFixed (SrcFn 7 (RefGet r Ret)) (fun _ _ => Log "cb" (Ret VUndef))
              false true 10 s).

End Reactivity.


(** * Properties *)

(** ** Renderer *)

Module RendererProofs.
Import Renderer.

(** The binary search ends within as many turns as the interval has
    entries, at a position inside [l, r + 1]. *)
Lemma bsearch_total x result :
  forall fuel l r, 0 <= l -> (Z.to_nat (r - l + 1) <= fuel)%nat ->
    exists m, bsearch fuel x result l r = Some m /\ l <= m /\ m <= Z.max l (r + 1).
Proof.
  induction fuel as [|fuel IH]; intros l r Hl Hfuel; simpl.
  - destruct (Z.leb_spec l r); [lia|]. exists l. split; [done|lia].
  - destruct (Z.leb_spec l r) as [Hlr|Hlr]; [|exists l; split; [done|lia]].
    assert (Hmid : l <= Z.quot (l + r) 2 <= r).
    { rewrite Z.quot_div_nonneg by lia. split.
      - apply Z.div_le_lower_bound; lia.
      - apply Z.div_le_upper_bound; lia. }
    destruct (js_gt x _).
    + destruct (IH (Z.quot (l + r) 2 + 1) r) as (m & -> & ?); [lia|lia|].
      exists m. split; [done|lia].
    + destruct (js_lt x _).
      * destruct (IH l (Z.quot (l + r) 2 - 1)) as (m & -> & ?); [lia|lia|].
        exists m. split; [done|lia].
      * eexists. split; [done|lia].
Qed.

Lemma seq_step_total st x : is_Some (seq_step st x).
Proof.
  destruct st as [result position]. unfold seq_step.
  destruct (x =? -1); [done|].
  destruct (js_gt x _); [done|].
  destruct (bsearch_total x result (S (length result)) 0 (Z.of_nat (length result) - 1))
    as (m & -> & _); [lia|lia|done].
Qed.

(** [getSequence] returns on every array. *)
Lemma getSequence_total nums : is_Some (getSequence nums).
Proof.
  unfold getSequence.
  assert (H : forall st, is_Some (seq_scan nums st)).
  { induction nums as [|x nums IH]; intros st; simpl; [done|].
    destruct (seq_step_total st x) as [st' ->]. simpl. apply IH. }
  destruct (H ([], [])) as [[result position] ->]. done.
Qed.

(** The unresolved middle of previous keys [a, b, c] against next keys
    [x, c, a, b]: the array handed to [getSequence] is [-1, 2, 0, 1]. *)
Lemma souce_of_rotation :
  let olds := [li (VStr "a"); li (VStr "b"); li (VStr "c")] in
  let news := [li (VStr "x"); li (VStr "c"); li (VStr "a"); li (VStr "b")] in
  let keyIndex := foldl (fun m i => match child news i with
                                    | Some n => keyIndex_set m (vn_key n) i
                                    | None => m
                                    end) ∅ (seqZ 0 4) in
  forward 4 olds news 0 [] = Ok (0, [])
  /\ backward 4 olds news 2 3 [] = Ok (2, 3, [])
  /\ (m_souce <$> middle_loop news keyIndex 0 4 olds (seqZ 0 3) (Middle (replicate 4 (-1)) 0 0 false []))
     = Ok [-1; 2; 0; 1]
  /\ (m_moved <$> middle_loop news keyIndex 0 4 olds (seqZ 0 3) (Middle (replicate 4 (-1)) 0 0 false []))
     = Ok true.
Proof. vm_compute. done. Qed.

(** C3, evaluated on the code.  On [-1, 2, 0, 1] (a sentinel first, then
    the values 2, 0, 1) [getSequence] returns the positions [1, 2].  They
    count the entries that are not sentinels, so they are one too small:
    the values at positions 1 and 2 of the input are 2 and 0, which is not
    increasing, whereas positions 2 and 3 carry the longest increasing
    subsequence 0, 1.  On [-1, 1, 2] the result [0, 1] names position 0,
    the sentinel itself. *)
Theorem getSequence_positions_skip_sentinels :
  getSequence [-1; 2; 0; 1] = Some [Some 1; Some 2]
  /\ increasing_subsequence [-1; 2; 0; 1] [Some 1; Some 2] = false
  /\ increasing_subsequence [-1; 2; 0; 1] [Some 2; Some 3] = true
  /\ ~ longest_increasing [-1; 2; 0; 1] [Some 1; Some 2]
  /\ getSequence [-1; 1; 2] = Some [Some 0; Some 1]
  /\ increasing_subsequence [-1; 1; 2] [Some 0; Some 1] = false.
Proof.
  repeat split; try (vm_compute; reflexivity).
  intros [H _]. vm_compute in H. discriminate.
Qed.

Lemma forward_ends olds news : forall fuel j ops,
  0 <= j -> (Z.to_nat (Z.of_nat (length olds) - j) < fuel)%nat ->
  forward fuel olds news j ops ≠ OutOfFuel.
Proof.
  induction fuel as [|fuel IH]; intros j ops Hj Hfuel; [lia|]. simpl.
  unfold child. destruct (Z.ltb_spec j 0); [lia|].
  destruct (olds !! Z.to_nat j) as [o|] eqn:Ho; [|done].
  apply lookup_lt_Some in Ho.
  destruct (strict_eq _ _); [|done].
  destruct (news !! Z.to_nat j); [|done].
  apply IH; lia.
Qed.

Lemma backward_ends olds news : forall fuel oldEnd newEnd ops,
  (Z.to_nat (oldEnd + 1) < fuel)%nat ->
  backward fuel olds news oldEnd newEnd ops ≠ OutOfFuel.
Proof.
  induction fuel as [|fuel IH]; intros oldEnd newEnd ops Hfuel; [lia|]. simpl.
  unfold child at 1. destruct (Z.ltb_spec oldEnd 0); [done|].
  destruct (olds !! Z.to_nat oldEnd) as [o|]; [|done].
  destruct (child news newEnd); [|done].
  destruct (strict_eq _ _); [|done].
  apply IH; lia.
Qed.

Lemma middle_loop_ends news keyIndex j count olds idxs : forall st,
  middle_loop news keyIndex j count olds idxs st ≠ OutOfFuel.
Proof.
  induction idxs as [|i idxs IH]; intros st; simpl; [done|].
  unfold middle_step. destruct (child olds i); [|done].
  destruct (m_patched st <? count); [|apply IH].
  destruct (keyIndex_get _ _); [apply IH|done|apply IH].
Qed.

(** The keyed diff always comes to an end: with a list of operations or
    with an exception. *)
Lemma patchKeyedChildren_ends olds news : patchKeyedChildren olds news ≠ OutOfFuel.
Proof.
  unfold patchKeyedChildren.
  pose proof (forward_ends olds news (S (length olds)) 0 []) as Hf.
  destruct (forward _ _ _ _ _) as [[j ops]| |]; [|done|exfalso; apply Hf; [lia|lia|done]].
  cbn [mbind result_bind].
  pose proof (backward_ends olds news (S (length olds))
                (Z.of_nat (length olds) - 1) (Z.of_nat (length news) - 1) ops) as Hb.
  destruct (backward _ _ _ _ _ _) as [[[oldEnd newEnd] ops']| |];
    [|done|exfalso; apply Hb; [lia|done]].
  cbn [mbind result_bind].
  destruct (_ && _); [done|]. destruct (_ && _); [done|].
  destruct (_ <? 0); [done|].
  match goal with |- context [middle_loop ?a ?b ?c ?d ?e ?f ?g] =>
    pose proof (middle_loop_ends a b c d e f g) as Hm;
    destruct (middle_loop a b c d e f g) as [st| |] end; [|done|by exfalso].
  cbn [mbind result_bind]. destruct (m_moved st); [|done].
  destruct (getSequence_total (m_souce st)) as [seq ->]. done.
Qed.

(** While the keys agree the first loop goes on; when they agree on the
    whole previous list it reads one node past its end. *)
Lemma forward_runs_past_previous (olds news : list vnode) :
  (length olds <= length news)%nat ->
  (forall i o n, olds !! i = Some o -> news !! i = Some n ->
                 strict_eq (vn_key o) (vn_key n) = true) ->
  forall fuel j ops, (j <= length olds)%nat -> (length olds - j < fuel)%nat ->
    forward fuel olds news (Z.of_nat j) ops = Throw TypeError.
Proof.
  intros Hlen Hkeys. induction fuel as [|fuel IH]; intros j ops Hj Hfuel; [lia|].
  simpl. unfold child. destruct (Z.ltb_spec (Z.of_nat j) 0); [lia|].
  rewrite Nat2Z.id.
  destruct (olds !! j) as [o|] eqn:Ho; [|done].
  apply lookup_lt_Some in Ho as Hlt.
  destruct (news !! j) as [n|] eqn:Hn; [|apply lookup_ge_None in Hn; lia].
  rewrite (Hkeys j o n Ho Hn).
  replace (Z.of_nat j + 1) with (Z.of_nat (S j)) by lia.
  apply IH; lia.
Qed.

(** So the keyed diff throws whenever the previous keys are a prefix of the
    next keys, the two lists being equal included. *)
Lemma patchKeyedChildren_prefix_throws (olds news : list vnode) :
  (length olds <= length news)%nat ->
  (forall i o n, olds !! i = Some o -> news !! i = Some n ->
                 strict_eq (vn_key o) (vn_key n) = true) ->
  patchKeyedChildren olds news = Throw TypeError.
Proof.
  intros Hlen Hkeys. unfold patchKeyedChildren.
  pose proof (forward_runs_past_previous olds news Hlen Hkeys (S (length olds)) 0 []) as H.
  change (Z.of_nat 0) with 0 in H. rewrite H by lia. done.
Qed.

(** When both loops come to an end, the two one-sided remainders are
    handled as intended: the rest of the next list is mounted before the
    node after the last matched one, the rest of the previous list is
    unmounted. *)
Lemma patchKeyedChildren_remainders (olds news : list vnode) j oldEnd newEnd ops1 ops2 :
  forward (S (length olds)) olds news 0 [] = Ok (j, ops1) ->
  backward (S (length olds)) olds news
           (Z.of_nat (length olds) - 1) (Z.of_nat (length news) - 1) ops1
    = Ok (oldEnd, newEnd, ops2) ->
  (j <= newEnd -> oldEnd < j ->
     patchKeyedChildren olds news
     = Ok (ops2 ++ ((fun k => OMount (Z.to_nat k) (anchor_at news (newEnd + 1)))
                      <$> seqZ j (newEnd - j + 1))))
  /\ (newEnd < j -> j <= oldEnd ->
        patchKeyedChildren olds news
        = Ok (ops2 ++ ((fun i => OUnmount (Z.to_nat i)) <$> seqZ j (oldEnd - j + 1)))).
Proof.
  intros Hf Hb. unfold patchKeyedChildren.
  rewrite Hf. cbn [mbind result_bind]. rewrite Hb. cbn [mbind result_bind].
  split; intros H1 H2.
  - destruct (Z.leb_spec j newEnd); [|lia]. destruct (Z.ltb_spec oldEnd j); [|lia]. done.
  - destruct (Z.leb_spec j newEnd); [lia|]. simpl.
    destruct (Z.ltb_spec newEnd j); [|lia]. destruct (Z.leb_spec j oldEnd); [|lia]. done.
Qed.

(** C2, evaluated on the code.  With previous keys [a] and next keys
    [a, b] the first loop patches the pair of a's, moves on to index 1 and
    reads [oldChildren[1].key]: the previous list has no such child and the
    diff throws before anything is mounted.  The same happens for two equal
    lists and, in the second loop, when the previous keys are a suffix of
    the next keys.  The opposite case, next keys a prefix of the previous
    keys, completes and unmounts the remainder. *)
Theorem patchKeyedChildren_reads_past_the_end :
  patchKeyedChildren [li (VStr "a")] [li (VStr "a"); li (VStr "b")] = Throw TypeError
  /\ patchChildren (ul [li (VStr "a")]) (ul [li (VStr "a"); li (VStr "b")]) = Throw TypeError
  /\ patchKeyedChildren [li (VStr "a"); li (VStr "b")] [li (VStr "a"); li (VStr "b")]
     = Throw TypeError
  /\ patchKeyedChildren [li (VStr "b")] [li (VStr "a"); li (VStr "b")] = Throw TypeError
  /\ patchKeyedChildren [li (VStr "a"); li (VStr "b")] [li (VStr "a")]
     = Ok [OPatch 0 0; OUnmount 1].
Proof. repeat split; vm_compute; reflexivity. Qed.

(** With both children lists arrays, [patchChildren] chooses by the
    truthiness of the two first keys. *)
Lemma patchChildren_arrays (pre new : vnode) olds news :
  has_flag (vn_shapeFlag new) ShapeFlags.TEXT_CHILDREN = false ->
  has_flag (vn_shapeFlag new) ShapeFlags.ARRAY_CHILDREN = true ->
  has_flag (vn_shapeFlag pre) ShapeFlags.ARRAY_CHILDREN = true ->
  vn_children pre = ChArray olds ->
  vn_children new = ChArray news ->
  patchChildren pre new
  = if first_keys_truthy olds news
    then patchKeyedChildren olds news
    else Ok (patchUnkeyedChildren olds news).
Proof.
  intros H1 H2 H3 H4 H5. unfold patchChildren. by rewrite H1, H2, H3, H4, H5.
Qed.

(** C9, evaluated on the code.  [h] keeps 0 and the empty string as keys
    (they are not null), but [patchChildren] tests the first keys for
    truthiness: with first keys 0 (or "") it takes the unkeyed diff and
    patches the children index by index, whereas the keyed diff would
    have matched them by key. *)
Theorem patchChildren_falsy_first_key_goes_unkeyed :
  let olds := [li (VNum 0); li (VNum 1); li (VNum 2)] in
  let news := [li (VNum 0); li (VNum 2)] in
  let olds' := [li (VStr ""); li (VStr "b"); li (VStr "c")] in
  let news' := [li (VStr ""); li (VStr "c")] in
  vn_key (li (VNum 0)) = VNum 0
  /\ vn_key (li (VStr "")) = VStr ""
  /\ patchChildren (ul olds) (ul news) = Ok (patchUnkeyedChildren olds news)
  /\ patchUnkeyedChildren olds news = [OPatch 0 0; OPatch 1 1; OUnmount 2]
  /\ patchKeyedChildren olds news = Ok [OPatch 0 0; OPatch 2 1; OUnmount 1]
  /\ patchChildren (ul olds') (ul news') = Ok (patchUnkeyedChildren olds' news')
  /\ patchUnkeyedChildren olds' news' = [OPatch 0 0; OPatch 1 1; OUnmount 2]
  /\ patchKeyedChildren olds' news' = Ok [OPatch 0 0; OPatch 2 1; OUnmount 1].
Proof. repeat split; vm_compute; reflexivity. Qed.

(** *** What [getSequence], [h] and the diffs guarantee *)

Lemma seq_scan_sentinels nums : forall st,
  seq_scan nums st = seq_scan (filter (fun x => x ≠ -1) nums) st.
Proof.
  induction nums as [|x nums IH]; intros st; [done|].
  destruct (decide (x = -1)) as [->|Hx].
  - rewrite filter_cons_False by (intros H; by apply H).
    simpl. destruct st as [result position]. simpl. apply IH.
  - rewrite filter_cons_True by done. simpl.
    destruct (seq_step st x); simpl; [apply IH|done].
Qed.

Lemma arr_get_vals (vals : list Z) (i : Z) :
  0 <= i -> arr_get (Some <$> vals) i = vals !! Z.to_nat i.
Proof.
  intros Hi. unfold arr_get. destruct (Z.ltb_spec i 0); [lia|].
  rewrite list_lookup_fmap. by destruct (vals !! Z.to_nat i).
Qed.

Lemma arr_set_vals (vals : list Z) (l : nat) (x : Z) :
  (l <= length vals)%nat ->
  arr_set (Some <$> vals) (Z.of_nat l) x = Some <$> place l x vals.
Proof.
  intros Hl. unfold arr_set, place. destruct (Z.ltb_spec (Z.of_nat l) 0); [lia|].
  rewrite Nat2Z.id, length_fmap.
  destruct (Nat.ltb_spec l (length vals)) as [Hlt|Hge].
  - rewrite <- list_fmap_insert. f_equal.
    rewrite insert_take_drop by done. done.
  - assert (l = length vals) as -> by lia.
    rewrite Nat.sub_diag. simpl. rewrite firstn_all, drop_ge by lia.
    by rewrite fmap_app.
Qed.

Lemma place_lookup l x vals m : (l <= length vals)%nat ->
  place l x vals !! m
  = if decide (m = l) then Some x else vals !! m.
Proof.
  intros Hl. unfold place. destruct (decide (m = l)) as [->|Hne].
  - rewrite lookup_app_r by (rewrite length_take; lia).
    rewrite length_take. replace (l - l `min` length vals)%nat with 0%nat by lia. done.
  - destruct (decide (m < l)%nat).
    + rewrite lookup_app_l by (rewrite length_take; lia). by rewrite lookup_take_lt by lia.
    + rewrite lookup_app_r by (rewrite length_take; lia).
      rewrite length_take. replace (m - l `min` length vals)%nat with (S (m - S l)) by lia.
      simpl. rewrite lookup_drop. f_equal. lia.
Qed.

Lemma place_length l x vals : (l <= length vals)%nat ->
  length (place l x vals) = Nat.max (S l) (length vals).
Proof.
  intros Hl. unfold place. rewrite length_app, length_take. simpl. rewrite length_drop. lia.
Qed.

(** On an ascending array the binary search finds the slot of [x]: the
    entries before it are smaller, those from it on are not. *)
Lemma bsearch_sorted x vals : ascending vals ->
  forall fuel l r, 0 <= l -> r < Z.of_nat (length vals) -> l <= r + 1 ->
    (Z.to_nat (r - l + 1) <= fuel)%nat ->
    (forall m a, Z.of_nat m < l -> vals !! m = Some a -> a < x) ->
    (forall m a, r < Z.of_nat m -> vals !! m = Some a -> x < a) ->
    exists p, bsearch fuel x (Some <$> vals) l r = Some (Z.of_nat p)
      /\ (p <= length vals)%nat
      /\ (forall m a, (m < p)%nat -> vals !! m = Some a -> a < x)
      /\ (forall m a, (p <= m)%nat -> vals !! m = Some a -> x <= a).
Proof.
  intros Hasc. induction fuel as [|fuel IH]; intros l r Hl Hr Hlr Hfuel Hlo Hhi.
  - simpl. destruct (Z.leb_spec l r); [lia|].
    exists (Z.to_nat l). rewrite Z2Nat.id by lia. split; [done|].
    split; [lia|]. split.
    + intros m a Hm. apply Hlo. lia.
    + intros m a Hm Ha. apply Z.lt_le_incl, (Hhi m); [lia|done].
  - simpl. destruct (Z.leb_spec l r) as [Hle|Hgt].
    + assert (Z.quot (l + r) 2 = (l + r) / 2) as Hq by (apply Z.quot_div_nonneg; lia).
      rewrite Hq. set (mid := (l + r) / 2).
      assert (l <= mid <= r) as Hmid.
      { unfold mid. split; [apply Z.div_le_lower_bound; lia|].
        apply Z.div_le_upper_bound; lia. }
      rewrite arr_get_vals by lia.
      destruct (lookup_lt_is_Some_2 vals (Z.to_nat mid)) as [vm Hvm]; [lia|].
      rewrite Hvm. simpl.
      destruct (Z.gtb_spec x vm) as [Hgt|Hngt].
      * apply IH; try lia.
        -- intros m a Hm Ha.
           destruct (decide (m = Z.to_nat mid)) as [->|Hne]; [congruence|].
           assert (a < vm) by (apply (Hasc m (Z.to_nat mid)); [done|done|lia]). lia.
        -- done.
      * destruct (Z.ltb_spec x vm) as [Hlt|Hnlt].
        -- apply IH; try lia.
           ++ done.
           ++ intros m a Hm Ha.
              destruct (decide (m = Z.to_nat mid)) as [->|Hne]; [congruence|].
              assert (vm < a) by (apply (Hasc (Z.to_nat mid) m); [done|done|lia]). lia.
        -- assert (x = vm) as -> by lia.
           exists (Z.to_nat mid). rewrite Z2Nat.id by lia. split; [done|].
           split; [lia|]. split.
           ++ intros m a Hm Ha. apply (Hasc m (Z.to_nat mid)); done.
           ++ intros m a Hm Ha.
              destruct (decide (m = Z.to_nat mid)) as [->|Hne]; [assert (a = vm) by congruence; lia|].
              apply Z.lt_le_incl, (Hasc (Z.to_nat mid) m); [done|done|lia].
    + exists (Z.to_nat l). rewrite Z2Nat.id by lia. split; [done|].
      split; [lia|]. split.
      * intros m a Hm. apply Hlo. lia.
      * intros m a Hm Ha. apply Z.lt_le_incl, (Hhi m); [lia|done].
Qed.

(** One turn of the scan on an ascending [result]: the element takes the
    slot of the first entry that is not smaller. *)
Lemma seq_step_sorted vals position x :
  ascending vals -> x ≠ -1 ->
  exists l, (l <= length vals)%nat
    /\ (forall m a, (m < l)%nat -> vals !! m = Some a -> a < x)
    /\ (forall m a, (l <= m)%nat -> vals !! m = Some a -> x <= a)
    /\ seq_step (Some <$> vals, position) x
       = Some (Some <$> place l x vals, position ++ [Z.of_nat l]).
Proof.
  intros Hasc Hx. unfold seq_step.
  destruct (Z.eqb_spec x (-1)) as [|_]; [done|].
  rewrite length_fmap.
  destruct (js_gt x (arr_get (Some <$> vals) (Z.of_nat (length vals) - 1))) eqn:Hgt.
  - (* appended *)
    exists (length vals).
    destruct (decide (length vals = 0%nat)) as [Hz|Hnz].
    { rewrite Hz in Hgt. simpl in Hgt. unfold arr_get in Hgt. simpl in Hgt. done. }
    rewrite arr_get_vals in Hgt by lia.
    destruct (lookup_lt_is_Some_2 vals (Z.to_nat (Z.of_nat (length vals) - 1))) as [vl Hvl]; [lia|].
    rewrite Hvl in Hgt. simpl in Hgt. apply Z.gtb_lt in Hgt.
    split; [lia|]. split; [|split].
    + intros m a Hm Ha.
      destruct (decide (m = Z.to_nat (Z.of_nat (length vals) - 1))) as [->|Hne];
        [assert (a = vl) by congruence; lia|].
      assert (a < vl) by (apply (Hasc m (Z.to_nat (Z.of_nat (length vals) - 1))); [done|done|lia]).
      lia.
    + intros m a Hm Ha. apply lookup_lt_Some in Ha. lia.
    + f_equal. f_equal.
      * unfold place. rewrite firstn_all, drop_ge by lia. by rewrite fmap_app.
      * rewrite length_app, length_fmap. simpl. do 2 f_equal. lia.
  - destruct (bsearch_sorted x vals Hasc (S (length vals)) 0 (Z.of_nat (length vals) - 1))
      as (p & Hb & Hp & Hlo & Hhi); try lia.
    + intros m a Hm Ha. apply lookup_lt_Some in Ha. lia.
    + exists p. rewrite Hb. simpl. rewrite arr_set_vals by done. done.
Qed.

Lemma chain_increasing nums : (-1) ∉ nums ->
  forall js, chain nums js ->
  forall prev,
    match prev, js with
    | Some (p, w), j :: _ => exists v, nums !! j = Some v /\ p < Z.of_nat j /\ w < v
    | _, _ => True
    end ->
    increasing_from nums prev (positions js) = true.
Proof.
  intros Hno js Hch. induction Hch as [|i v Hi|i j js v w Hi Hj Hij Hvw Hch IH]; intros prev Hprev.
  - done.
  - simpl. destruct (Z.ltb_spec (Z.of_nat i) 0); [lia|]. rewrite Nat2Z.id, Hi.
    assert (v ≠ -1) as Hv by (intros ->; apply Hno; by eapply list_elem_of_lookup_2).
    destruct (Z.eqb_spec v (-1)); [done|]. simpl.
    destruct prev as [[p w]|]; [|done].
    destruct Hprev as (v' & Hv' & Hp & Hw). assert (v' = v) as -> by congruence.
    rewrite andb_true_r. apply andb_true_iff. split; by apply Z.ltb_lt.
  - change (positions (i :: j :: js)) with (Some (Z.of_nat i) :: positions (j :: js)).
    cbn [increasing_from].
    destruct (Z.ltb_spec (Z.of_nat i) 0); [lia|]. rewrite Nat2Z.id, Hi.
    assert (v ≠ -1) as Hv by (intros ->; apply Hno; by eapply list_elem_of_lookup_2).
    destruct (Z.eqb_spec v (-1)); [done|]. cbn [negb andb].
    rewrite (IH (Some (Z.of_nat i, v))) by (exists w; split; [done|lia]).
    rewrite andb_true_r.
    destruct prev as [[p w']|]; [|done].
    destruct Hprev as (v' & Hv' & Hp & Hw). assert (v' = v) as -> by congruence.
    apply andb_true_iff. split; by apply Z.ltb_lt.
Qed.

Lemma increasing_incr nums : forall idxs prev js0,
  increasing_from nums prev idxs = true ->
  incr nums js0 ->
  match prev with
  | None => js0 = []
  | Some (p, w) => exists js0' j, js0 = js0' ++ [j] /\ p = Z.of_nat j /\ nums !! j = Some w
  end ->
  exists js, length js = length idxs /\ incr nums (js0 ++ js).
Proof.
  induction idxs as [|[i|] idxs IH]; intros prev js0 Hinc Hjs0 Hprev.
  - exists []. by rewrite app_nil_r.
  - simpl in Hinc. destruct (Z.ltb_spec i 0) as [|Hi]; [done|].
    destruct (nums !! Z.to_nat i) as [v|] eqn:Hv; [|done].
    apply andb_true_iff in Hinc as [Hinc Hrest].
    apply andb_true_iff in Hinc as [_ Hlink].
    destruct (IH (Some (i, v)) (js0 ++ [Z.to_nat i]) Hrest) as (js & Hlen & Hjs).
    + destruct prev as [[p w]|].
      * destruct Hprev as (js0' & j & -> & -> & Hw).
        apply andb_true_iff in Hlink as [Hlt Hwv]. apply Z.ltb_lt in Hlt, Hwv.
        rewrite <- app_assoc. simpl.
        eapply incr_snoc; [done| |done|done|done]. lia.
      * subst js0. simpl. by eapply incr_one.
    + exists js0, (Z.to_nat i). split; [done|]. split; [lia|done].
    + exists (Z.to_nat i :: js). split; [simpl; lia|].
      by rewrite <- app_assoc in Hjs.
  - done.
Qed.

Lemma incr_last nums js : incr nums js -> js ≠ [] ->
  exists j v, last js = Some j /\ nums !! j = Some v.
Proof.
  intros H Hne. destruct H as [|i v Hi|js i j v w _ _ _ Hj _]; [done| |].
  - by exists i, v.
  - exists j, w. split; [|done]. replace (js ++ [i; j]) with ((js ++ [i]) ++ [j]).
    + apply last_snoc.
    + by rewrite <- app_assoc.
Qed.

(** An increasing subsequence of [prefix ++ [x]] either leaves the new
    element out, or ends with it. *)
Lemma incr_snoc_cases prefix x js :
  incr (prefix ++ [x]) js ->
  incr prefix js
  \/ exists js', js = js' ++ [length prefix] /\ incr prefix js'
       /\ forall j v, last js' = Some j -> prefix !! j = Some v -> v < x.
Proof.
  induction 1 as [|i v Hi|js i j v w Hjs IH Hij Hi Hj Hvw].
  - left. constructor.
  - destruct (decide (i < length prefix)%nat) as [Hlt|Hge].
    + left. rewrite lookup_app_l in Hi by done. by eapply incr_one.
    + right. exists []. assert (i = length prefix) as ->.
      { apply lookup_lt_Some in Hi. rewrite length_app in Hi. simpl in Hi. lia. }
      split; [done|]. split; [constructor|]. intros ? ? ?. done.
  - assert (j <= length prefix)%nat as Hjle.
    { apply lookup_lt_Some in Hj. rewrite length_app in Hj. simpl in Hj. lia. }
    destruct IH as [IH|(js' & Heq & _ & _)].
    + rewrite lookup_app_l in Hi by lia.
      destruct (decide (j < length prefix)%nat) as [Hlt|Hge].
      * left. rewrite lookup_app_l in Hj by done. by eapply incr_snoc.
      * right. exists (js ++ [i]). assert (j = length prefix) as -> by lia.
        split; [by rewrite <- app_assoc|]. split; [done|].
        intros j' v' Hlast Hv'. rewrite last_snoc in Hlast.
        assert (w = x) as ->.
        { rewrite lookup_app_r, Nat.sub_diag in Hj by lia. simpl in Hj. congruence. }
        congruence.
    + apply app_inj_tail in Heq as [_ ->]. lia.
Qed.

Lemma scanned_nil : scanned [] [] [].
Proof.
  split; try done.
  intros js Hjs. destruct Hjs as [|i v Hi|js i j v w _ _ Hi _ _]; [|done|done].
  split; [done|]. intros ? ? ?. done.
Qed.

Lemma scanned_step prefix vals position x l :
  scanned prefix vals position ->
  (l <= length vals)%nat ->
  (forall m a, (m < l)%nat -> vals !! m = Some a -> a < x) ->
  (forall m a, (l <= m)%nat -> vals !! m = Some a -> x <= a) ->
  scanned (prefix ++ [x]) (place l x vals) (position ++ [Z.of_nat l]).
Proof.
  intros [Hasc Hlen Hlast Hprev Hbest] Hl Hlo Hhi.
  assert (forall m, place l x vals !! m = if decide (m = l) then Some x else vals !! m) as Hpl
    by (intros m; by apply place_lookup).
  split.
  - intros i j a b. rewrite !Hpl. intros Ha Hb Hij.
    destruct (decide (i = l)) as [->|Hil], (decide (j = l)) as [->|Hjl].
    + lia.
    + assert (a = x) as -> by congruence.
      destruct (vals !! l) as [vl|] eqn:Hvl.
      * assert (x <= vl) by (by apply (Hhi l)).
        assert (vl < b) by (by apply (Hasc l j)). lia.
      * apply lookup_ge_None in Hvl. apply lookup_lt_Some in Hb. lia.
    + assert (b = x) as -> by congruence. by apply (Hlo i).
    + by apply (Hasc i j).
  - rewrite !length_app. simpl. lia.
  - intros c v. rewrite Hpl. intros Hv.
    destruct (decide (c = l)) as [->|Hcl].
    + assert (v = x) as -> by congruence.
      exists (length position). split; [|split].
      * by rewrite lookup_app_r, Nat.sub_diag by lia.
      * by rewrite Hlen, lookup_app_r, Nat.sub_diag by lia.
      * intros i' Hi'. rewrite lookup_ge_None_2; [done|]. rewrite length_app. simpl. lia.
    + destruct (Hlast c v Hv) as (i & Hi & Hpi & Hafter).
      exists i. split; [|split].
      * by rewrite lookup_app_l by (by eapply lookup_lt_Some).
      * by rewrite lookup_app_l by (by eapply lookup_lt_Some).
      * intros i' Hi'. destruct (decide (i' < length position)%nat).
        -- rewrite lookup_app_l by done. by apply Hafter.
        -- destruct (decide (i' = length position)) as [->|].
           ++ rewrite lookup_app_r, Nat.sub_diag by lia. simpl. intros [=]. lia.
           ++ rewrite lookup_ge_None_2; [done|]. rewrite length_app. simpl. lia.
  - intros i c y Hi Hy.
    destruct (decide (i < length position)%nat) as [Hlt|Hge].
    + rewrite lookup_app_l in Hi by done. rewrite lookup_app_l in Hy by lia.
      destruct (Hprev i c y Hi Hy) as (i' & z & Hi' & Hpi' & Hz & Hzy & Hbetween).
      exists i', z. split; [done|]. split; [by rewrite lookup_app_l by lia|].
      split; [by rewrite lookup_app_l by lia|]. split; [done|].
      intros i'' Hi''. rewrite lookup_app_l by lia. by apply Hbetween.
    + assert (i = length position) as ->.
      { apply lookup_lt_Some in Hi. rewrite length_app in Hi. simpl in Hi. lia. }
      rewrite lookup_app_r, Nat.sub_diag in Hi by lia. simpl in Hi.
      assert (l = S c) as -> by (injection Hi; lia).
      rewrite Hlen, lookup_app_r, Nat.sub_diag in Hy by lia. simpl in Hy.
      assert (y = x) as -> by congruence.
      destruct (lookup_lt_is_Some_2 vals c) as [vc Hvc]; [lia|].
      destruct (Hlast c vc Hvc) as (i' & Hi' & Hpi' & Hafter).
      assert (i' < length position)%nat by (by eapply lookup_lt_Some).
      exists i', vc. split; [done|]. split; [by rewrite lookup_app_l by lia|].
      split; [by rewrite lookup_app_l by lia|]. split; [by apply (Hlo c); [lia|]|].
      intros i'' Hi''. rewrite lookup_app_l by lia. apply Hafter. lia.
  - intros js Hjs. rewrite place_length by done.
    apply incr_snoc_cases in Hjs as [Hjs|(js' & -> & Hjs' & Hless)].
    + destruct (Hbest js Hjs) as [Hn Hv]. split; [lia|].
      intros j v Hj Hjv.
      assert (j < length prefix)%nat as Hjlt.
      { destruct (decide (js = [])) as [->|Hne]; [done|].
        destruct (incr_last _ _ Hjs Hne) as (j' & v' & Hj' & Hv').
        assert (j' = j) as -> by congruence. by eapply lookup_lt_Some. }
      rewrite lookup_app_l in Hjv by done.
      destruct (Hv j v Hj Hjv) as (w & Hw & Hwv).
      rewrite Hpl. destruct (decide ((length js - 1)%nat = l)) as [Heq|Hne].
      * exists x. split; [done|]. assert (x <= w) by (apply (Hhi (length js - 1)%nat); [lia|done]).
        lia.
      * by exists w.
    + destruct (Hbest js' Hjs') as [Hn Hv]. rewrite length_app. simpl.
      assert (length js' <= l)%nat as Hjl.
      { destruct (decide (js' = [])) as [->|Hne]; [simpl; lia|].
        destruct (incr_last _ _ Hjs' Hne) as (j' & v' & Hj' & Hv').
        destruct (Hv j' v' Hj' Hv') as (w & Hw & Hwv).
        specialize (Hless j' v' Hj' Hv').
        destruct (decide (l <= length js' - 1)%nat) as [Hle|]; [|lia].
        assert (x <= w) by (by apply (Hhi (length js' - 1)%nat)). lia. }
      split; [lia|].
      intros j v Hj Hjv. rewrite last_snoc in Hj. injection Hj as <-.
      rewrite lookup_app_r, Nat.sub_diag in Hjv by lia. simpl in Hjv. injection Hjv as <-.
      replace (length js' + 1 - 1)%nat with (length js') by lia.
      rewrite Hpl. destruct (decide (length js' = l)) as [Heq|Hne].
      * exists x. split; [done|lia].
      * destruct (lookup_lt_is_Some_2 vals (length js')) as [w Hw]; [lia|].
        exists w. split; [done|]. apply Z.lt_le_incl, (Hlo (length js')); [lia|done].
Qed.

Lemma seq_scan_scanned nums : (-1) ∉ nums ->
  forall prefix vals position,
    scanned prefix vals position ->
    exists vals' position',
      seq_scan nums (Some <$> vals, position) = Some (Some <$> vals', position')
      /\ scanned (prefix ++ nums) vals' position'.
Proof.
  induction nums as [|x nums IH]; intros Hno prefix vals position Hsc.
  - exists vals, position. by rewrite app_nil_r.
  - apply not_elem_of_cons in Hno as [Hx Hno].
    destruct (seq_step_sorted vals position x (sc_asc _ _ _ Hsc)) as (l & Hl & Hlo & Hhi & Hstep);
      [done|].
    cbn [seq_scan]. rewrite Hstep. cbn [mbind option_bind].
    destruct (IH Hno (prefix ++ [x]) (place l x vals) (position ++ [Z.of_nat l]))
      as (vals' & position' & Hscan & Hsc'); [by apply scanned_step|].
    exists vals', position'. split; [done|]. by rewrite <- app_assoc in Hsc'.
Qed.

Lemma chain_head prefix i js : chain prefix (i :: js) -> exists x, prefix !! i = Some x.
Proof. inversion 1; eauto. Qed.

(** The entry the backward loop is looking for, as long as a slot is left. *)
Lemma backtrack_target prefix vals position c chosen :
  scanned prefix vals position ->
  (S c <= length vals)%nat ->
  length chosen = (length vals - S c)%nat ->
  chain prefix chosen ->
  (forall i, head chosen = Some i -> position !! i = Some (Z.of_nat (S c))) ->
  exists t y, (t < default (length position) (head chosen))%nat
    /\ position !! t = Some (Z.of_nat c) /\ prefix !! t = Some y
    /\ forall i x, head chosen = Some i -> prefix !! i = Some x ->
         y < x /\ forall i'', (t < i'' < i)%nat -> position !! i'' ≠ Some (Z.of_nat c).
Proof.
  intros Hsc Hc Hlen Hch Hhead. destruct chosen as [|i js]; simpl in *.
  - destruct (lookup_lt_is_Some_2 vals c) as [v Hv]; [lia|].
    destruct (sc_last _ _ _ Hsc c v Hv) as (t & Ht & Hpt & _).
    exists t, v. split; [by eapply lookup_lt_Some|]. split; [done|]. split; [done|].
    intros ? ? [=].
  - destruct (chain_head _ _ _ Hch) as [x Hx].
    destruct (sc_prev _ _ _ Hsc i c x (Hhead i eq_refl) Hx) as (t & y & Hti & Ht & Hy & Hyx & Hbetween).
    exists t, y. split; [done|]. split; [done|]. split; [done|].
    intros i' x' [= <-] Hx'. assert (x' = x) as -> by congruence. done.
Qed.

Lemma backtrack_chain prefix vals position :
  scanned prefix vals position ->
  forall n c chosen,
    (c <= length vals)%nat ->
    length chosen = (length vals - c)%nat ->
    chain prefix chosen ->
    (n <= default (length position) (head chosen))%nat ->
    (forall i, head chosen = Some i -> position !! i = Some (Z.of_nat c)) ->
    (forall i'', (n <= i'' < default (length position) (head chosen))%nat ->
                 position !! i'' ≠ Some (Z.of_nat c - 1)) ->
    exists chosen', length chosen' = length vals /\ chain prefix chosen'
      /\ backtrack n position ((Some <$> take c vals) ++ positions chosen) (Z.of_nat c - 1)
         = positions chosen'.
Proof.
  intros Hsc. induction n as [|m IH]; intros c chosen Hc Hlen Hch Hn Hhead Hnone.
  - destruct c as [|c].
    + exists chosen. split; [lia|]. split; [done|]. done.
    + destruct (backtrack_target prefix vals position c chosen) as (t & y & Ht & Hpt & _); try done.
      exfalso. apply (Hnone t); [lia|]. rewrite Hpt. f_equal. lia.
  - cbn [backtrack]. destruct c as [|c].
    + destruct (Z.ltb_spec (Z.of_nat 0 - 1) 0); [|lia].
      exists chosen. split; [lia|]. split; [done|]. done.
    + destruct (Z.ltb_spec (Z.of_nat (S c) - 1) 0); [lia|].
      assert (Z.of_nat (S c) - 1 = Z.of_nat c) as Hcz by lia.
      rewrite Hcz in *.
      case_bool_decide as Hm.
      * (* the entry is found: it takes the slot *)
        assert (chain prefix (m :: chosen)) as Hch'.
        { destruct chosen as [|i js]; simpl in *.
          - destruct (lookup_lt_is_Some_2 prefix m) as [v Hv];
              [rewrite <- (sc_len _ _ _ Hsc); lia|].
            by eapply chain_one.
          - destruct (backtrack_target prefix vals position c (i :: js))
              as (t & y & Ht & Hpt & Hy & Hlink); try done.
            destruct (chain_head _ _ _ Hch) as [x Hx].
            destruct (Hlink i x eq_refl Hx) as [Hyx Hbetween]. simpl in Ht.
            assert (t = m) as ->.
            { destruct (decide (t < m)%nat); [exfalso; apply (Hbetween m); [lia|done]|].
              destruct (decide (m < t)%nat); [exfalso; apply (Hnone t); [lia|done]|]. lia. }
            eapply chain_cons; [done|done|lia|done|done]. }
        destruct (IH c (m :: chosen)) as (chosen' & Hlen' & Hchain' & Hback);
          [lia|simpl; lia|done|simpl; lia| |simpl; lia|].
        { intros i [= <-]. done. }
        exists chosen'. split; [done|]. split; [done|].
        rewrite <- Hback. f_equal; try lia.
        destruct (lookup_lt_is_Some_2 vals c) as [v Hv]; [lia|].
        rewrite (take_S_r _ _ _ Hv), fmap_app, <- app_assoc.
        unfold arr_set. destruct (Z.ltb_spec (Z.of_nat c) 0); [lia|].
        rewrite Nat2Z.id.
        assert (length (Some <$> take c vals) = c) as Hlc
          by (rewrite length_fmap, length_take; lia).
        destruct (Nat.ltb_spec c (length ((Some <$> take c vals)
                                   ++ (Some <$> [v]) ++ positions chosen))) as [_|Hge];
          [|rewrite length_app, Hlc in Hge; simpl in Hge; lia].
        rewrite insert_app_r_alt by lia. rewrite Hlc, Nat.sub_diag. done.
      * destruct (IH (S c) chosen) as (chosen' & Hlen' & Hchain' & Hback);
          try done; [lia| |].
        { intros i'' Hi''. rewrite Hcz.
          destruct (decide (i'' = m)) as [->|]; [done|]. apply Hnone. lia. }
        exists chosen'. by rewrite Hcz in Hback.
Qed.

(** X1.  [getSequence] always returns, and what it returns is a longest
    strictly increasing subsequence of the input with its [-1] entries left
    out, as positions in that shortened list.  For an input without [-1]
    these are positions of the input itself. *)
Theorem getSequence_longest_among_present (nums : list Z) :
  exists idxs,
    getSequence nums = Some idxs
    /\ longest_increasing (filter (fun x => x ≠ -1) nums) idxs
    /\ ((-1) ∉ nums -> longest_increasing nums idxs).
Proof.
  set (present := filter (fun x => x ≠ -1) nums).
  assert ((-1) ∉ present) as Hno.
  { intros Hin. apply list_elem_of_filter in Hin as [Hne _]. by apply Hne. }
  destruct (seq_scan_scanned present Hno [] [] [] scanned_nil)
    as (vals & position & Hscan & Hsc).
  simpl in Hsc.
  destruct (backtrack_chain present vals position Hsc (length position) (length vals) [])
    as (chosen & Hlen & Hchain & Hback); [lia|simpl; lia|constructor|simpl; lia|done| |].
  { simpl. lia. }
  rewrite firstn_all, app_nil_r in Hback.
  assert (longest_increasing present (positions chosen)) as Hlong.
  { split.
    - by apply (chain_increasing present Hno chosen Hchain None).
    - intros idxs' Hinc.
      destruct (increasing_incr present idxs' None [] Hinc) as (js & Hjs & Hincr);
        [constructor|done|].
      destruct (sc_best _ _ _ Hsc js Hincr) as [Hle _].
      unfold positions. rewrite length_fmap. lia. }
  exists (positions chosen). split; [|split; [done|]].
  - unfold getSequence. rewrite seq_scan_sentinels. fold present.
    change (@nil (option Z)) with (Some <$> @nil Z). rewrite Hscan.
    cbn [mbind option_bind]. rewrite length_fmap. by rewrite Hback.
  - intros Hnone. replace nums with present; [done|].
    unfold present. clear -Hnone. induction nums as [|x nums IH]; [done|].
    apply not_elem_of_cons in Hnone as [Hx Hnone].
    rewrite filter_cons_True by done. f_equal. by apply IH.
Qed.

(** X2.  What [h] guarantees of the vnode it builds.  It has the type and
    the props given.  Its key is the [key] of the props, and [null] when
    there are no props, when the props have no [key], and when their [key] is
    [null] or [undefined]: the key is never [undefined].  The array-children
    and text-children flags are set exactly when the children are an array, a
    text; an array, a text and no children are kept as they are, and number
    children are stored as text, a safe integer as its decimal digits.  The
    flag of the node's kind is set exactly for that kind of [type]. *)
Theorem h_shape type props kids :
  let v := h type props kids in
  vn_type v = type /\ vn_props v = props
  /\ vn_key v ≠ VUndef
  /\ (props = None -> vn_key v = VNull)
  /\ (forall p, props = Some p -> p !! "key"%string = None -> vn_key v = VNull)
  /\ (forall p k, props = Some p -> p !! "key"%string = Some k ->
        vn_key v = match k with VUndef | VNull => VNull | _ => k end)
  /\ (has_flag (vn_shapeFlag v) ShapeFlags.ARRAY_CHILDREN = true
      <-> exists l, vn_children v = ChArray l)
  /\ (has_flag (vn_shapeFlag v) ShapeFlags.TEXT_CHILDREN = true
      <-> exists s, vn_children v = ChText s)
  /\ (forall n, vn_children v ≠ ChNumber n)
  /\ (forall n, kids = ChNumber n -> exists s, vn_children v = ChText s)
  /\ (forall n, kids = ChNumber n -> safe_integer n -> vn_children v = ChText (pretty n))
  /\ ((forall n, kids ≠ ChNumber n) -> vn_children v = kids)
  /\ (has_flag (vn_shapeFlag v) ShapeFlags.ELEMENT = true <-> exists tag, type = TTag tag)
  /\ (has_flag (vn_shapeFlag v) ShapeFlags.TEXT = true <-> type = TText)
  /\ (has_flag (vn_shapeFlag v) ShapeFlags.FRAGMENT = true <-> type = TFragment)
  /\ (has_flag (vn_shapeFlag v) ShapeFlags.COMPONENT = true <-> exists c, type = TComponent c).
Proof.
  cbv zeta. split; [|split; [|split; [|split; [|split; [|split]]]]].
  - by destruct kids.
  - by destruct kids.
  - unfold h. destruct kids, props as [p|]; simpl; try done;
      destruct (p !! "key"%string) as [[]|]; done.
  - intros ->. by destruct kids.
  - intros p -> Hp. unfold h. destruct kids; simpl; by rewrite Hp.
  - intros p k -> Hp. unfold h. destruct kids; simpl; rewrite Hp; by destruct k.
  - destruct type, kids; cbn -[pretty];
      repeat split; try done; try (intros [? [=]]); try (intros [=]); eauto;
      try (by intros ? [=]); try (by intros ? [= ->] _);
      try (intros Hn; by destruct (Hn _ eq_refl)).
Qed.

Lemma strict_eq_eq a b : strict_eq a b = true -> a = b.
Proof. destruct a, b; simpl; try done; by case_bool_decide. Qed.

Lemma child_Some l i v : child l i = Some v -> 0 <= i /\ l !! Z.to_nat i = Some v.
Proof. unfold child. destruct (Z.ltb_spec i 0); [done|]. intros. split; [lia|done]. Qed.

Lemma forward_sound olds news : forall fuel j ops j' ops',
  Forall (sound_op olds news) ops ->
  forward fuel olds news j ops = Ok (j', ops') ->
  Forall (sound_op olds news) ops' /\ j <= j'.
Proof.
  induction fuel as [|fuel IH]; intros j ops j' ops' Hops Hf; [done|].
  simpl in Hf. destruct (child olds j) as [o|] eqn:Ho; [|done].
  destruct (strict_eq _ _) eqn:Heq.
  - destruct (child news j) as [n|] eqn:Hn; [|done].
    apply IH in Hf as [? ?]; [split; [done|lia]|].
    apply Forall_app. split; [done|]. apply Forall_singleton.
    apply child_Some in Ho as [? Ho], Hn as [? Hn].
    exists o, n. split; [done|]. split; [done|]. by rewrite (strict_eq_eq _ _ Heq).
  - injection Hf as <- <-. split; [done|lia].
Qed.

Lemma backward_sound olds news : forall fuel oldEnd newEnd ops oe ne ops',
  Forall (sound_op olds news) ops ->
  backward fuel olds news oldEnd newEnd ops = Ok (oe, ne, ops') ->
  Forall (sound_op olds news) ops' /\ oe <= oldEnd /\ ne <= newEnd.
Proof.
  induction fuel as [|fuel IH]; intros oldEnd newEnd ops oe ne ops' Hops Hb; [done|].
  simpl in Hb. destruct (child olds oldEnd) as [o|] eqn:Ho; [|done].
  destruct (child news newEnd) as [n|] eqn:Hn; [|done].
  destruct (strict_eq _ _) eqn:Heq.
  - apply IH in Hb as (? & ? & ?); [split; [done|lia]|].
    apply Forall_app. split; [done|]. apply Forall_singleton.
    apply child_Some in Ho as [? Ho], Hn as [? Hn].
    exists o, n. split; [done|]. split; [done|]. by rewrite (strict_eq_eq _ _ Heq).
  - injection Hb as <- <- <-. split; [done|lia].
Qed.

Lemma keyIndex_built news : forall idxs keyIndex,
  keyIndex_sound news keyIndex ->
  keyIndex_sound news
    (foldl (fun m i => match child news i with
                       | Some newNode => keyIndex_set m (vn_key newNode) i
                       | None => m
                       end) keyIndex idxs).
Proof.
  induction idxs as [|i idxs IH]; intros keyIndex Hk; [done|].
  simpl. apply IH. destruct (child news i) as [n|] eqn:Hn; [|done].
  unfold keyIndex_set. case_bool_decide; [done|].
  intros s k. rewrite lookup_insert. case_decide as Hs.
  - intros [= <-]. by exists n.
  - apply Hk.
Qed.

Lemma middle_loop_sound olds news keyIndex j count :
  keyIndex_sound news keyIndex ->
  forall idxs st st',
    Forall (sound_op olds news) (m_ops st) ->
    middle_loop news keyIndex j count olds idxs st = Ok st' ->
    Forall (sound_op olds news) (m_ops st').
Proof.
  intros Hk. induction idxs as [|i idxs IH]; intros st st' Hops Hm.
  - by injection Hm as <-.
  - simpl in Hm. destruct (middle_step _ _ _ _ _ _ _) as [st1| |] eqn:Hstep; [|done|done].
    simpl in Hm. apply (IH st1); [|done].
    unfold middle_step in Hstep. destruct (child olds i) as [o|] eqn:Ho; [|done].
    apply child_Some in Ho as [? Ho].
    assert (Forall (sound_op olds news) (m_ops st ++ [OUnmount (Z.to_nat i)])) as Hun.
    { apply Forall_app. split; [done|]. apply Forall_singleton. by exists o. }
    destruct (m_patched st <? count).
    + unfold keyIndex_get in Hstep.
      destruct (keyIndex !! js_String (vn_key o)) as [k|] eqn:Hkk.
      * injection Hstep as <-. simpl. apply Forall_app. split; [done|].
        apply Forall_singleton. destruct (Hk _ _ Hkk) as (n & Hn & Hs).
        apply child_Some in Hn as [? Hn]. by exists o, n.
      * case_bool_decide; [done|]. by injection Hstep as <-.
    + by injection Hstep as <-.
Qed.

Lemma anchor_at_exists news nextPos : 0 <= nextPos -> anchor_exists news (anchor_at news nextPos).
Proof.
  intros H. unfold anchor_at. destruct (Z.ltb_spec nextPos (Z.of_nat (length news))); [|done].
  simpl. apply lookup_lt_is_Some_2. lia.
Qed.

Lemma move_loop_sound olds news souce seq j : 0 <= j -> forall n s ops,
  Z.of_nat n + j <= Z.of_nat (length news) ->
  Forall (sound_op olds news) ops ->
  Forall (sound_op olds news) (move_loop n news souce seq j s ops).
Proof.
  intros Hj. induction n as [|i IH]; intros s ops Hn Hops; [done|].
  simpl. assert (is_Some (news !! Z.to_nat (Z.of_nat i + j))) as Hnew
      by (apply lookup_lt_is_Some_2; lia).
  case_bool_decide; [|destruct (negb _)]; apply IH; try lia; try done;
    apply Forall_app; (split; [done|]); apply Forall_singleton;
    (split; [done|apply anchor_at_exists; lia]).
Qed.

Lemma lookup_seqZ_sound (l : list vnode) j len :
  0 <= j -> j + len <= Z.of_nat (length l) ->
  forall k, k ∈ seqZ j len -> is_Some (l !! Z.to_nat k).
Proof.
  intros Hj Hlen k Hk. apply elem_of_seqZ in Hk. apply lookup_lt_is_Some_2. lia.
Qed.

(** X3.  Whenever the keyed diff completes, everything it asks for is about
    children that exist: it patches a previous child with a next child whose
    key prints the same, unmounts previous children, mounts or moves next
    children, and every anchor is a next child or the end of the container.
    It never asks for an index outside either list.  (It always ends: it
    completes or throws.) *)
Theorem patchKeyedChildren_requests_are_sound (olds news : list vnode) :
  patchKeyedChildren olds news ≠ OutOfFuel
  /\ forall ops, patchKeyedChildren olds news = Ok ops -> Forall (sound_op olds news) ops.
Proof.
  split; [apply patchKeyedChildren_ends|].
  intros ops. unfold patchKeyedChildren.
  destruct (forward _ _ _ _ _) as [[j ops1]| |] eqn:Hf; [|done|done].
  apply forward_sound in Hf as [Hops1 Hj]; [|done].
  cbn [mbind result_bind].
  destruct (backward _ _ _ _ _ _) as [[[oldEnd newEnd] ops2]| |] eqn:Hb; [|done|done].
  apply backward_sound in Hb as (Hops2 & Hoe & Hne); [|done].
  cbn [mbind result_bind].
  destruct ((j <=? newEnd) && (oldEnd <? j)) eqn:Hnew.
  { intros [= <-]. apply andb_true_iff in Hnew as [Hjn _]. apply Z.leb_le in Hjn.
    apply Forall_app. split; [done|]. apply Forall_fmap, Forall_forall.
    intros k Hk. split; [by apply (lookup_seqZ_sound news j (newEnd - j + 1)); [lia|lia|]|].
    apply anchor_at_exists. lia. }
  destruct ((newEnd <? j) && (j <=? oldEnd)) eqn:Hold.
  { intros [= <-]. apply Forall_app. split; [done|]. apply Forall_fmap, Forall_forall.
    intros i Hi. by apply (lookup_seqZ_sound olds j (oldEnd - j + 1)); [lia|lia|]. }
  destruct (Z.ltb_spec (newEnd - j + 1) 0); [done|].
  destruct (middle_loop _ _ _ _ _ _ _) as [st| |] eqn:Hm; [|done|done].
  apply middle_loop_sound in Hm; [|by apply keyIndex_built|done].
  cbn [mbind result_bind].
  destruct (m_moved st); [|by intros [= <-]].
  destruct (getSequence _) as [seq|]; [|done].
  intros [= <-]. apply move_loop_sound; [lia|lia|done].
Qed.

(** X4.  The unkeyed diff works by position alone.  Its i-th request is:
    patch previous child i with next child i where both lists have a child
    i; unmount previous child i where only the previous list has one; mount
    next child i (before the anchor handed in) where only the next list has
    one; and there are no further requests. *)
Theorem patchUnkeyedChildren_by_position (olds news : list vnode) (i : nat) :
  patchUnkeyedChildren olds news !! i
  = if decide (i < length olds)%nat then
      if decide (i < length news)%nat then Some (OPatch i i) else Some (OUnmount i)
    else
      if decide (i < length news)%nat then Some (OMount i AParam) else None.
Proof.
  unfold patchUnkeyedChildren, unmountChildren, mountChildren.
  set (c := Nat.min (length olds) (length news)).
  assert (length ((fun i => OPatch i i) <$> seq 0 c) = c) as Hlen
    by (by rewrite length_fmap, length_seq).
  assert (forall n, (n < c)%nat -> ((fun i => OPatch i i) <$> seq 0 c) !! n = Some (OPatch n n)) as Hcommon.
  { intros n Hn. rewrite list_lookup_fmap, lookup_seq_lt by done. done. }
  destruct (Nat.ltb_spec (length news) (length olds)) as [Hlt|Hge].
  - destruct (decide (i < c)%nat) as [Hic|Hic].
    + rewrite lookup_app_l by lia. rewrite Hcommon by done.
      repeat case_decide; try lia; done.
    + rewrite lookup_app_r by lia. rewrite Hlen, list_lookup_imap, lookup_drop.
      replace (c + (i - c))%nat with i by lia.
      repeat case_decide; try lia.
      * destruct (lookup_lt_is_Some_2 olds i) as [o ->]; [lia|]. done.
      * rewrite lookup_ge_None_2 by lia. done.
  - destruct (Nat.ltb_spec (length olds) (length news)) as [Hlt|Hge'].
    + destruct (decide (i < c)%nat) as [Hic|Hic].
      * rewrite lookup_app_l by lia. rewrite Hcommon by done.
        repeat case_decide; try lia; done.
      * rewrite lookup_app_r by lia. rewrite Hlen, list_lookup_imap, lookup_drop.
        replace (c + (i - c))%nat with i by lia.
        repeat case_decide; try lia.
        -- destruct (lookup_lt_is_Some_2 news i) as [o ->]; [lia|]. done.
        -- rewrite lookup_ge_None_2 by lia. done.
    + destruct (decide (i < c)%nat) as [Hic|Hic].
      * rewrite Hcommon by done. repeat case_decide; try lia; done.
      * rewrite lookup_ge_None_2 by lia. repeat case_decide; try lia; done.
Qed.

(** X5.  Patching array children to no children throws: that branch calls
    [unmountChildren(newChildren)] with the next children, which are [null],
    instead of with the previous ones.  So the previous children are never
    unmounted. *)
Theorem patchChildren_array_to_none_throws type props l type' props' :
  patchChildren (h type props (ChArray l)) (h type' props' ChNull) = Throw TypeError.
Proof. destruct type, type'; reflexivity. Qed.

(** X6.  [patchChildren] when the next children are a text.  Previous array
    children are unmounted, each once and in order, and then the text is
    set; a previous text is overwritten unless it is the same string, in
    which case nothing at all is done; with no previous children the text is
    set.  Number children that are safe integers count as their decimal
    digits. *)
Theorem patchChildren_to_text type props type' props' (s : string) :
  (forall l, patchChildren (h type props (ChArray l)) (h type' props' (ChText s))
             = Ok (unmountChildren 0 l ++ [OSetText s]))
  /\ (forall s0, patchChildren (h type props (ChText s0)) (h type' props' (ChText s))
                 = Ok (if decide (s = s0) then [] else [OSetText s]))
  /\ patchChildren (h type props ChNull) (h type' props' (ChText s)) = Ok [OSetText s]
  /\ (forall n, safe_integer n ->
                patchChildren (h type props (ChNumber n)) (h type' props' (ChText (pretty n)))
                = Ok [])
  /\ (forall n, safe_integer n ->
                patchChildren (h type props (ChText (pretty n))) (h type' props' (ChNumber n))
                = Ok []).
Proof.
  split; [|split; [|split; [|split]]].
  - intros l. destruct type, type'; reflexivity.
  - intros s0. destruct type, type'; unfold patchChildren; cbn -[decide];
      case_bool_decide; case_decide; try done; congruence.
  - destruct type, type'; reflexivity.
  - intros n _. destruct type, type'; unfold patchChildren;
      cbn -[pretty]; by rewrite bool_decide_true.
  - intros n _. destruct type, type'; unfold patchChildren;
      cbn -[pretty]; by rewrite bool_decide_true.
Qed.

(** X7.  [patchChildren] when the previous children are a text or nothing.
    The container's text is set to the empty string first, also when there
    was no text; then next array children are mounted, in order, before the
    anchor handed in, and for no next children nothing more is done. *)
Theorem patchChildren_from_text_or_none type props type' props' :
  (forall s l, patchChildren (h type props (ChText s)) (h type' props' (ChArray l))
               = Ok (OSetText "" :: mountChildren 0 l AParam))
  /\ (forall l, patchChildren (h type props ChNull) (h type' props' (ChArray l))
                = Ok (OSetText "" :: mountChildren 0 l AParam))
  /\ (forall s, patchChildren (h type props (ChText s)) (h type' props' ChNull)
                = Ok [OSetText ""])
  /\ patchChildren (h type props ChNull) (h type' props' ChNull) = Ok [OSetText ""].
Proof. repeat split; intros; destruct type, type'; reflexivity. Qed.




End RendererProofs.

(** ** The host side of the renderer *)

Module DomProofs.
Import Renderer Dom.

(** *** patchProps *)

Section Props.
Variable inherited : string -> value.
Variable enumerate : gmap string value -> list string.

(** [for ... in] visits every own key once, and nothing else. *)
Definition enumerates_own_keys : Prop :=
  forall m : gmap string value,
    NoDup (enumerate m) /\ forall k, k ∈ enumerate m <-> is_Some (m !! k).

Lemma filter_all {A} (P : A -> Prop) `{!forall x, Decision (P x)} (l : list A) :
  Forall P l -> filter P l = l.
Proof.
  induction 1 as [|x l Hx _ IH]; [done|]. by rewrite filter_cons_True, IH.
Qed.




(** X10.  Patching an element with props that have the same entries as the
    previous ones makes no call on the element, when no value is NaN, [null]
    or [undefined]; the two props may or may not be the same object. *)
Theorem patchProps_with_equal_props keys_of get toLowerCase is_boolean
    (same : bool) (props : gmap string value) (el : list dom_call) :
  (forall k, k ∈ enumerate props -> is_Some (props !! k)) ->
  (forall k v, props !! k = Some v -> v ≠ VNaN /\ nullish v = false) ->
  patchProps keys_of get toLowerCase is_boolean inherited enumerate
    same (Some props) (Some props) el = el.
Proof.
  intros Hown Hval. unfold patchProps, patchProps_requests.
  destruct same; [done|]. cbn [from_option]. unfold id.
  assert (forall k, k ∈ enumerate props ->
            strict_eq (prop inherited props k) (prop inherited props k) = true
            /\ nullish (prop inherited props k) = false) as Hk.
  { intros k [v Hv]%Hown. unfold prop. rewrite Hv. simpl.
    destruct (Hval k v Hv) as [Hnan Hnull]. split; [|done].
    destruct v; try done; simpl; by rewrite bool_decide_true. }
  assert (forall (f : string -> list (value * value * string)) l,
            (forall k, k ∈ l -> f k = []) -> l ≫= f = []) as Hnil.
  { intros f l. induction l as [|k l IH]; intros Hf; [done|].
    cbn [mbind list_bind]. rewrite (Hf k) by left. simpl. apply IH.
    intros k' Hk'. apply Hf. by right. }
  rewrite !Hnil; [done|..];
    intros k Hin; destruct (Hk k Hin) as [H1 H2]; rewrite ?H1, ?H2; simpl;
    by try destruct (bool_decide (k = "key"%string)).
Qed.

End Props.

(** Visiting the keys in the order of the map is one way to visit every
    own key once. *)
Lemma enumerates_map_keys :
  enumerates_own_keys (fun m : gmap string value => (map_to_list m).*1).
Proof.
  intros m. split; [apply NoDup_fst_map_to_list|].
  intros k. rewrite list_elem_of_fmap. split.
  - intros ([k' v] & -> & Hin). apply elem_of_map_to_list in Hin. by exists v.
  - intros [v Hv]. exists (k, v). split; [done|]. by apply elem_of_map_to_list.
Qed.


Lemma patchProps_with_equal_props_witness :
  let props : gmap string value :=
    {[ "id"%string := VStr "a"; "class"%string := VStr "big" ]} in
  patchProps (fun _ => []) (fun _ _ => VUndef) id (fun _ _ => false) (fun _ => VUndef)
    (fun m : gmap string value => (map_to_list m).*1) false (Some props) (Some props) []
  = [].
Proof.
  intros props.
  apply (patchProps_with_equal_props (fun _ => VUndef)
           (fun m : gmap string value => (map_to_list m).*1)
           (fun _ => []) (fun _ _ => VUndef) id (fun _ _ => false) false props []).
  - intros k Hk. by apply enumerates_map_keys.
  - change (map_Forall (fun (_ : string) v => v ≠ VNaN /\ nullish v = false) props).
    refine (bool_decide_unpack _ _). vm_compute. exact I.
Defined.

Local Open Scope nat_scope.

(** *** Shapes *)

Lemma shape_induction (P : shape -> Prop) :
  (forall tag kids, Forall P kids -> P (SElement tag kids)) ->
  (forall data, P (SText data)) ->
  forall sh, P sh.
Proof.
  intros Hel Htx. fix IH 1. intros [tag kids|data]; [|apply Htx].
  apply Hel. induction kids as [|k kids IHk]; constructor; [apply IH|apply IHk].
Qed.

Lemma has_shape_element lo hi d parent i tag kids :
  has_shape lo hi d parent i (SElement tag kids)
  <-> lo <= i < hi
      /\ exists n, d !! i = Some n /\ n_parent n = parent /\ n_kind n = KElement tag
         /\ Forall2 (has_shape lo hi d (Some i)) (n_children n) kids.
Proof.
  cbn [has_shape].
  assert (forall ids,
            (fix all (ids : list nat) (kids : list shape) {struct kids} : Prop :=
               match kids, ids with
               | [], [] => True
               | k :: kids', j :: ids' => has_shape lo hi d (Some i) j k /\ all ids' kids'
               | _, _ => False
               end) ids kids
            <-> Forall2 (has_shape lo hi d (Some i)) ids kids) as Hall.
  { induction kids as [|k kids IH]; intros [|j ids]; split; try done.
    - intros H. inversion H.
    - intros H. inversion H.
    - intros [Hk Hr]. constructor; [done|]. by apply IH.
    - intros H. inversion H; subst. split; [done|]. by apply IH. }
  split.
  - intros [Hi (n & Hn & Hp & Hk & Hkids)]. split; [done|]. exists n.
    repeat split; try done. by apply Hall.
  - intros [Hi (n & Hn & Hp & Hk & Hkids)]. split; [done|]. exists n.
    repeat split; try done. by apply Hall.
Qed.

Lemma has_shape_text lo hi d parent i data :
  has_shape lo hi d parent i (SText data)
  <-> lo <= i < hi
      /\ exists n, d !! i = Some n /\ n_parent n = parent /\ n_kind n = KText
         /\ n_data n = data /\ n_children n = [].
Proof. done. Qed.

Lemma has_shape_range lo hi d parent i sh : has_shape lo hi d parent i sh -> lo <= i < hi.
Proof. destruct sh; by intros [? _]. Qed.

Lemma has_shape_parent lo hi d parent i sh :
  has_shape lo hi d parent i sh -> parentNode d i = parent.
Proof.
  unfold parentNode. destruct sh; intros [_ (n & -> & Hp & _)]; done.
Qed.

(** A tree is not touched by what happens to the nodes outside it. *)
Lemma has_shape_frame sh : forall lo hi lo' hi' d d' parent i,
  has_shape lo hi d parent i sh ->
  lo' <= lo -> hi <= hi' ->
  (forall j, lo <= j < hi -> d' !! j = d !! j) ->
  has_shape lo' hi' d' parent i sh.
Proof.
  induction sh as [tag kids IH|data] using shape_induction;
    intros lo hi lo' hi' d d' parent i Hsh Hlo Hhi Hsame.
  - apply has_shape_element in Hsh as [Hi (n & Hn & Hp & Hk & Hkids)].
    apply has_shape_element. split; [lia|]. exists n.
    rewrite Hsame by done. repeat split; try done.
    revert Hkids. generalize (n_children n). intros ids Hkids.
    induction Hkids as [|j k ids kids Hj Hrest IHrest]; [constructor|].
    apply Forall_cons in IH as [IHk IH]. constructor; [|by apply IHrest].
    by eapply IHk.
  - apply has_shape_text in Hsh as [Hi (n & Hn & Hrest)].
    apply has_shape_text. split; [lia|]. exists n. by rewrite Hsame.
Qed.

(** *** Vnodes *)

Lemma built_array type props l shapeFlag key :
  built (VNode type props (ChArray l) shapeFlag key) -> Forall built l.
Proof.
  intros (_ & _ & Hall). induction l as [|c l IH]; [constructor|].
  destruct Hall as [Hc Hall]. constructor; [done|by apply IH].
Qed.

Lemma height_array type props l shapeFlag key n :
  height (VNode type props (ChArray l) shapeFlag key) <= S n ->
  Forall (fun c => height c <= n) l.
Proof.
  cbn [height]. intros H. apply le_S_n in H. revert H.
  induction l as [|c l IH]; [constructor|]. intros H.
  constructor; [lia|]. apply IH. lia.
Qed.

Lemma height_pos v : 1 <= height v.
Proof. destruct v as [? ? [] ? ?]; simpl; lia. Qed.

Lemma dom_of_element tag props l shapeFlag key :
  dom_of (VNode (TTag tag) props (ChArray l) shapeFlag key) = [SElement tag (l ≫= dom_of)].
Proof.
  reflexivity.
Qed.

Lemma dom_of_fragment props l shapeFlag key :
  dom_of (VNode TFragment props (ChArray l) shapeFlag key)
  = SText "" :: (l ≫= dom_of) ++ [SText ""].
Proof.
  reflexivity.
Qed.

(** *** The host's operations *)

Lemma put_before_split x anchor before after :
  anchor_at_split anchor before after ->
  put_before x anchor (before ++ after) = before ++ x :: after.
Proof.
  intros Hsplit. induction before as [|y before IH].
  - destruct anchor as [a|]; simpl in *.
    + destruct Hsplit as [Hhead _]. destruct after as [|a' after]; [done|].
      injection Hhead as ->. simpl. by rewrite bool_decide_true.
    + by subst after.
  - simpl. destruct anchor as [a|].
    + destruct Hsplit as [Hhead Hnot]. rewrite bool_decide_false.
      * rewrite IH; [done|]. split; [done|]. intros ?. apply Hnot. by right.
      * intros [= ->]. apply Hnot. by left.
    + rewrite bool_decide_false by done. by rewrite IH.
Qed.

Lemma ancestors_frame d d' c :
  (forall i, i < length d -> i ≠ c -> d' !! i = d !! i) ->
  parentNode d' c = parentNode d c ->
  forall fuel j,
    (forall x, x ∈ ancestors fuel d j -> x < length d) ->
    ancestors fuel d' j = ancestors fuel d j.
Proof.
  intros Hframe Hc. induction fuel as [|fuel IH]; intros j Hj; [done|].
  cbn [ancestors] in *.
  assert (parentNode d' j = parentNode d j) as ->.
  { destruct (decide (j = c)) as [->|Hne]; [done|].
    unfold parentNode. rewrite Hframe; [done| |done]. apply Hj. by left. }
  f_equal. destruct (parentNode d j) as [p|]; [|done].
  apply IH. intros x Hx. apply Hj. by right.
Qed.

(** A node without parent that is put into a container. *)
Lemma insertBefore_new d c cn x xn anchor before after :
  d !! c = Some cn -> is_text cn = false ->
  n_children cn = before ++ after ->
  anchor_at_split anchor before after ->
  d !! x = Some xn -> n_parent xn = None ->
  x ∉ before ++ after ->
  x ∉ ancestors (S (length d)) d c ->
  exists d',
    insertBefore c x anchor d = Ok d'
    /\ length d' = length d
    /\ d' !! c = Some (with_children (before ++ x :: after) cn)
    /\ d' !! x = Some (with_parent (Some c) xn)
    /\ forall i, i ≠ c -> i ≠ x -> d' !! i = d !! i.
Proof.
  intros Hc Htext Hkids Hsplit Hx Hpar Hnew Hanc.
  assert (x ≠ c) as Hxc.
  { intros ->. apply Hanc. cbn [ancestors]. by left. }
  unfold insertBefore. rewrite Hc, Htext.
  rewrite bool_decide_false by done.
  assert (match anchor with
          | Some a' => bool_decide (a' ∈ n_children cn)
          | None => true
          end = true) as ->.
  { destruct anchor as [a|]; [|done]. destruct Hsplit as [Hhead _].
    apply bool_decide_eq_true. rewrite Hkids. apply elem_of_app. right.
    destruct after as [|a' after]; [done|]. injection Hhead as ->. by left. }
  assert (bool_decide (anchor = Some x) = false) as ->.
  { apply bool_decide_eq_false. intros ->. destruct Hsplit as [Hhead _].
    apply Hnew, elem_of_app. right.
    destruct after as [|a' after]; [done|]. injection Hhead as ->. by left. }
  assert (detach x d = d) as ->.
  { unfold detach, parentNode. by rewrite Hx; simpl; rewrite Hpar. }
  eexists. split; [reflexivity|].
  rewrite !length_alter. split; [done|]. split; [|split].
  - rewrite list_lookup_alter_ne by done. rewrite list_lookup_alter_eq, Hc. simpl.
    unfold with_children. simpl. rewrite Hkids. by rewrite put_before_split.
  - rewrite list_lookup_alter_eq. rewrite list_lookup_alter_ne by done. by rewrite Hx.
  - intros i Hic Hix. by rewrite !list_lookup_alter_ne by done.
Qed.

(** *** Mounting, step by step *)

Lemma mounts_ids_new c cn before after d d' ids shapes :
  mounts c cn before after d d' ids shapes ->
  Forall (fun x => length d <= x < length d') ids.
Proof.
  intros H. apply Forall_forall. intros x Hx.
  apply list_elem_of_lookup in Hx as [k Hk].
  destruct (Forall2_lookup_l _ _ _ _ _ (mp_shapes _ _ _ _ _ _ _ _ H) Hk) as (sh & _ & Hsh).
  by apply has_shape_range in Hsh.
Qed.

Lemma mounts_nil c cn before after anchor d :
  mount_point c cn before after anchor d -> mounts c cn before after d d [] [].
Proof.
  intros H. split; try done.
  - rewrite (mt_container _ _ _ _ _ _ H). f_equal. destruct cn. unfold with_children. simpl.
    f_equal. apply (mt_children _ _ _ _ _ _ H).
  - constructor.
Qed.

Lemma mount_point_lt c cn before after anchor d :
  mount_point c cn before after anchor d -> c < length d.
Proof. intros H. eapply lookup_lt_Some, (mt_container _ _ _ _ _ _ H). Qed.

(** Where the next nodes go when some have been mounted. *)
Lemma mount_point_next c cn before after anchor d d' ids shapes :
  mount_point c cn before after anchor d ->
  mounts c cn before after d d' ids shapes ->
  mount_point c (with_children (before ++ ids ++ after) cn) (before ++ ids) after anchor d'.
Proof.
  intros Hp Hm. pose proof (mounts_ids_new _ _ _ _ _ _ _ _ Hm) as Hnew.
  pose proof (mount_point_lt _ _ _ _ _ _ Hp) as Hc.
  assert (Forall (fun x => x < length d) (before ++ after)) as Hold
    by apply (mt_exist _ _ _ _ _ _ Hp).
  split.
  - apply (mp_container _ _ _ _ _ _ _ _ Hm).
  - apply (mt_element _ _ _ _ _ _ Hp).
  - simpl. by rewrite <- app_assoc.
  - pose proof (mt_anchor _ _ _ _ _ _ Hp) as Ha. destruct anchor as [a|]; [|done].
    destruct Ha as [Hhead Hnot]. split; [done|].
    intros [?|Hin]%elem_of_app; [done|].
    rewrite Forall_forall in Hnew. apply Hnew in Hin.
    rewrite Forall_forall in Hold. specialize (Hold a).
    destruct after as [|a' after]; [done|]. injection Hhead as ->.
    assert (a < length d) by (apply Hold, elem_of_app; right; by left). lia.
  - pose proof (mp_len _ _ _ _ _ _ _ _ Hm).
    rewrite <- app_assoc. apply Forall_app in Hold as [Hb Ha].
    apply Forall_app. split; [|apply Forall_app; split].
    + eapply Forall_impl; [exact Hb|]. simpl. intros; lia.
    + eapply Forall_impl; [exact Hnew|]. simpl. intros; lia.
    + eapply Forall_impl; [exact Ha|]. simpl. intros; lia.
  - pose proof (mt_nodup _ _ _ _ _ _ Hp) as Hnd.
    apply NoDup_app in Hnd as (Hb & Hba & Ha).
    rewrite Forall_forall in Hnew. rewrite Forall_forall in Hold.
    apply NoDup_app. split; [|split; [|done]].
    + apply NoDup_app. split; [done|]. split; [|apply (mp_nodup _ _ _ _ _ _ _ _ Hm)].
      intros x Hx Hx'. apply Hnew in Hx'.
      assert (x < length d) by (apply Hold, elem_of_app; by left). lia.
    + intros x [Hx|Hx]%elem_of_app; [by apply Hba|].
      intros Hx'. apply Hnew in Hx.
      assert (x < length d) by (apply Hold, elem_of_app; by right). lia.
  - intros fuel j Hj.
    rewrite (ancestors_frame d d' c) in Hj.
    + pose proof (mp_len _ _ _ _ _ _ _ _ Hm).
      apply (mt_above _ _ _ _ _ _ Hp) in Hj. lia.
    + apply (mp_frame _ _ _ _ _ _ _ _ Hm).
    + unfold parentNode. rewrite (mp_container _ _ _ _ _ _ _ _ Hm).
      by rewrite (mt_container _ _ _ _ _ _ Hp).
    + intros x Hx. by apply (mt_above _ _ _ _ _ _ Hp) in Hx.
Qed.

(** One mounting after another. *)
Lemma mounts_app c cn before after d d1 d2 ids1 ids2 shapes1 shapes2 :
  c < length d ->
  mounts c cn before after d d1 ids1 shapes1 ->
  mounts c (with_children (before ++ ids1 ++ after) cn) (before ++ ids1) after
         d1 d2 ids2 shapes2 ->
  mounts c cn before after d d2 (ids1 ++ ids2) (shapes1 ++ shapes2).
Proof.
  intros Hc H1 H2.
  pose proof (mp_len _ _ _ _ _ _ _ _ H1). pose proof (mp_len _ _ _ _ _ _ _ _ H2).
  split.
  - lia.
  - intros i Hi Hic. rewrite (mp_frame _ _ _ _ _ _ _ _ H2) by (done || lia).
    by apply (mp_frame _ _ _ _ _ _ _ _ H1).
  - rewrite (mp_container _ _ _ _ _ _ _ _ H2). f_equal. unfold with_children. simpl.
    f_equal. by rewrite <- !app_assoc.
  - apply Forall2_app.
    + eapply Forall2_impl; [apply (mp_shapes _ _ _ _ _ _ _ _ H1)|].
      intros j sh Hsh. eapply has_shape_frame; [exact Hsh|lia|lia|].
      intros k Hk. apply (mp_frame _ _ _ _ _ _ _ _ H2); lia.
    + eapply Forall2_impl; [apply (mp_shapes _ _ _ _ _ _ _ _ H2)|].
      intros j sh Hsh. eapply has_shape_frame; [exact Hsh|lia|lia|done].
  - apply NoDup_app. split; [apply (mp_nodup _ _ _ _ _ _ _ _ H1)|].
    split; [|apply (mp_nodup _ _ _ _ _ _ _ _ H2)].
    intros x Hx1 Hx2.
    pose proof (mounts_ids_new _ _ _ _ _ _ _ _ H1) as Hn1.
    pose proof (mounts_ids_new _ _ _ _ _ _ _ _ H2) as Hn2.
    rewrite Forall_forall in Hn1. rewrite Forall_forall in Hn2.
    apply Hn1 in Hx1. apply Hn2 in Hx2. lia.
Qed.

(** A new node without parent, put at a mount point. *)
Lemma insert_mounts c cn before after anchor d0 d x xn sh :
  mount_point c cn before after anchor d0 ->
  length d0 <= length d ->
  (forall i, i < length d0 -> d !! i = d0 !! i) ->
  length d0 <= x ->
  d !! x = Some xn -> n_parent xn = None ->
  (forall d', length d' = length d ->
     d' !! x = Some (with_parent (Some c) xn) ->
     (forall i, i ≠ c -> i ≠ x -> d' !! i = d !! i) ->
     has_shape (length d0) (length d) d' (Some c) x sh) ->
  exists d',
    insertBefore c x anchor d = Ok d'
    /\ mounts c cn before after d0 d' [x] [sh].
Proof.
  intros Hp Hlen Hframe Hx Hxn Hpar Hshape.
  pose proof (mount_point_lt _ _ _ _ _ _ Hp) as Hc.
  destruct (insertBefore_new d c cn x xn anchor before after)
    as (d' & Hins & Hlen' & Hc' & Hx' & Hrest); try done; try apply Hp.
  - rewrite Hframe by done. apply Hp.
  - pose proof (mt_exist _ _ _ _ _ _ Hp) as Hold.
    rewrite Forall_forall in Hold. intros Hin. apply Hold in Hin. lia.
  - rewrite (ancestors_frame d0 d c).
    + intros Hin. apply (mt_above _ _ _ _ _ _ Hp) in Hin. lia.
    + intros i Hi _. by apply Hframe.
    + unfold parentNode. by rewrite Hframe.
    + intros j Hj. by apply (mt_above _ _ _ _ _ _ Hp) in Hj.
  - exists d'. split; [done|]. split.
    + lia.
    + intros i Hi Hic. rewrite Hrest by (done || lia). by apply Hframe.
    + by rewrite Hc'.
    + constructor; [|constructor]. rewrite Hlen'. by apply Hshape.
    + apply NoDup_singleton.
Qed.

(** An element that has its children, put at a mount point. *)
Lemma element_mounts c cn before after anchor d0 d n_el tag kid_ids kid_shapes :
  mount_point c cn before after anchor d0 ->
  length d0 < length d ->
  (forall i, i < length d0 -> d !! i = d0 !! i) ->
  d !! length d0 = Some n_el ->
  n_kind n_el = KElement tag -> n_parent n_el = None -> n_children n_el = kid_ids ->
  Forall2 (has_shape (S (length d0)) (length d) d (Some (length d0))) kid_ids kid_shapes ->
  exists d',
    insertBefore c (length d0) anchor d = Ok d'
    /\ mounts c cn before after d0 d' [length d0] [SElement tag kid_shapes].
Proof.
  intros Hp Hlen Hframe Hel Hkind Hpar Hkids Hshapes.
  pose proof (mount_point_lt _ _ _ _ _ _ Hp) as Hc.
  apply (insert_mounts c cn before after anchor d0 d (length d0) n_el); try done; try lia.
  intros d' Hlen' Hel' Hrest. apply has_shape_element. split; [lia|].
  eexists. split; [exact Hel'|]. split; [done|]. split; [done|]. simpl. rewrite Hkids.
  eapply Forall2_impl; [exact Hshapes|]. intros j sh Hsh.
  eapply has_shape_frame; [exact Hsh|lia|lia|].
  intros k Hk. apply Hrest; lia.
Qed.

(** [el.textContent = s] for an element without children. *)
Lemma text_child_mounts el n d s :
  d !! el = Some n -> is_text n = false -> n_children n = [] ->
  exists ids,
    mounts el n [] [] d (set_textContent el s d) ids
      (if bool_decide (s = ""%string) then [] else [SText s]).
Proof.
  intros Hel Htext Hkids. unfold set_textContent. rewrite Hel.
  unfold is_text in Htext. destruct (n_kind n) as [tag|] eqn:Hkind; [|done].
  rewrite Hkids. cbn [foldr].
  pose proof (lookup_lt_Some _ _ _ Hel) as Hlt.
  case_bool_decide as Hs.
  - exists []. split.
    + by rewrite length_alter.
    + intros i Hi Hne. by rewrite list_lookup_alter_ne.
    + rewrite list_lookup_alter_eq, Hel. done.
    + constructor.
    + constructor.
  - exists [length d]. cbn [createTextNode]. split.
    + rewrite !length_alter, length_app. simpl. lia.
    + intros i Hi Hne. rewrite !list_lookup_alter_ne by (done || lia).
      by rewrite lookup_app_l.
    + rewrite list_lookup_alter_ne by lia. rewrite list_lookup_alter_eq.
      rewrite lookup_app_l by done. by rewrite Hel.
    + constructor; [|constructor]. apply has_shape_text.
      rewrite !length_alter, length_app. simpl. split; [lia|].
      eexists. split.
      * rewrite list_lookup_alter_eq. rewrite list_lookup_alter_ne by lia.
        rewrite list_lookup_middle by done. reflexivity.
      * done.
    + apply NoDup_singleton.
Qed.

Lemma mountTextNode_mounts props kids shapeFlag key c cn before after anchor d :
  let v := VNode TText props kids shapeFlag key in
  mount_point c cn before after anchor d ->
  exists m d' ids,
    mountTextNode v c anchor d = Ok (m, d')
    /\ mounts c cn before after d d' ids (dom_of v)
    /\ mounted_as v m ids.
Proof.
  intros v Hp. unfold mountTextNode. cbn [createTextNode vn_children v].
  set (tn := Node KText (text_of kids) [] None []).
  destruct (insert_mounts c cn before after anchor d (d ++ [tn]) (length d) tn
              (SText (text_of kids)))
    as (d' & Hins & Hm); try done.
  - rewrite length_app. lia.
  - intros i Hi. by rewrite lookup_app_l.
  - by rewrite list_lookup_middle.
  - intros d' Hlen Hx _. apply has_shape_text. rewrite length_app. simpl.
    split; [lia|]. eexists. split; [exact Hx|]. done.
  - rewrite Hins. cbn [mbind result_bind]. eexists _, d', [length d].
    split; [reflexivity|]. split; [|done].
    by destruct kids.
Qed.

(** The ancestors of a mount point are those it had, whatever was added
    around it. *)
Lemma mount_point_above c cn before after anchor d0 d :
  mount_point c cn before after anchor d0 ->
  (forall i, i < length d0 -> i ≠ c -> d !! i = d0 !! i) ->
  parentNode d c = parentNode d0 c ->
  forall fuel j, j ∈ ancestors fuel d c -> j < length d0.
Proof.
  intros Hp Hframe Hpar fuel j Hj. rewrite (ancestors_frame d0 d c) in Hj; try done.
  - by apply (mt_above _ _ _ _ _ _ Hp) in Hj.
  - intros x Hx. by apply (mt_above _ _ _ _ _ _ Hp) in Hx.
Qed.

(** *** Unmounting *)

Lemma following_split x before after :
  x ∉ before -> following x (before ++ x :: after) = head after.
Proof.
  intros Hx. induction before as [|y before IH]; simpl.
  - by rewrite bool_decide_true.
  - rewrite bool_decide_false.
    + apply IH. intros ?. apply Hx. by right.
    + intros ->. apply Hx. by left.
Qed.

Lemma filter_out (x : nat) before after :
  x ∉ before -> x ∉ after ->
  filter (fun y => y ≠ x) (before ++ x :: after) = before ++ after.
Proof.
  intros Hb Ha. rewrite filter_app, filter_cons_False by (intros H; by apply H).
  rewrite !filter_all; [done| |]; apply Forall_forall; by intros y Hy ->.
Qed.

Lemma nextSibling_split d c n x before after :
  d !! c = Some n -> n_children n = before ++ x :: after ->
  x ∉ before -> parentNode d x = Some c ->
  nextSibling d x = head after.
Proof.
  intros Hc Hkids Hx Hpar. unfold nextSibling. rewrite Hpar. simpl. rewrite Hc. simpl.
  rewrite Hkids. by apply following_split.
Qed.

Lemma remove_child d c n x before after :
  d !! c = Some n -> n_children n = before ++ x :: after ->
  x ∉ before -> x ∉ after -> parentNode d x = Some c -> x ≠ c ->
  exists d',
    remove x d = Ok d'
    /\ length d' = length d
    /\ d' !! c = Some (with_children (before ++ after) n)
    /\ parentNode d' x = None
    /\ forall i, i ≠ c -> i ≠ x -> d' !! i = d !! i.
Proof.
  intros Hc Hkids Hb Ha Hpar Hxc. unfold remove, detach. rewrite Hpar.
  eexists. split; [reflexivity|]. rewrite !length_alter. split; [done|].
  split; [|split].
  - rewrite list_lookup_alter_ne by done. rewrite list_lookup_alter_eq, Hc. simpl.
    by rewrite Hkids, filter_out.
  - unfold parentNode in *. rewrite list_lookup_alter_eq.
    rewrite list_lookup_alter_ne by done.
    destruct (d !! x) as [xn|]; [|done]. done.
  - intros i Hic Hix. by rewrite !list_lookup_alter_ne by done.
Qed.

Lemma with_children_same n : with_children (n_children n) n = n.
Proof. by destruct n. Qed.

Lemma with_children_twice l l' n : with_children l (with_children l' n) = with_children l n.
Proof. done. Qed.

(** The loop of [unmountFragment] takes the nodes before the end anchor
    out of the container, one by one. *)
Lemma unmountFragment_loop_removes c e before after : forall mid d n fuel,
  d !! c = Some n ->
  n_children n = before ++ (mid ++ [e]) ++ after ->
  NoDup (before ++ (mid ++ [e]) ++ after) ->
  (forall y, y ∈ mid ++ [e] -> parentNode d y = Some c /\ y ≠ c) ->
  length mid <= fuel ->
  exists d',
    unmountFragment_loop fuel (head (mid ++ [e])) (Some e) d = Ok d'
    /\ length d' = length d
    /\ d' !! c = Some (with_children (before ++ [e] ++ after) n)
    /\ parentNode d' e = Some c
    /\ forall i, i ≠ c -> i ∉ mid -> d' !! i = d !! i.
Proof.
  induction mid as [|x mid IH]; intros d n fuel Hc Hkids Hnd Hpar Hfuel.
  - exists d. simpl. destruct fuel; simpl; rewrite bool_decide_true by done.
    all: split; [done|]; split; [done|];
      split; [rewrite Hc; f_equal; destruct n; unfold with_children; simpl in *; congruence|];
      split; [apply Hpar; by left|done].
  - destruct fuel as [|fuel]; [simpl in Hfuel; lia|].
    cbn [app head unmountFragment_loop].
    assert (x ≠ e) as Hxe.
    { intros ->. apply NoDup_app in Hnd as (_ & _ & Hnd).
      apply NoDup_app in Hnd as (Hnd & _ & _). simpl in Hnd.
      apply NoDup_cons in Hnd as [Hnot _]. apply Hnot.
      apply elem_of_app. right. by left. }
    rewrite bool_decide_false by congruence.
    assert ((x ∉ before) /\ (x ∉ (mid ++ [e]) ++ after)) as [Hxb Hxa].
    { apply NoDup_app in Hnd as (_ & Hdisj & Hnd). simpl in Hnd.
      apply NoDup_cons in Hnd as [Hnot _]. split; [|done].
      intros Hin. apply (Hdisj x Hin). by left. }
    destruct (Hpar x) as [Hpx Hxc]; [by left|].
    rewrite (nextSibling_split d c n x before ((mid ++ [e]) ++ after)); try done.
    destruct (remove_child d c n x before ((mid ++ [e]) ++ after))
      as (d1 & -> & Hlen1 & Hc1 & _ & Hrest1); try done.
    cbn [mbind result_bind].
    assert (head ((mid ++ [e]) ++ after) = head (mid ++ [e])) as -> by (by destruct mid).
    destruct (IH d1 (with_children (before ++ (mid ++ [e]) ++ after) n) fuel)
      as (d' & Hloop & Hlen' & Hc' & Hpe & Hrest'); try done.
    + apply NoDup_app in Hnd as (Hb & Hdisj & Hnd). simpl in Hnd.
      apply NoDup_cons in Hnd as [_ Hnd]. apply NoDup_app. split; [done|]. split; [|done].
      intros y Hy Hy'. apply (Hdisj y Hy). by right.
    + intros y Hy. destruct (Hpar y) as [Hpy Hyc]; [by right|]. split; [|done].
      unfold parentNode. rewrite Hrest1; [done|done|].
      intros ->. apply Hxa. apply elem_of_app. by left.
    + simpl in Hfuel. lia.
    + exists d'. split; [done|]. split; [lia|]. split; [by rewrite Hc'|].
      split; [done|]. intros i Hic Hi. rewrite Hrest' by (done || (intros ?; apply Hi; by right)).
      apply Hrest1; [done|]. intros ->. apply Hi. by left.
Qed.

Lemma NoDup_bounded (l : list nat) (n : nat) :
  NoDup l -> Forall (fun x => x < n) l -> length l <= n.
Proof.
  intros Hnd Hlt. transitivity (length (seq 0 n)); [|by rewrite length_seq].
  apply submseteq_length.
  apply NoDup_submseteq; [done|]. intros x Hx. rewrite Forall_forall in Hlt.
  apply elem_of_seq. specialize (Hlt x Hx). lia.
Qed.

Lemma anchor_at_split_head anchor before after :
  anchor_at_split anchor before after -> head after = anchor.
Proof. destruct anchor; [by intros [? _]|by intros ->]. Qed.

(** The two empty text nodes of a Fragment, put at a mount point: the
    children of the Fragment go between them. *)
Lemma fragment_anchors_inserted c cn before after anchor d :
  mount_point c cn before after anchor d ->
  let tn := Node KText "" [] None [] in
  let s := length d in
  let e := s + 1 in
  exists d3 d4,
    insertBefore c s anchor ((d ++ [tn]) ++ [tn]) = Ok d3
    /\ insertBefore c e anchor d3 = Ok d4
    /\ length d4 = length d + 2
    /\ d4 !! s = Some (with_parent (Some c) tn)
    /\ d4 !! e = Some (with_parent (Some c) tn)
    /\ (forall i, i < length d -> i ≠ c -> d4 !! i = d !! i)
    /\ mount_point c
         (with_children ((before ++ [s]) ++ e :: after)
            (with_children (before ++ s :: after) cn))
         (before ++ [s]) (e :: after) (Some e) d4.
Proof.
  intros Hp tn s e.
  pose proof (mount_point_lt _ _ _ _ _ _ Hp) as Hc.
  pose proof (mt_exist _ _ _ _ _ _ Hp) as Hold. rewrite Forall_forall in Hold.
  pose proof (mt_anchor _ _ _ _ _ _ Hp) as Hanchor.
  set (d2 := (d ++ [tn]) ++ [tn]).
  assert (length d2 = length d + 2) as Hlen2.
  { unfold d2. rewrite !length_app. simpl. lia. }
  assert (forall i, i < length d -> d2 !! i = d !! i) as Hframe2.
  { intros i Hi. unfold d2. rewrite lookup_app_l by (rewrite length_app; simpl; lia).
    by rewrite lookup_app_l. }
  assert (d2 !! s = Some tn) as Hs2.
  { unfold d2. rewrite lookup_app_l by (rewrite length_app; simpl; unfold s; lia).
    by rewrite list_lookup_middle. }
  assert (d2 !! e = Some tn) as He2.
  { unfold d2. rewrite list_lookup_middle; [done|]. rewrite length_app. simpl. unfold e. lia. }
  (* the start anchor *)
  destruct (insertBefore_new d2 c cn s tn anchor before after)
    as (d3 & Hins3 & Hlen3 & Hc3 & Hs3 & Hrest3); try done; try apply Hp.
  { rewrite Hframe2 by done. apply Hp. }
  { intros Hin. apply Hold in Hin. unfold s in Hin. lia. }
  { intros Hin. apply (mount_point_above c cn before after anchor d d2) in Hin; try done.
    - unfold s in Hin. lia.
    - intros i Hi _. by apply Hframe2.
    - unfold parentNode. by rewrite Hframe2. }
  (* the end anchor *)
  assert (anchor_at_split anchor (before ++ [s]) after) as Hanchor3.
  { destruct anchor as [a|]; [|done]. destruct Hanchor as [Hhead Hnot]. split; [done|].
    intros [?|Hin]%elem_of_app; [done|]. apply list_elem_of_singleton in Hin as ->.
    destruct after as [|a' after]; [done|]. injection Hhead as ->.
    assert (s < length d) by (apply Hold, elem_of_app; right; by left). unfold s in *. lia. }
  destruct (insertBefore_new d3 c (with_children (before ++ s :: after) cn) e tn anchor
              (before ++ [s]) after)
    as (d4 & Hins4 & Hlen4 & Hc4 & He4 & Hrest4); try done.
  { apply Hp. }
  { simpl. by rewrite <- app_assoc. }
  { rewrite Hrest3; [done| |]; unfold e, s; lia. }
  { rewrite <- app_assoc. simpl. intros [Hin|Hin]%elem_of_app.
    - assert (e < length d) by (apply Hold, elem_of_app; by left). unfold e in *. lia.
    - apply elem_of_cons in Hin as [Hin|Hin]; [unfold e, s in Hin; lia|].
      assert (e < length d) by (apply Hold, elem_of_app; by right). unfold e in *. lia. }
  { intros Hin. apply (mount_point_above c cn before after anchor d d3) in Hin; try done.
    - unfold e in Hin. lia.
    - intros i Hi Hic. rewrite Hrest3 by (done || unfold s; lia). by apply Hframe2.
    - unfold parentNode. rewrite Hc3. simpl. by rewrite (mt_container _ _ _ _ _ _ Hp). }
  set (cn4 := with_children ((before ++ [s]) ++ e :: after)
                (with_children (before ++ s :: after) cn)) in *.
  assert (mount_point c cn4 (before ++ [s]) (e :: after) (Some e) d4) as Hp4.
  { split.
    - done.
    - apply Hp.
    - done.
    - split; [done|]. intros [Hin|Hin]%elem_of_app.
      + assert (e < length d) by (apply Hold, elem_of_app; by left). unfold e in *. lia.
      + apply list_elem_of_singleton in Hin. unfold e, s in Hin. lia.
    - rewrite Hlen4, Hlen3, Hlen2. apply Forall_forall. intros x Hx.
      rewrite <- app_assoc in Hx. simpl in Hx.
      apply elem_of_app in Hx as [Hx|Hx].
      + assert (x < length d) by (apply Hold, elem_of_app; by left). lia.
      + apply elem_of_cons in Hx as [->|Hx]; [unfold s; lia|].
        apply elem_of_cons in Hx as [->|Hx]; [unfold e; lia|].
        assert (x < length d) by (apply Hold, elem_of_app; by right). lia.
    - pose proof (mt_nodup _ _ _ _ _ _ Hp) as Hnd.
      apply NoDup_app in Hnd as (Hb1 & Hba & Ha1).
      rewrite <- app_assoc. simpl. apply NoDup_app. split; [done|]. split.
      + intros x Hx Hx'. apply elem_of_cons in Hx' as [->|Hx'].
        { assert (s < length d) by (apply Hold, elem_of_app; by left). unfold s in *. lia. }
        apply elem_of_cons in Hx' as [->|Hx'].
        { assert (e < length d) by (apply Hold, elem_of_app; by left). unfold e in *. lia. }
        by apply (Hba x).
      + apply NoDup_cons. split.
        { intros Hx. apply elem_of_cons in Hx as [Hx|Hx]; [unfold e, s in Hx; lia|].
          assert (s < length d) by (apply Hold, elem_of_app; by right). unfold s in *. lia. }
        apply NoDup_cons. split; [|done].
        intros Hx. assert (e < length d) by (apply Hold, elem_of_app; by right).
        unfold e in *. lia.
    - intros f j Hj.
      apply (mount_point_above c cn before after anchor d d4) in Hj; try done.
      + lia.
      + intros i Hi Hic. rewrite Hrest4 by (done || unfold e; lia).
        rewrite Hrest3 by (done || unfold s; lia). by apply Hframe2.
      + unfold parentNode. rewrite Hc4. simpl. by rewrite (mt_container _ _ _ _ _ _ Hp). }
  exists d3, d4. split; [done|]. split; [done|]. split; [lia|].
  split; [rewrite Hrest4 by (unfold s, e; lia); done|]. split; [done|]. split; [|done].
  intros i Hi Hic. rewrite Hrest4 by (done || unfold e; lia).
  rewrite Hrest3 by (done || unfold s; lia). by apply Hframe2.
Qed.

Section Mount.
Variable keys_of : value -> list string.
Variable get : value -> string -> value.
Variable toLowerCase : string -> string.
Variable is_boolean : list dom_call -> string -> bool.
Variable inherited : string -> value.
Variable enumerate : gmap string value -> list string.
Variable host_call : dom_call -> nat -> list node -> result (list node).
Variable mountComponent : vnode -> nat -> option nat -> list node -> result (mounted * list node).
Variable updateComponent : mounted -> vnode -> list node -> result (mounted * list node).
Variable unmountComponent : mounted -> list node -> result (list node).
Variable patchElement : mounted -> vnode -> list node -> result (mounted * list node).
Variable patchFragment : mounted -> vnode -> nat -> list node -> result (mounted * list node).

(** [for ... in] visits own keys only: a props object inherits nothing
    that can be enumerated. *)
Hypothesis enumerate_own : forall m k, k ∈ enumerate m -> is_Some (m !! k).

#[warnings="-notation-for-abbreviation"]
Local Notation patch_ :=
  (patch keys_of get toLowerCase is_boolean inherited enumerate host_call
         mountComponent updateComponent unmountComponent patchElement patchFragment).
#[warnings="-notation-for-abbreviation"]
Local Notation mountProps_ :=
  (mountProps keys_of get toLowerCase is_boolean inherited enumerate host_call).

Lemma bind_nil {A B} (f : A -> list B) (l : list A) :
  (forall x, x ∈ l -> f x = []) -> l ≫= f = [].
Proof.
  induction l as [|x l IH]; intros Hf; [done|].
  cbn [mbind list_bind]. rewrite (Hf x) by left. simpl. apply IH.
  intros y Hy. apply Hf. by right.
Qed.

(** Props without a key other than [key] lead to no call of the host. *)
Lemma patchProps_only_key props calls :
  only_key props ->
  patchProps keys_of get toLowerCase is_boolean inherited enumerate false None props calls
  = calls.
Proof.
  intros Hprops. unfold patchProps, patchProps_requests.
  destruct props as [p|]; [|done]. cbn [default from_option id].
  rewrite !bind_nil; [done|..].
  - intros k [v Hv]%enumerate_own. by rewrite lookup_empty in Hv.
  - intros k Hk%enumerate_own. by rewrite (Hprops k Hk), bool_decide_true.
Qed.

Lemma mountProps_only_key props el d n :
  only_key props -> d !! el = Some n -> mountProps_ props el d = Ok d.
Proof.
  intros Hprops Hel. unfold mountProps. rewrite Hel.
  rewrite (patchProps_only_key _ _ Hprops). rewrite drop_all. cbn [foldl].
  f_equal. apply list_insert_id. rewrite Hel. by destruct n.
Qed.

Lemma mountChildren_mounts fuel :
  (forall v c cn before after anchor d,
     built v -> height v <= fuel ->
     mount_point c cn before after anchor d ->
     exists m d' ids,
       patch_ fuel None v c anchor d = Ok (m, d')
       /\ mounts c cn before after d d' ids (dom_of v)
       /\ mounted_as v m ids) ->
  forall l c cn before after anchor d,
    Forall built l -> Forall (fun v => height v <= fuel) l ->
    mount_point c cn before after anchor d ->
    exists ms d' ids,
      mountChildren (patch_ fuel) l c anchor d = Ok (ms, d')
      /\ mounts c cn before after d d' ids (l ≫= dom_of).
Proof.
  intros IH. induction l as [|v l IHl]; intros c cn before after anchor d Hb Hh Hp.
  - exists [], d, []. split; [done|]. by eapply mounts_nil.
  - apply Forall_cons in Hb as [Hbv Hb]. apply Forall_cons in Hh as [Hhv Hh].
    destruct (IH v c cn before after anchor d Hbv Hhv Hp) as (m & d1 & ids1 & Hp1 & Hm1 & _).
    cbn [mountChildren]. rewrite Hp1. cbn [mbind result_bind].
    destruct (IHl c _ (before ++ ids1) after anchor d1 Hb Hh
                (mount_point_next _ _ _ _ _ _ _ _ _ Hp Hm1))
      as (ms & d2 & ids2 & Hc2 & Hm2).
    rewrite Hc2. cbn [mbind result_bind]. exists (m :: ms), d2, (ids1 ++ ids2).
    split; [done|]. cbn [mbind list_bind].
    eapply mounts_app; [|exact Hm1|exact Hm2]. by eapply mount_point_lt.
Qed.

Ltac flags :=
  repeat match goal with
         | |- context [has_flag ?f ?b] =>
             let r := eval vm_compute in (has_flag f b) in
             change (has_flag f b) with r
         end.

Lemma mountElement_mounts fuel tag props kids shapeFlag key :
  (forall v c cn before after anchor d,
     built v -> height v <= fuel ->
     mount_point c cn before after anchor d ->
     exists m d' ids,
       patch_ fuel None v c anchor d = Ok (m, d')
       /\ mounts c cn before after d d' ids (dom_of v)
       /\ mounted_as v m ids) ->
  forall c cn before after anchor d,
    let v := VNode (TTag tag) props kids shapeFlag key in
    built v -> height v <= S fuel ->
    mount_point c cn before after anchor d ->
    exists m d' ids,
      mountElement keys_of get toLowerCase is_boolean inherited enumerate host_call
        (patch_ fuel) v c anchor d = Ok (m, d')
      /\ mounts c cn before after d d' ids (dom_of v)
      /\ mounted_as v m ids.
Proof.
  intros IH c cn before after anchor d v Hb Hh Hp.
  pose proof (mount_point_lt _ _ _ _ _ _ Hp) as Hc.
  unfold mountElement. cbn [vn_type v createElement vn_props vn_shapeFlag vn_children].
  set (n2 := Node (KElement tag) "" [] None []).
  set (d2 := d ++ [n2]).
  assert (only_key props) as Hprops by apply Hb.
  assert (length d2 = S (length d)) as Hlen2.
  { unfold d2. rewrite length_app. simpl. lia. }
  assert (forall i, i < length d -> d2 !! i = d !! i) as Hframe2.
  { intros i Hi. unfold d2. by rewrite lookup_app_l. }
  assert (d2 !! length d = Some n2) as Hel2.
  { unfold d2. by rewrite list_lookup_middle. }
  rewrite (mountProps_only_key props (length d) d2 n2 Hprops Hel2).
  cbn [mbind result_bind].
  assert (mount_point (length d) n2 [] [] None d2) as Hpel.
  { split; try done; try (by constructor).
    intros f j Hj. destruct f as [|f]; [by apply elem_of_nil in Hj|].
    cbn [ancestors] in Hj. unfold parentNode in Hj. rewrite Hel2 in Hj. simpl in Hj.
    apply list_elem_of_singleton in Hj as ->. lia. }
  (* the children *)
  assert (exists ms d3 kid_ids kid_shapes,
            (if has_flag shapeFlag ShapeFlags.TEXT_CHILDREN
             then Ok ([], set_textContent (length d) (textContent_of kids) d2)
             else if has_flag shapeFlag ShapeFlags.ARRAY_CHILDREN
             then l ← as_array kids; mountChildren (patch_ fuel) l (length d) None d2
             else Ok ([], d2)) = Ok (ms, d3)
            /\ mounts (length d) n2 [] [] d2 d3 kid_ids kid_shapes
            /\ dom_of v = [SElement tag kid_shapes])
    as (ms & d3 & kid_ids & kid_shapes & -> & Hm3 & Hdom).
  { pose proof Hb as (Heq & _ & Hkids). unfold v in *.
    destruct kids as [|s|n|l]; cbn [h] in Heq; [| |done|]; injection Heq as -> _.
    - flags. exists [], d2, [], []. split; [done|]. split; [by eapply mounts_nil|done].
    - flags. destruct (text_child_mounts (length d) n2 d2 s) as [ids Hm]; try done.
      exists [], (set_textContent (length d) s d2), ids,
        (if bool_decide (s = ""%string) then [] else [SText s]).
      split; [done|]. split; [exact Hm|]. done.
    - flags. cbn [as_array mbind result_bind].
      destruct (mountChildren_mounts fuel IH l (length d) n2 [] [] None d2)
        as (ms & d3 & ids & Hch & Hm); try done.
      + exact (built_array _ _ _ _ _ Hb).
      + exact (height_array _ _ _ _ _ _ Hh).
      + exists ms, d3, ids, (l ≫= dom_of). split; [done|]. split; [exact Hm|]. done. }
  cbn [mbind result_bind].
  pose proof (mp_len _ _ _ _ _ _ _ _ Hm3) as Hlen3.
  pose proof (mp_container _ _ _ _ _ _ _ _ Hm3) as Hel3.
  assert (match props with
          | Some _ => mountProps_ props (length d) d3
          | None => Ok d3
          end = Ok d3) as ->.
  { destruct props; [|done]. by eapply mountProps_only_key. }
  cbn [mbind result_bind].
  destruct (element_mounts c cn before after anchor d d3
              (with_children ([] ++ kid_ids ++ []) n2) tag kid_ids kid_shapes)
    as (d5 & Hins & Hm5); try done.
  - lia.
  - intros i Hi. rewrite (mp_frame _ _ _ _ _ _ _ _ Hm3) by lia. by apply Hframe2.
  - simpl. by rewrite app_nil_r.
  - eapply Forall2_impl; [apply (mp_shapes _ _ _ _ _ _ _ _ Hm3)|].
    intros j sh Hsh. by rewrite Hlen2 in Hsh.
  - rewrite Hins. cbn [mbind result_bind].
    eexists _, d5, [length d]. split; [reflexivity|]. rewrite Hdom. split; [done|].
    done.
Qed.

Lemma processFragment_mounts fuel props l shapeFlag key :
  (forall v c cn before after anchor d,
     built v -> height v <= fuel ->
     mount_point c cn before after anchor d ->
     exists m d' ids,
       patch_ fuel None v c anchor d = Ok (m, d')
       /\ mounts c cn before after d d' ids (dom_of v)
       /\ mounted_as v m ids) ->
  forall c cn before after anchor d,
    let v := VNode TFragment props (ChArray l) shapeFlag key in
    built v -> height v <= S fuel ->
    mount_point c cn before after anchor d ->
    exists m d' ids,
      processFragment patchFragment (patch_ fuel) None v c anchor d = Ok (m, d')
      /\ mounts c cn before after d d' ids (dom_of v)
      /\ mounted_as v m ids.
Proof.
  intros IH c cn before after anchor d v Hb Hh Hp.
  pose proof (mount_point_lt _ _ _ _ _ _ Hp) as Hc.
  pose proof (mt_exist _ _ _ _ _ _ Hp) as Hold. rewrite Forall_forall in Hold.
  pose proof (mt_anchor _ _ _ _ _ _ Hp) as Hanchor.
  unfold processFragment. cbn [createTextNode]. rewrite length_app. cbn [length].
  set (tn := Node KText "" [] None []).
  set (s := length d). set (e := s + 1).
  destruct (fragment_anchors_inserted c cn before after anchor d Hp)
    as (d3 & d4 & Hins3 & Hins4 & Hlen4 & Hs4 & He4 & Hframe4 & Hp4).
  fold tn s e in Hins3, Hins4, Hs4, He4, Hp4. rewrite Hins3. cbn [mbind result_bind].
  rewrite Hins4. cbn [mbind result_bind as_array vn_children v].
  set (cn4 := with_children ((before ++ [s]) ++ e :: after)
                (with_children (before ++ s :: after) cn)) in *.
  destruct (mountChildren_mounts fuel IH l c cn4 (before ++ [s]) (e :: after) (Some e) d4)
    as (ms & d5 & ids & -> & Hm5); try done.
  { exact (built_array _ _ _ _ _ Hb). }
  { exact (height_array _ _ _ _ _ _ Hh). }
  cbn [mbind result_bind].
  pose proof (mp_len _ _ _ _ _ _ _ _ Hm5) as Hlen5.
  pose proof (mounts_ids_new _ _ _ _ _ _ _ _ Hm5) as Hnew. rewrite Forall_forall in Hnew.
  eexists _, d5, (s :: ids ++ [e]). split; [reflexivity|]. split; [split|].
  - lia.
  - intros i Hi Hic. rewrite (mp_frame _ _ _ _ _ _ _ _ Hm5) by (done || lia).
    by apply Hframe4.
  - rewrite (mp_container _ _ _ _ _ _ _ _ Hm5). f_equal. unfold with_children, cn4. simpl.
    f_equal. rewrite <- !app_assoc. simpl. by rewrite <- ?app_assoc.
  - unfold v. rewrite dom_of_fragment.
    assert (forall x, (x = s \/ x = e) ->
              has_shape (length d) (length d5) d5 (Some c) x (SText "")) as Hanchors.
    { intros x Hx. apply has_shape_text. split; [unfold s, e in Hx; lia|].
      exists (with_parent (Some c) tn).
      rewrite (mp_frame _ _ _ _ _ _ _ _ Hm5) by (unfold s, e in Hx; lia).
      destruct Hx as [->| ->]; [by rewrite Hs4|by rewrite He4]. }
    constructor; [apply Hanchors; by left|].
    apply Forall2_app; [|constructor; [apply Hanchors; by right|constructor]].
    eapply Forall2_impl; [apply (mp_shapes _ _ _ _ _ _ _ _ Hm5)|].
    intros j sh Hsh. eapply has_shape_frame; [exact Hsh|lia|lia|done].
  - apply NoDup_cons. split.
    + intros [Hin|Hin]%elem_of_app.
      * apply Hnew in Hin. unfold s in Hin. lia.
      * apply list_elem_of_singleton in Hin. unfold s, e in Hin. lia.
    + apply NoDup_app. split; [apply (mp_nodup _ _ _ _ _ _ _ _ Hm5)|].
      split; [|apply NoDup_singleton].
      intros x Hx Hx'. apply list_elem_of_singleton in Hx' as ->. apply Hnew in Hx.
      unfold e in Hx. lia.
  - split; [done|]. split; [done|]. cbn [m_anchor vn_type v].
    by rewrite app_comm_cons, last_snoc.
Qed.

(** Mounting a vnode puts the nodes it stands for at the mount point. *)
Lemma patch_mounts : forall fuel v c cn before after anchor d,
  built v -> height v <= fuel ->
  mount_point c cn before after anchor d ->
  exists m d' ids,
    patch_ fuel None v c anchor d = Ok (m, d')
    /\ mounts c cn before after d d' ids (dom_of v)
    /\ mounted_as v m ids.
Proof.
  induction fuel as [|fuel IH]; intros v c cn before after anchor d Hb Hh Hp.
  { pose proof (height_pos v). lia. }
  destruct v as [type props kids shapeFlag key].
  pose proof Hb as (Heq & Htype & _).
  cbn [patch]. unfold patch_body. cbn [mbind result_bind vn_shapeFlag].
  destruct type as [tag| | |comp]; [| | |done].
  - assert (has_flag shapeFlag ShapeFlags.ELEMENT = true) as ->.
    { destruct kids; cbn [h] in Heq; [| |done|]; by injection Heq as -> _. }
    unfold processElement. by apply mountElement_mounts.
  - assert (has_flag shapeFlag ShapeFlags.ELEMENT = false
            /\ has_flag shapeFlag ShapeFlags.TEXT = true) as [-> ->].
    { destruct kids; cbn [h] in Heq; [| |done|]; by injection Heq as -> _. }
    unfold processText. by apply mountTextNode_mounts.
  - destruct Htype as [l ->].
    assert (has_flag shapeFlag ShapeFlags.ELEMENT = false
            /\ has_flag shapeFlag ShapeFlags.TEXT = false
            /\ has_flag shapeFlag ShapeFlags.FRAGMENT = true) as (-> & -> & ->).
    { cbn [h] in Heq. by injection Heq as -> _. }
    by apply processFragment_mounts.
Qed.

(** Unmounting what was mounted takes its nodes out of the container;
    the node that followed them is the anchor they were mounted before. *)
Lemma unmount_mounted v m c cn before after anchor d d' ids :
  built v ->
  mount_point c cn before after anchor d ->
  mounts c cn before after d d' ids (dom_of v) ->
  mounted_as v m ids ->
  exists x d'',
    match m_anchor m with Some a => Some a | None => m_el m end = Some x
    /\ nextSibling d' x = anchor
    /\ unmount unmountComponent m d' = Ok d''
    /\ length d'' = length d'
    /\ d'' !! c = Some cn
    /\ forall i, i < length d -> i ≠ c -> d'' !! i = d !! i.
Proof.
  intros Hb Hp Hm (Hv & Hel & Hanchor).
  pose proof (mount_point_lt _ _ _ _ _ _ Hp) as Hc.
  pose proof (mt_exist _ _ _ _ _ _ Hp) as Hold. rewrite Forall_forall in Hold.
  pose proof (mounts_ids_new _ _ _ _ _ _ _ _ Hm) as Hnew. rewrite Forall_forall in Hnew.
  pose proof (mp_container _ _ _ _ _ _ _ _ Hm) as Hc'.
  pose proof (mt_children _ _ _ _ _ _ Hp) as Hkids.
  assert (forall y, y ∈ ids -> parentNode d' y = Some c /\ y ≠ c) as Hpar.
  { intros y Hy. split; [|apply Hnew in Hy; lia].
    apply list_elem_of_lookup in Hy as [k Hk].
    destruct (Forall2_lookup_l _ _ _ _ _ (mp_shapes _ _ _ _ _ _ _ _ Hm) Hk) as (sh & _ & Hsh).
    by apply has_shape_parent in Hsh. }
  assert (forall y, y ∈ ids -> y ∉ before ++ after) as Hfresh.
  { intros y Hy Hy'. apply Hnew in Hy. apply Hold in Hy'. lia. }
  assert (with_children (before ++ after) cn = cn) as Hcn
    by (by rewrite <- Hkids, with_children_same).
  unfold unmount. rewrite Hv.
  destruct v as [type props kids shapeFlag key]. cbn [vn_shapeFlag vn_type] in *.
  pose proof Hb as (Heq & Htype & _).
  assert (type ≠ TFragment -> exists el, ids = [el]
            /\ has_flag shapeFlag ShapeFlags.COMPONENT = false
            /\ has_flag shapeFlag ShapeFlags.FRAGMENT = false) as Hsingle.
  { intros Hnf. pose proof (mp_shapes _ _ _ _ _ _ _ _ Hm) as Hsh.
    destruct type as [tag| | |comp]; [| |done|done].
    - cbn [dom_of] in Hsh. apply Forall2_cons_inv_r in Hsh as (el & ids' & _ & Hnil & ->).
      apply Forall2_nil_inv_r in Hnil as ->. exists el. split; [done|].
      destruct kids; cbn [h] in Heq; [| |done|]; by injection Heq as -> _.
    - cbn [dom_of] in Hsh. apply Forall2_cons_inv_r in Hsh as (el & ids' & _ & Hnil & ->).
      apply Forall2_nil_inv_r in Hnil as ->. exists el. split; [done|].
      destruct kids; cbn [h] in Heq; [| |done|]; by injection Heq as -> _. }
  destruct (decide (type = TFragment)) as [->|Hnf].
  - (* a Fragment *)
    destruct Htype as [l ->].
    assert (has_flag shapeFlag ShapeFlags.COMPONENT = false
            /\ has_flag shapeFlag ShapeFlags.FRAGMENT = true) as [-> ->].
    { cbn [h] in Heq. by injection Heq as -> _. }
    pose proof (mp_shapes _ _ _ _ _ _ _ _ Hm) as Hsh. rewrite dom_of_fragment in Hsh.
    apply Forall2_cons_inv_r in Hsh as (s & ids' & _ & Hsh & ->).
    apply Forall2_app_inv_r in Hsh as (mid & last_ & _ & Hlast & ->).
    apply Forall2_cons_inv_r in Hlast as (e & nil_ & _ & Hnil & ->).
    apply Forall2_nil_inv_r in Hnil as ->.
    simpl in Hel. rewrite app_comm_cons, last_snoc in Hanchor.
    rewrite Hanchor. exists e.
    pose proof (mp_nodup _ _ _ _ _ _ _ _ Hm) as Hnd.
    assert (NoDup (before ++ ((s :: mid) ++ [e]) ++ after)) as Hndall.
    { pose proof (mt_nodup _ _ _ _ _ _ Hp) as Hnd0.
      apply NoDup_app in Hnd0 as (Hb1 & Hdisj & Ha1).
      apply NoDup_app. split; [done|]. split.
      - intros x Hx [Hx'|Hx']%elem_of_app; [|by apply (Hdisj x)].
        apply (Hfresh x Hx'). apply elem_of_app. by left.
      - apply NoDup_app. split; [done|]. split; [|done].
        intros x Hx Hx'. apply (Hfresh x Hx). apply elem_of_app. by right. }
    unfold unmountFragment. rewrite Hel, Hanchor.
    destruct (unmountFragment_loop_removes c e before after (s :: mid) d'
                (with_children (before ++ (s :: mid ++ [e]) ++ after) cn) (length d'))
      as (d1 & Hloop & Hlen1 & Hc1 & Hpe & Hrest1); try done.
    { simpl. pose proof (NoDup_bounded (s :: mid ++ [e]) (length d') Hnd) as Hle.
      rewrite length_cons, length_app in Hle. simpl in Hle.
      assert (Forall (fun x => x < length d') (s :: mid ++ [e])) as Hlt.
      { apply Forall_forall. intros x Hx. apply Hnew in Hx. lia. }
      specialize (Hle Hlt). lia. }
    replace (head ((s :: mid) ++ [e])) with (Some s) in Hloop by done.
    assert (nextSibling d' e = anchor) as Hnext.
    { rewrite (nextSibling_split d' c (with_children (before ++ (s :: mid ++ [e]) ++ after) cn)
                 e (before ++ s :: mid) after); try done.
      - apply (anchor_at_split_head anchor before after), Hp.
      - simpl. by rewrite <- !app_assoc.
      - intros Hin. apply NoDup_app in Hndall as (_ & Hdisj & Hndm).
        apply elem_of_app in Hin as [Hin|Hin].
        + apply (Hdisj e Hin). apply elem_of_app. left. apply elem_of_app. right. by left.
        + apply NoDup_app in Hndm as (Hndm & _ & _).
          apply NoDup_app in Hndm as (_ & Hdm & _). apply (Hdm e Hin). by left.
      - apply Hpar. apply elem_of_cons. right. apply elem_of_app. right. by left. }
    rewrite Hloop. cbn [mbind result_bind].
    destruct (remove_child d1 c (with_children (before ++ [e] ++ after)
                (with_children (before ++ (s :: mid ++ [e]) ++ after) cn)) e before after)
      as (d2 & Hrem & Hlen2 & Hc2 & _ & Hrest2); try done.
    + intros Hin. apply (Hfresh e); [|apply elem_of_app; by left].
      apply elem_of_cons. right. apply elem_of_app. right. by left.
    + intros Hin. apply (Hfresh e); [|apply elem_of_app; by right].
      apply elem_of_cons. right. apply elem_of_app. right. by left.
    + apply Hpar. apply elem_of_cons. right. apply elem_of_app. right. by left.
    + exists d2. split; [done|]. split; [done|]. split; [done|]. split; [lia|]. split.
      * rewrite Hc2. by rewrite !with_children_twice, Hcn.
      * intros i Hi Hic.
        assert (forall y, y ∈ s :: mid ++ [e] -> i ≠ y) as Hne.
        { intros y Hy ->. apply Hnew in Hy. lia. }
        rewrite Hrest2; [|done|apply Hne; apply elem_of_cons; right; apply elem_of_app; right; by left].
        rewrite Hrest1; [by apply (mp_frame _ _ _ _ _ _ _ _ Hm)|done|].
        intros Hin. apply (Hne i); [|done].
        apply elem_of_cons in Hin as [->|Hin]; [by left|].
        right. apply elem_of_app. by left.
  - (* an element or a text node *)
    destruct (Hsingle Hnf) as (el & -> & -> & ->).
    assert (m_anchor m = None) as Ha by (by destruct type).
    rewrite Ha. simpl in Hel. rewrite Hel. exists el.
    destruct (remove_child d' c (with_children (before ++ [el] ++ after) cn) el before after)
      as (d2 & Hrem & Hlen2 & Hc2 & _ & Hrest2); try done.
    + intros Hin. apply (Hfresh el); [by left|apply elem_of_app; by left].
    + intros Hin. apply (Hfresh el); [by left|apply elem_of_app; by right].
    + apply Hpar. by left.
    + apply Hpar. by left.
    + exists d2. split; [done|]. split.
      { rewrite (nextSibling_split d' c (with_children (before ++ [el] ++ after) cn)
                   el before after); try done.
        - apply (anchor_at_split_head anchor before after), Hp.
        - intros Hin. apply (Hfresh el); [by left|apply elem_of_app; by left].
        - apply Hpar. by left. }
      split; [done|]. split; [done|]. split.
      * rewrite Hc2. by rewrite with_children_twice, Hcn.
      * intros i Hi Hic. rewrite Hrest2; [by apply (mp_frame _ _ _ _ _ _ _ _ Hm)|done|].
        intros ->. assert (length d <= el) by (apply Hnew; by left). lia.
Qed.

Lemma mount_point_frame c cn before after anchor d d' :
  mount_point c cn before after anchor d ->
  length d <= length d' ->
  d' !! c = Some cn ->
  (forall i, i < length d -> i ≠ c -> d' !! i = d !! i) ->
  mount_point c cn before after anchor d'.
Proof.
  intros Hp Hlen Hc Hframe. split; try apply Hp; try done.
  - eapply Forall_impl; [apply Hp|]. simpl. intros; lia.
  - intros f j Hj. apply (mount_point_above c cn before after anchor d d') in Hj; try done.
    + lia.
    + unfold parentNode. by rewrite Hc, (mt_container _ _ _ _ _ _ Hp).
Qed.

(** X11.  Mounting:  [patch] of a vnode built by [h] (without components,
    its elements having no props but a [key], so that [patchProps] asks
    nothing of the host) with no previous vnode returns, and puts the nodes
    the vnode stands for into the container right before the anchor, in
    order; they are new nodes, and no other node that existed is touched.
    An element gets the nodes of its children as children, text children as
    one text node (none for the empty string); a Text vnode is one text
    node, which reads [null] when it has no children; a Fragment is an empty
    text node, the nodes of its children, and another empty text node.  The
    vnode's [el] is the first of the nodes, a Fragment's [anchor] the
    last. *)
Theorem patch_mounts_what_the_vnode_stands_for fuel v c cn before after anchor d :
  built v -> height v <= fuel ->
  mount_point c cn before after anchor d ->
  exists m d' ids,
    patch_ fuel None v c anchor d = Ok (m, d')
    /\ mounts c cn before after d d' ids (dom_of v)
    /\ mounted_as v m ids.
Proof. intros Hb Hh Hp. by apply patch_mounts. Qed.

(** X12.  [render(vnode, container)] followed by [render(null, container)],
    for a vnode built by [h] without components whose elements have no
    props but a [key]: the first appends the nodes the vnode stands for to
    the container, the second takes them out again, and every node that
    existed before is then as it was; the nodes of a Fragment are removed
    from its first to its last. *)
Theorem render_then_unrender fuel v c cn kids d :
  built v -> height v <= fuel ->
  mount_point c cn kids [] None d ->
  exists m d1 ids d2,
    render keys_of get toLowerCase is_boolean inherited enumerate host_call mountComponent
      updateComponent unmountComponent patchElement patchFragment
      fuel (Some v) c None d = Ok (Some m, d1)
    /\ mounts c cn kids [] d d1 ids (dom_of v)
    /\ render keys_of get toLowerCase is_boolean inherited enumerate host_call mountComponent
         updateComponent unmountComponent patchElement patchFragment
         fuel None c (Some m) d1 = Ok (None, d2)
    /\ forall i, i < length d -> d2 !! i = d !! i.
Proof.
  intros Hb Hh Hp.
  destruct (patch_mounts fuel v c cn kids [] None d Hb Hh Hp) as (m & d1 & ids & Hpatch & Hm & Has).
  destruct (unmount_mounted v m c cn kids [] None d d1 ids Hb Hp Hm Has)
    as (x & d2 & _ & _ & Hun & _ & Hc2 & Hframe).
  exists m, d1, ids, d2. unfold render. rewrite Hpatch. cbn [mbind result_bind].
  split; [done|]. split; [done|]. rewrite Hun. split; [done|].
  intros i Hi. destruct (decide (i = c)) as [->|Hic]; [|by apply Hframe].
  by rewrite Hc2, (mt_container _ _ _ _ _ _ Hp).
Qed.

(** X13.  [patch] of a mounted vnode with a vnode of another type (both
    built by [h] without components, their elements having no props but a
    [key]) replaces it in place: the nodes of the previous vnode are taken
    out, and the nodes the next vnode stands for are put where they were,
    between the same neighbours; the [anchor] argument is not used. *)
Theorem patch_replaces_a_vnode_of_another_type fuel v1 v2 c cn before after anchor anchor' d :
  built v1 -> built v2 -> height v1 <= fuel -> height v2 <= fuel ->
  vn_type v1 ≠ vn_type v2 ->
  mount_point c cn before after anchor d ->
  exists m1 d1 m2 d2 ids2,
    patch_ fuel None v1 c anchor d = Ok (m1, d1)
    /\ patch_ fuel (Some m1) v2 c anchor' d1 = Ok (m2, d2)
    /\ mounts c cn before after d d2 ids2 (dom_of v2)
    /\ mounted_as v2 m2 ids2.
Proof.
  intros Hb1 Hb2 Hh1 Hh2 Htypes Hp.
  destruct (patch_mounts fuel v1 c cn before after anchor d Hb1 Hh1 Hp)
    as (m1 & d1 & ids1 & Hpatch1 & Hm1 & Has1).
  destruct (unmount_mounted v1 m1 c cn before after anchor d d1 ids1 Hb1 Hp Hm1 Has1)
    as (x & d1' & Hx & Hnext & Hun & Hlen & Hc1' & Hframe1).
  pose proof (mp_len _ _ _ _ _ _ _ _ Hm1) as Hlen1.
  assert (mount_point c cn before after anchor d1') as Hp'.
  { apply (mount_point_frame c cn before after anchor d); try done. lia. }
  destruct (patch_mounts fuel v2 c cn before after anchor d1' Hb2 Hh2 Hp')
    as (m2 & d2 & ids2 & Hpatch2 & Hm2 & Has2).
  exists m1, d1, m2, d2, ids2. split; [done|]. split; [|split; [|done]].
  - destruct fuel as [|fuel]; [pose proof (height_pos v2); lia|].
    cbn [patch] in *. unfold patch_body in *.
    destruct Has1 as (-> & _ & _).
    rewrite bool_decide_false by done. rewrite Hx, Hnext, Hun.
    cbn [mbind result_bind] in *. exact Hpatch2.
  - pose proof (mp_len _ _ _ _ _ _ _ _ Hm2) as Hlen2. split.
    + lia.
    + intros i Hi Hic. rewrite (mp_frame _ _ _ _ _ _ _ _ Hm2) by (done || lia).
      by apply Hframe1.
    + apply (mp_container _ _ _ _ _ _ _ _ Hm2).
    + eapply Forall2_impl; [apply (mp_shapes _ _ _ _ _ _ _ _ Hm2)|].
      intros j sh Hsh. eapply has_shape_frame; [exact Hsh|lia|lia|done].
    + apply (mp_nodup _ _ _ _ _ _ _ _ Hm2).
Qed.

(** X14.  A Fragment whose children are a string, a number or nothing cannot
    be mounted:  [processFragment] puts its two empty text nodes into the
    container and then calls [forEach] on the children whatever they are,
    which throws. *)
Theorem fragment_needs_array_children fuel props kids c cn before after anchor d :
  (forall l, kids ≠ ChArray l) ->
  mount_point c cn before after anchor d ->
  patch_ (S fuel) None (h TFragment props kids) c anchor d = Throw TypeError.
Proof.
  intros Hkids Hp.
  destruct (fragment_anchors_inserted c cn before after anchor d Hp)
    as (d3 & d4 & Hins3 & Hins4 & _).
  cbn [patch]. unfold patch_body. cbn [mbind result_bind].
  destruct kids as [|s|n|l]; [| | |by destruct (Hkids l)];
    cbn [h vn_shapeFlag]; flags; unfold processFragment; cbn [createTextNode];
    rewrite length_app; cbn [length]; rewrite Hins3; cbn [mbind result_bind];
    rewrite Hins4; reflexivity.
Qed.

(** X15.  [patch] of a mounted Text vnode with another Text vnode keeps the
    text node and writes the next text into it; nothing else changes.  The
    text written for children that are [null] is the empty string, whereas
    mounting such a vnode makes a text node that reads [null]. *)
Theorem patch_updates_a_text_node fuel v1 v2 c cn before after anchor anchor' d :
  built v1 -> built v2 -> vn_type v1 = TText -> vn_type v2 = TText ->
  mount_point c cn before after anchor d ->
  exists m1 d1 el m2 d2,
    patch_ (S fuel) None v1 c anchor d = Ok (m1, d1)
    /\ mounts c cn before after d d1 [el] [SText (text_of (vn_children v1))]
    /\ patch_ (S fuel) (Some m1) v2 c anchor' d1 = Ok (m2, d2)
    /\ m_el m1 = Some el /\ m_el m2 = Some el
    /\ mounts c cn before after d d2 [el] [SText (textContent_of (vn_children v2))].
Proof.
  intros Hb1 Hb2 Ht1 Ht2 Hp.
  assert (forall v, built v -> vn_type v = TText ->
            has_flag (vn_shapeFlag v) ShapeFlags.ELEMENT = false
            /\ has_flag (vn_shapeFlag v) ShapeFlags.TEXT = true) as Hflags.
  { intros [type props kids shapeFlag key] (Heq & _) Ht. simpl in Ht. subst type.
    cbn [vn_shapeFlag].
    destruct kids; cbn [h] in Heq; [| |done|]; by injection Heq as -> _. }
  destruct (Hflags v1 Hb1 Ht1) as [He1 Hx1]. destruct (Hflags v2 Hb2 Ht2) as [He2 Hx2].
  destruct v1 as [type1 props1 kids1 flag1 key1]. simpl in Ht1. subst type1.
  destruct (mountTextNode_mounts props1 kids1 flag1 key1 c cn before after anchor d Hp)
    as (m1 & d1 & ids & Hmount & Hm1 & Has1).
  pose proof (mp_shapes _ _ _ _ _ _ _ _ Hm1) as Hsh. cbn [dom_of] in Hsh.
  apply Forall2_cons_inv_r in Hsh as (el & ids' & Hel & Hnil & ->).
  apply Forall2_nil_inv_r in Hnil as ->.
  destruct Has1 as (Hv1 & Hel1 & _). simpl in Hel1.
  apply has_shape_text in Hel as [Hrange (n & Hn & Hpar & Hkind & Hdata & Hkids)].
  exists m1, d1, el, (Mounted v2 (Some el) None []),
    (alter (with_data (textContent_of (vn_children v2))) el d1).
  split; [|split; [done|split; [|split; [done|split; [done|]]]]].
  - cbn [patch]. unfold patch_body. cbn [mbind result_bind]. rewrite He1, Hx1. done.
  - cbn [patch]. unfold patch_body. rewrite Hv1. cbn [vn_type].
    rewrite bool_decide_true by done. cbn [mbind result_bind]. rewrite He2, Hx2.
    unfold processText. rewrite Hel1. unfold set_textContent. rewrite Hn, Hkind. done.
  - pose proof (mount_point_lt _ _ _ _ _ _ Hp) as Hc. split.
    + rewrite length_alter. apply (mp_len _ _ _ _ _ _ _ _ Hm1).
    + intros i Hi Hic. rewrite list_lookup_alter_ne by lia.
      by apply (mp_frame _ _ _ _ _ _ _ _ Hm1).
    + rewrite list_lookup_alter_ne by lia. apply (mp_container _ _ _ _ _ _ _ _ Hm1).
    + constructor; [|constructor]. apply has_shape_text. rewrite length_alter.
      split; [done|]. eexists. rewrite list_lookup_alter_eq, Hn. split; [reflexivity|]. done.
    + apply NoDup_singleton.
Qed.

End Mount.

(** A container that is not in a document, as a mount point. *)
Lemma detached_mount_point c cn before after anchor d :
  d !! c = Some cn -> n_parent cn = None -> is_text cn = false ->
  n_children cn = before ++ after ->
  anchor_at_split anchor before after ->
  Forall (fun x => x < length d) (before ++ after) ->
  NoDup (before ++ after) ->
  mount_point c cn before after anchor d.
Proof.
  intros Hc Hpar Htext Hkids Hanchor Hold Hnd. split; try done.
  intros f j Hj. destruct f as [|f]; [by apply elem_of_nil in Hj|].
  cbn [ancestors] in Hj. unfold parentNode in Hj. rewrite Hc in Hj. simpl in Hj.
  rewrite Hpar in Hj. apply list_elem_of_singleton in Hj as ->. by eapply lookup_lt_Some.
Qed.

(** *** The theorems at work on a page *)

Lemma map_keys_own (m : gmap string value) (k : string) :
  k ∈ (map_to_list m).*1 -> is_Some (m !! k).
Proof. apply enumerates_map_keys. Qed.

Lemma a_list_built : built a_list.
Proof.
  split; [reflexivity|]. split; [done|]. split; [|split; [|exact I]].
  - split; [reflexivity|]. split; [|exact I]. split; [done|].
    intros k [v Hv]. by apply lookup_singleton_Some in Hv as [<- _].
  - split; [reflexivity|]. split; [by eexists|]. repeat split.
Qed.

(** Between the heading and the footer of the page. *)
Lemma page_mount_point :
  mount_point 0 (Node (KElement "div") "" [1; 2] None []) [1] [2] (Some 2) page.
Proof.
  apply detached_mount_point; try reflexivity.
  - split; [reflexivity|]. by intros ?%list_elem_of_singleton.
  - repeat constructor; simpl; lia.
  - apply (bool_decide_unpack _). vm_compute. exact I.
Qed.

Lemma patch_mounts_what_the_vnode_stands_for_witness :
  exists m d' ids,
    patch (fun _ => []) (fun _ _ => VUndef) id (fun _ _ => false) (fun _ => VUndef)
          (fun m : gmap string value => (map_to_list m).*1) (fun _ _ _ => Throw TypeError)
          (fun _ _ _ _ => Throw TypeError) (fun _ _ _ => Throw TypeError)
          (fun _ _ => Throw TypeError) (fun _ _ _ => Throw TypeError)
          (fun _ _ _ _ => Throw TypeError)
          3 None a_list 0 (Some 2) page = Ok (m, d')
    /\ mounts 0 (Node (KElement "div") "" [1; 2] None []) [1] [2] page d' ids (dom_of a_list)
    /\ mounted_as a_list m ids.
Proof.
  apply (patch_mounts_what_the_vnode_stands_for
           (fun _ => []) (fun _ _ => VUndef) id (fun _ _ => false) (fun _ => VUndef)
           (fun m : gmap string value => (map_to_list m).*1) (fun _ _ _ => Throw TypeError)
           (fun _ _ _ _ => Throw TypeError) (fun _ _ _ => Throw TypeError)
           (fun _ _ => Throw TypeError) (fun _ _ _ => Throw TypeError)
           (fun _ _ _ _ => Throw TypeError) map_keys_own
           3 a_list 0 (Node (KElement "div") "" [1; 2] None []) [1] [2] (Some 2) page).
  - exact a_list_built.
  - vm_compute. lia.
  - exact page_mount_point.
Defined.

(** At the end of the page. *)
Lemma page_end_mount_point :
  mount_point 0 (Node (KElement "div") "" [1; 2] None []) [1; 2] [] None page.
Proof.
  apply detached_mount_point; try reflexivity.
  - repeat constructor; simpl; lia.
  - apply (bool_decide_unpack _). vm_compute. exact I.
Qed.

Lemma render_then_unrender_witness :
  exists m d1 ids d2,
    render (fun _ => []) (fun _ _ => VUndef) id (fun _ _ => false) (fun _ => VUndef)
          (fun m : gmap string value => (map_to_list m).*1) (fun _ _ _ => Throw TypeError)
          (fun _ _ _ _ => Throw TypeError) (fun _ _ _ => Throw TypeError)
          (fun _ _ => Throw TypeError) (fun _ _ _ => Throw TypeError)
          (fun _ _ _ _ => Throw TypeError)
      3 (Some a_list) 0 None page = Ok (Some m, d1)
    /\ mounts 0 (Node (KElement "div") "" [1; 2] None []) [1; 2] [] page d1 ids (dom_of a_list)
    /\ render (fun _ => []) (fun _ _ => VUndef) id (fun _ _ => false) (fun _ => VUndef)
          (fun m : gmap string value => (map_to_list m).*1) (fun _ _ _ => Throw TypeError)
          (fun _ _ _ _ => Throw TypeError) (fun _ _ _ => Throw TypeError)
          (fun _ _ => Throw TypeError) (fun _ _ _ => Throw TypeError)
          (fun _ _ _ _ => Throw TypeError)
         3 None 0 (Some m) d1 = Ok (None, d2)
    /\ forall i, i < length page -> d2 !! i = page !! i.
Proof.
  apply (render_then_unrender (fun _ => []) (fun _ _ => VUndef) id (fun _ _ => false) (fun _ => VUndef)
          (fun m : gmap string value => (map_to_list m).*1) (fun _ _ _ => Throw TypeError)
          (fun _ _ _ _ => Throw TypeError) (fun _ _ _ => Throw TypeError)
          (fun _ _ => Throw TypeError) (fun _ _ _ => Throw TypeError)
          (fun _ _ _ _ => Throw TypeError) map_keys_own
           3 a_list 0 (Node (KElement "div") "" [1; 2] None []) [1; 2] page).
  - exact a_list_built.
  - vm_compute. lia.
  - exact page_end_mount_point.
Defined.

Lemma patch_replaces_a_vnode_of_another_type_witness :
  exists m1 d1 m2 d2 ids2,
    patch (fun _ => []) (fun _ _ => VUndef) id (fun _ _ => false) (fun _ => VUndef)
          (fun m : gmap string value => (map_to_list m).*1) (fun _ _ _ => Throw TypeError)
          (fun _ _ _ _ => Throw TypeError) (fun _ _ _ => Throw TypeError)
          (fun _ _ => Throw TypeError) (fun _ _ _ => Throw TypeError)
          (fun _ _ _ _ => Throw TypeError)
      3 None a_list 0 (Some 2) page = Ok (m1, d1)
    /\ patch (fun _ => []) (fun _ _ => VUndef) id (fun _ _ => false) (fun _ => VUndef)
          (fun m : gmap string value => (map_to_list m).*1) (fun _ _ _ => Throw TypeError)
          (fun _ _ _ _ => Throw TypeError) (fun _ _ _ => Throw TypeError)
          (fun _ _ => Throw TypeError) (fun _ _ _ => Throw TypeError)
          (fun _ _ _ _ => Throw TypeError)
         3 (Some m1) (h TText None (ChText "gone")) 0 None d1 = Ok (m2, d2)
    /\ mounts 0 (Node (KElement "div") "" [1; 2] None []) [1] [2] page d2 ids2
         (dom_of (h TText None (ChText "gone")))
    /\ mounted_as (h TText None (ChText "gone")) m2 ids2.
Proof.
  apply (patch_replaces_a_vnode_of_another_type (fun _ => []) (fun _ _ => VUndef) id (fun _ _ => false) (fun _ => VUndef)
          (fun m : gmap string value => (map_to_list m).*1) (fun _ _ _ => Throw TypeError)
          (fun _ _ _ _ => Throw TypeError) (fun _ _ _ => Throw TypeError)
          (fun _ _ => Throw TypeError) (fun _ _ _ => Throw TypeError)
          (fun _ _ _ _ => Throw TypeError) map_keys_own
           3 a_list (h TText None (ChText "gone")) 0
           (Node (KElement "div") "" [1; 2] None []) [1] [2] (Some 2) None page).
  - exact a_list_built.
  - vm_compute. repeat split.
  - vm_compute. lia.
  - vm_compute. lia.
  - discriminate.
  - exact page_mount_point.
Defined.

Lemma fragment_needs_array_children_witness :
  patch (fun _ => []) (fun _ _ => VUndef) id (fun _ _ => false) (fun _ => VUndef)
          (fun m : gmap string value => (map_to_list m).*1) (fun _ _ _ => Throw TypeError)
          (fun _ _ _ _ => Throw TypeError) (fun _ _ _ => Throw TypeError)
          (fun _ _ => Throw TypeError) (fun _ _ _ => Throw TypeError)
          (fun _ _ _ _ => Throw TypeError)
    1 None (h TFragment None (ChText "a")) 0 (Some 2) page = Throw TypeError.
Proof.
  apply (fragment_needs_array_children (fun _ => []) (fun _ _ => VUndef) id (fun _ _ => false) (fun _ => VUndef)
          (fun m : gmap string value => (map_to_list m).*1) (fun _ _ _ => Throw TypeError)
          (fun _ _ _ _ => Throw TypeError) (fun _ _ _ => Throw TypeError)
          (fun _ _ => Throw TypeError) (fun _ _ _ => Throw TypeError)
          (fun _ _ _ _ => Throw TypeError)
           0 None (ChText "a") 0 (Node (KElement "div") "" [1; 2] None []) [1] [2]
           (Some 2) page).
  - discriminate.
  - exact page_mount_point.
Defined.

Lemma patch_updates_a_text_node_witness :
  exists m1 d1 el m2 d2,
    patch (fun _ => []) (fun _ _ => VUndef) id (fun _ _ => false) (fun _ => VUndef)
          (fun m : gmap string value => (map_to_list m).*1) (fun _ _ _ => Throw TypeError)
          (fun _ _ _ _ => Throw TypeError) (fun _ _ _ => Throw TypeError)
          (fun _ _ => Throw TypeError) (fun _ _ _ => Throw TypeError)
          (fun _ _ _ _ => Throw TypeError)
      1 None (h TText None ChNull) 0 (Some 2) page = Ok (m1, d1)
    /\ mounts 0 (Node (KElement "div") "" [1; 2] None []) [1] [2] page d1 [el]
         [SText "null"]
    /\ patch (fun _ => []) (fun _ _ => VUndef) id (fun _ _ => false) (fun _ => VUndef)
          (fun m : gmap string value => (map_to_list m).*1) (fun _ _ _ => Throw TypeError)
          (fun _ _ _ _ => Throw TypeError) (fun _ _ _ => Throw TypeError)
          (fun _ _ => Throw TypeError) (fun _ _ _ => Throw TypeError)
          (fun _ _ _ _ => Throw TypeError)
         1 (Some m1) (h TText None ChNull) 0 None d1 = Ok (m2, d2)
    /\ m_el m1 = Some el /\ m_el m2 = Some el
    /\ mounts 0 (Node (KElement "div") "" [1; 2] None []) [1] [2] page d2 [el]
         [SText ""].
Proof.
  apply (patch_updates_a_text_node (fun _ => []) (fun _ _ => VUndef) id (fun _ _ => false) (fun _ => VUndef)
          (fun m : gmap string value => (map_to_list m).*1) (fun _ _ _ => Throw TypeError)
          (fun _ _ _ _ => Throw TypeError) (fun _ _ _ => Throw TypeError)
          (fun _ _ => Throw TypeError) (fun _ _ _ => Throw TypeError)
          (fun _ _ _ _ => Throw TypeError)
           0 (h TText None ChNull) (h TText None ChNull) 0
           (Node (KElement "div") "" [1; 2] None []) [1] [2] (Some 2) None page).
  - vm_compute. repeat split.
  - vm_compute. repeat split.
  - reflexivity.
  - reflexivity.
  - exact page_mount_point.
Defined.

End DomProofs.

(** ** Scheduler *)

Module SchedulerProofs.
Import Scheduler.

Section Jobs.
Context {job : Type} `{EqDecision job} {U : Type}.
Variable run_job : job -> U -> U * list job.
Variable throws : job -> U -> bool.

Lemma set_add_prefix (fn : job) (q : list job) : q `prefix_of` set_add fn q.
Proof.
  unfold set_add. case_bool_decide; [done|]. by apply prefix_app_r.
Qed.

Lemma set_add_elem (fn : job) (q : list job) : fn ∈ set_add fn q.
Proof. unfold set_add. case_bool_decide; [done|]. set_solver. Qed.

Lemma set_add_NoDup (fn : job) (q : list job) : NoDup q -> NoDup (set_add fn q).
Proof.
  intros Hq. unfold set_add. case_bool_decide; [done|].
  apply NoDup_app. split; [done|]. split; [|apply NoDup_singleton].
  intros x Hx ->%list_elem_of_singleton. contradiction.
Qed.

(** What a flush in progress keeps fixed, and how the queue may grow. *)
Record extends (st st' : state job U) (called : list job) : Prop := Extends {
  ext_flushing : isFlushing st' = true;
  ext_microtasks : microtasks st' = microtasks st;
  ext_ran : ran st' = ran st ++ called;
  ext_queue : jobQueue st `prefix_of` jobQueue st';
  ext_nodup : NoDup (jobQueue st) -> NoDup (jobQueue st');
  ext_queued : exists l, queued st' = queued st ++ l
                         /\ forall fn, fn ∈ l -> fn ∈ jobQueue st'
}.

Lemma extends_refl st : isFlushing st = true -> extends st st [].
Proof.
  intros Hf. split; try done.
  - by rewrite app_nil_r.
  - exists []. split; [by rewrite app_nil_r|]. set_solver.
Qed.

Lemma extends_trans st1 st2 st3 l1 l2 :
  extends st1 st2 l1 -> extends st2 st3 l2 -> extends st1 st3 (l1 ++ l2).
Proof.
  intros [? ? ? ? ? (k1 & ? & Hk1)] [? ? ? Hq ? (k2 & ? & Hk2)]. split.
  - done.
  - congruence.
  - rewrite app_assoc. congruence.
  - by etrans.
  - auto.
  - exists (k1 ++ k2). split; [rewrite app_assoc; congruence|].
    intros fn [Hin|Hin]%elem_of_app; [|by apply Hk2].
    destruct Hq as [k ->]. apply elem_of_app. left. by apply Hk1.
Qed.

Lemma queueJob_extends fn st :
  isFlushing st = true -> extends st (queueJob fn st) [].
Proof.
  intros Hf. unfold queueJob, flushJob. simpl. rewrite Hf. split; simpl.
  - done.
  - done.
  - by rewrite app_nil_r.
  - apply set_add_prefix.
  - apply set_add_NoDup.
  - exists [fn]. split; [done|]. intros x ->%list_elem_of_singleton. apply set_add_elem.
Qed.

Lemma queueJobs_extends qs : forall st,
  isFlushing st = true -> extends st (foldl (fun st q => queueJob q st) st qs) [].
Proof.
  induction qs as [|q qs IH]; intros st Hf; simpl.
  - by apply extends_refl.
  - pose proof (queueJob_extends q st Hf) as H1.
    pose proof (IH (queueJob q st) (ext_flushing _ _ _ H1)) as H2.
    exact (extends_trans _ _ _ [] [] H1 H2).
Qed.

Lemma call_job_extends fn st :
  isFlushing st = true -> extends st (call_job run_job fn st) [fn].
Proof.
  intros Hf. unfold call_job. destruct (run_job fn (user st)) as [u qs].
  match goal with |- extends _ (foldl _ ?x _) _ => set (st1 := x) end.
  assert (H1 : extends st st1 [fn]).
  { split; try done. exists []. split; [by rewrite app_nil_r|]. set_solver. }
  pose proof (queueJobs_extends qs st1 Hf) as H2.
  pose proof (extends_trans _ _ _ _ _ H1 H2) as H3. by rewrite app_nil_r in H3.
Qed.

(** The loop of a flush calls the entries of the queue in their order,
    from the position it starts at, until the queue ends or a callback
    throws. *)
Lemma forEach_extends fuel : forall i st e j st',
  isFlushing st = true ->
  forEach run_job throws fuel i st = (e, j, st') ->
  (i <= j)%nat
  /\ (i <= length (jobQueue st) -> j <= length (jobQueue st'))%nat
  /\ extends st st' (drop i (take j (jobQueue st')))
  /\ (e = Completed -> length (jobQueue st') <= j)%nat
  /\ (e = Stopped -> j = i + fuel)%nat
  /\ (e = Thrown ->
      exists fn u, last (drop i (take j (jobQueue st'))) = Some fn /\ throws fn u = true)
  /\ ((forall fn u, fn ∈ drop i (take j (jobQueue st')) -> throws fn u = false) ->
      e <> Thrown)
  /\ (forall k fn, (i <= k < j)%nat -> jobQueue st' !! k = Some fn ->
        (forall u, throws fn u = true) -> e = Thrown /\ j = S k).
Proof.
  induction fuel as [|fuel IH]; intros i st e j st' Hf Hrun; simpl in Hrun.
  - destruct (jobQueue st !! i) as [fn|] eqn:Hfn; injection Hrun as <- <- <-.
    + apply lookup_lt_Some in Hfn.
      split; [lia|]. split; [lia|].
      split; [rewrite drop_ge by (rewrite length_take; lia); by apply extends_refl|].
      split; [done|]. split; [intros _; lia|]. split; [done|]. split; [done|].
      intros; lia.
    + apply lookup_ge_None in Hfn.
      split; [lia|]. split; [lia|].
      split; [rewrite drop_ge by (rewrite length_take; lia); by apply extends_refl|].
      split; [done|]. split; [done|]. split; [done|]. split; [done|].
      intros; lia.
  - destruct (jobQueue st !! i) as [fn|] eqn:Hfn.
    + pose proof (call_job_extends fn st Hf) as H1.
      pose proof (lookup_lt_Some _ _ _ Hfn) as Hlt.
      destruct (ext_queue _ _ _ H1) as [k1 Hk1].
      assert (Hlen1 : (length (jobQueue st) <= length (jobQueue (call_job run_job fn st)))%nat).
      { rewrite Hk1, length_app. lia. }
      destruct (throws fn (user st)) eqn:Hthrow.
      * injection Hrun as <- <- <-.
        assert (Hone : drop i (take (S i) (jobQueue (call_job run_job fn st))) = [fn]).
        { assert (Hfn' : jobQueue (call_job run_job fn st) !! i = Some fn).
          { rewrite Hk1. by apply lookup_app_l_Some. }
          rewrite (take_S_r _ _ _ Hfn'), drop_app_length'; [done|].
          rewrite length_take. lia. }
        rewrite Hone.
        split; [lia|]. split; [lia|]. split; [done|].
        split; [done|]. split; [done|].
        split; [intros _; by exists fn, (user st)|].
        split.
        -- intros Hno _. specialize (Hno fn (user st)). rewrite Hthrow in Hno.
           by specialize (Hno ltac:(by apply list_elem_of_singleton)).
        -- intros k fn' Hk _ _. split; [done|]. f_equal. lia.
      * destruct (IH _ _ _ _ _ (ext_flushing _ _ _ H1) Hrun)
          as (Hij & Hlen & H2 & Hdone & Hstop & Hthrown & Hno & Hends).
        destruct (ext_queue _ _ _ H2) as [k2 Hk2].
        assert (Hsplit : drop i (take j (jobQueue st'))
                         = [fn] ++ drop (S i) (take j (jobQueue st'))).
        { assert (Hfn' : take j (jobQueue st') !! i = Some fn).
          { rewrite lookup_take_lt by lia. rewrite Hk2, Hk1.
            rewrite <- app_assoc. by apply lookup_app_l_Some. }
          by apply drop_S. }
        split; [lia|]. split; [lia|].
        split; [rewrite Hsplit; exact (extends_trans _ _ _ _ _ H1 H2)|].
        split; [done|]. split; [intros He; specialize (Hstop He); lia|].
        split.
        -- intros He. destruct (Hthrown He) as (fn' & u & Hlast & Hu).
           exists fn', u. split; [|done]. rewrite Hsplit.
           destruct (drop (S i) (take j (jobQueue st'))) as [|x l]; [done|].
           simpl in *. done.
        -- split.
           ++ intros Hnone. apply Hno. intros fn' u Hin. apply Hnone.
              rewrite Hsplit. apply elem_of_app. by right.
           ++ intros k fn' Hk Hfn' Hall.
              destruct (decide (k = i)) as [->|Hki]; [|apply (Hends k fn'); [lia|done|done]].
              assert (jobQueue st' !! i = Some fn) as Hi.
              { rewrite Hk2, Hk1, <- app_assoc. by apply lookup_app_l_Some. }
              rewrite Hi in Hfn'. injection Hfn' as <-.
              rewrite Hall in Hthrow. done.
    + injection Hrun as <- <- <-. apply lookup_ge_None in Hfn.
      split; [lia|]. split; [lia|].
      split; [rewrite drop_ge by (rewrite length_take; lia); by apply extends_refl|].
      split; [done|]. split; [done|]. split; [done|]. split; [done|].
      intros; lia.
Qed.

(** C4, as the code has it.  The loop of a flush calls the entries of the
    queue once each, in the order of the queue; the callbacks queued before
    the flush started come first, in the order in which they were queued.
    A callback passed to [queueJob] while the loop runs joins the same
    queue (unless it is in it already), so the same flush calls it, unless a
    callback before it throws: the loop ends at the first callback that
    throws (a callback that throws whatever the state ends it), and it ends
    before the end of the queue there only.  Once the loop has run to the end of the
    queue every queued callback has been called.  However the loop ends, the
    [finally] step follows and leaves the queue empty: nothing waits for
    the next flush. *)
Theorem flush_calls_what_is_queued_meanwhile fuel st e j st' :
  isFlushing st = true ->
  NoDup (jobQueue st) ->
  forEach run_job throws fuel 0 st = (e, j, st') ->
  ran st' = ran st ++ take j (jobQueue st')
  /\ NoDup (jobQueue st')
  /\ jobQueue st `prefix_of` jobQueue st'
  /\ (e <> Thrown -> length (jobQueue st) <= fuel -> length (jobQueue st) <= j)%nat
  /\ (exists l, queued st' = queued st ++ l
                /\ forall fn, fn ∈ l -> fn ∈ jobQueue st')
  /\ ((length (jobQueue st') <= j)%nat ->
      ran st' = ran st ++ jobQueue st'
      /\ jobQueue (flush_finally st') = [])
  /\ (e = Completed -> length (jobQueue st') <= j)%nat
  /\ (e = Thrown ->
      exists fn u, last (take j (jobQueue st')) = Some fn /\ throws fn u = true)
  /\ ((forall fn u, fn ∈ take j (jobQueue st') -> throws fn u = false) -> e <> Thrown)
  /\ (forall k fn, (k < j)%nat -> jobQueue st' !! k = Some fn ->
        (forall u, throws fn u = true) -> e = Thrown /\ j = S k)
  /\ (e <> Stopped ->
      exists st1,
        flush_then run_job throws fuel st = Ok st1
        /\ microtasks st1 = microtasks st ++ [MFlushFinally]
        /\ jobQueue st1 = jobQueue st' /\ ran st1 = ran st'
        /\ flush_finally st1
           = {| jobQueue := []; isFlushing := false; currentFlushPromise := false;
                microtasks := microtasks st1; user := user st'; ran := ran st';
                queued := queued st' |}).
Proof.
  intros Hf Hnd Hrun.
  destruct (forEach_extends fuel 0 st e j st' Hf Hrun)
    as (_ & _ & Hext & Hdone & Hstop & Hthrown & Hno & Hends).
  rewrite drop_0 in Hext, Hthrown, Hno.
  destruct Hext as [_ Hmicro Hran Hq Hnd' Hqueued].
  split; [done|]. split; [auto|]. split; [done|].
  split.
  { intros He Hlen. destruct e; [|done|].
    - specialize (Hdone eq_refl). destruct Hq as [k Hk]. rewrite Hk, length_app in Hdone. lia.
    - specialize (Hstop eq_refl). lia. }
  split; [done|].
  split; [intros Hend; split; [|done]; by rewrite Hran, take_ge|].
  split; [done|]. split; [done|]. split; [done|].
  split; [intros k fn Hk; apply Hends; lia|].
  intros He. unfold flush_then. rewrite Hrun.
  destruct e; [|  |done]; eexists; (split; [reflexivity|]); simpl; by rewrite Hmicro.
Qed.

End Jobs.

(** The theorem at work: job 0 queues job 1 during the flush. *)
Lemma flush_calls_what_is_queued_meanwhile_witness :
  let st := pop_microtask (queueJob 0%nat (initial tt)) in
  let st' := (forEach chain_job never_throws 5 0 st).2 in
  ran st' = ran st ++ take 2 (jobQueue st')
  /\ NoDup (jobQueue st')
  /\ jobQueue st `prefix_of` jobQueue st'
  /\ (Completed <> Thrown -> length (jobQueue st) <= 5 -> length (jobQueue st) <= 2)%nat
  /\ (exists l, queued st' = queued st ++ l
                /\ forall fn, fn ∈ l -> fn ∈ jobQueue st')
  /\ ((length (jobQueue st') <= 2)%nat ->
      ran st' = ran st ++ jobQueue st'
      /\ jobQueue (flush_finally st') = [])
  /\ (Completed = Completed -> length (jobQueue st') <= 2)%nat
  /\ (Completed = Thrown ->
      exists fn (u : unit), last (take 2 (jobQueue st')) = Some fn /\ never_throws fn u = true)
  /\ ((forall fn (u : unit), fn ∈ take 2 (jobQueue st') -> never_throws fn u = false) ->
      Completed <> Thrown)
  /\ (forall k fn, (k < 2)%nat -> jobQueue st' !! k = Some fn ->
        (forall u : unit, never_throws fn u = true) -> Completed = Thrown /\ 2%nat = S k)
  /\ (Completed <> Stopped ->
      exists st1,
        flush_then chain_job never_throws 5 st = Ok st1
        /\ microtasks st1 = microtasks st ++ [MFlushFinally]
        /\ jobQueue st1 = jobQueue st' /\ ran st1 = ran st'
        /\ flush_finally st1
           = {| jobQueue := []; isFlushing := false; currentFlushPromise := false;
                microtasks := microtasks st1; user := user st'; ran := ran st';
                queued := queued st' |}).
Proof.
  apply (flush_calls_what_is_queued_meanwhile chain_job never_throws 5
           (pop_microtask (queueJob 0%nat (initial tt))) Completed 2).
  - reflexivity.
  - apply NoDup_singleton.
  - reflexivity.
Defined.

(** C4 as stated fails: job 1, queued by job 0 while the flush runs, is
    called by that very flush. *)
Lemma queued_meanwhile_is_not_deferred :
  ~ defers_to_next_flush chain_job never_throws 5
      (pop_microtask (queueJob 0%nat (initial tt))).
Proof.
  intros H. apply (H 1%nat); vm_compute; set_solver.
Qed.

(** The whole course of it: both jobs run in the one flush, and when the
    microtasks are done nothing is queued or pending. *)
Lemma chain_runs_in_one_flush :
  run_microtasks chain_job never_throws 10 (queueJob 0%nat (initial tt))
  = Ok {| jobQueue := []; isFlushing := false; currentFlushPromise := false;
          microtasks := []; user := tt; ran := [0; 1]%nat; queued := [0; 1]%nat |}.
Proof. reflexivity. Qed.

(** A callback that throws: of the jobs 0, 1 and 2, queued in this order,
    job 1 throws.  The loop ends with it; job 2 is never called, and the
    [finally] step drops it with the rest of the queue. *)
Lemma a_throw_ends_the_flush :
  let st := foldl (fun st q => queueJob q st) (initial []) [0; 1; 2]%nat in
  (forEach record_job one_throws 10 0 (pop_microtask st)).1 = (Thrown, 2%nat)
  /\ run_microtasks record_job one_throws 10 st
     = Ok {| jobQueue := []; isFlushing := false; currentFlushPromise := false;
             microtasks := []; user := [0; 1]%nat; ran := [0; 1]%nat;
             queued := [0; 1; 2]%nat |}.
Proof. split; reflexivity. Qed.

(** *** Batches: what is queued between two flushes, and its flush *)

Section Batches.
Context {job : Type} `{EqDecision job} {U : Type}.
Variable run_job : job -> U -> U * list job.
Variable throws : job -> U -> bool.

Lemma set_add_all_first_queued (qs : list job) :
  foldl (fun q fn => set_add fn q) [] qs = first_queued qs.
Proof.
  unfold first_queued. induction qs as [|fn qs IH] using rev_ind; [done|].
  rewrite foldl_app, reverse_app. simpl. rewrite IH.
  unfold set_add.
  destruct (decide_rel elem_of fn (reverse qs)) as [Hin|Hin].
  - rewrite bool_decide_true; [done|].
    by apply elem_of_reverse, elem_of_remove_dups.
  - rewrite bool_decide_false; [by rewrite reverse_cons|].
    intros Hin'. by apply Hin, elem_of_remove_dups, elem_of_reverse.
Qed.

Lemma queueJob_all_fields (qs : list job) : forall st : state job U,
  isFlushing st = true ->
  let st' := foldl (fun st q => queueJob q st) st qs in
  jobQueue st' = foldl (fun q fn => set_add fn q) (jobQueue st) qs
  /\ isFlushing st' = true
  /\ currentFlushPromise st' = currentFlushPromise st
  /\ microtasks st' = microtasks st
  /\ user st' = user st /\ ran st' = ran st
  /\ queued st' = queued st ++ qs.
Proof.
  induction qs as [|q qs IH]; intros st Hf; simpl.
  - by rewrite app_nil_r.
  - destruct (IH (queueJob q st)) as (H1 & H2 & H3 & H4 & H5 & H6 & H7).
    + unfold queueJob, flushJob. simpl. by rewrite Hf.
    + rewrite H1, H2, H3, H4, H5, H6, H7. unfold queueJob, flushJob. simpl.
      rewrite Hf. simpl. by rewrite <- app_assoc.
Qed.

(** The state that calls of [queueJob] from an idle state lead to. *)
Lemma queueJob_from_idle (st : state job U) (q : job) (qs : list job) :
  idle st ->
  foldl (fun st q => queueJob q st) st (q :: qs)
  = {| jobQueue := first_queued (q :: qs); isFlushing := true;
       currentFlushPromise := true; microtasks := [MFlushThen];
       user := user st; ran := ran st; queued := queued st ++ q :: qs |}.
Proof.
  intros (Hf & Hq & Hm). cbn [foldl].
  destruct (queueJob_all_fields qs (queueJob q st)) as (H1 & H2 & H3 & H4 & H5 & H6 & H7).
  { unfold queueJob, flushJob. simpl. by rewrite Hf. }
  destruct (foldl _ (queueJob q st) qs) as [queue flushing promise micro u ran' queued'].
  simpl in *. subst.
  unfold queueJob, flushJob. simpl. rewrite Hf, Hq, Hm. simpl. rewrite <- app_assoc.
  f_equal. rewrite <- set_add_all_first_queued. done.
Qed.

(** X16.  Calls of [queueJob] made while nothing is being flushed, one after
    another, lead to one flush: the first call starts it and puts one
    microtask in the host's queue, the later calls add none.  The queue
    holds each job once, in the order in which each was queued first, and no
    job has run yet. *)
Theorem queueJob_batches (st : state job U) (q : job) (qs : list job) :
  idle st ->
  let st' := foldl (fun st q => queueJob q st) st (q :: qs) in
  microtasks st' = [MFlushThen]
  /\ jobQueue st' = first_queued (q :: qs)
  /\ isFlushing st' = true
  /\ currentFlushPromise st' = true
  /\ queued st' = queued st ++ q :: qs
  /\ ran st' = ran st /\ user st' = user st.
Proof.
  intros Hidle. cbn zeta. rewrite (queueJob_from_idle st q qs Hidle). simpl.
  repeat split.
Qed.

Lemma forEach_quiet :
  (forall fn u, (run_job fn u).2 = []) ->
  (forall fn u, throws fn u = false) ->
  forall fuel i (st : state job U),
    (length (jobQueue st) <= i + fuel)%nat ->
    forEach run_job throws fuel i st
    = (Completed, Nat.max i (length (jobQueue st)),
       {| jobQueue := jobQueue st; isFlushing := isFlushing st;
          currentFlushPromise := currentFlushPromise st;
          microtasks := microtasks st;
          user := after_jobs run_job (user st) (drop i (jobQueue st));
          ran := ran st ++ drop i (jobQueue st);
          queued := queued st |}).
Proof.
  intros Hquiet Hreturn. induction fuel as [|fuel IH]; intros i st Hlen.
  - simpl. rewrite lookup_ge_None_2 by lia.
    rewrite drop_ge by lia. rewrite app_nil_r. f_equal; [f_equal; lia|]. by destruct st.
  - simpl. destruct (jobQueue st !! i) as [fn|] eqn:Hfn.
    + assert (i < length (jobQueue st))%nat by (by eapply lookup_lt_Some).
      rewrite Hreturn.
      unfold call_job. specialize (Hquiet fn (user st)).
      destruct (run_job fn (user st)) as [u qs] eqn:Hrun. simpl in Hquiet. subst qs.
      simpl. rewrite IH by (simpl; lia). simpl.
      rewrite (drop_S _ _ _ Hfn). simpl. rewrite Hrun. simpl.
      rewrite <- app_assoc. f_equal. f_equal. lia.
    + apply lookup_ge_None in Hfn. rewrite drop_ge by lia. rewrite app_nil_r.
      f_equal; [f_equal; lia|]. by destruct st.
Qed.

(** X17.  Jobs queued from an idle state, none of which queues a job itself
    or throws: when the host has run the microtasks, every job has been
    called once, however often it was queued, in the order in which each was
    queued first; the queue is empty and no flush is pending, so the next
    [queueJob] starts a new flush. *)
Theorem flush_runs_each_job_once (st : state job U) (q : job) (qs : list job)
    (extra : nat) :
  idle st ->
  (forall fn u, (run_job fn u).2 = []) ->
  (forall fn u, throws fn u = false) ->
  run_microtasks run_job throws (length (first_queued (q :: qs)) + 3 + extra)
    (foldl (fun st q => queueJob q st) st (q :: qs))
  = Ok {| jobQueue := []; isFlushing := false; currentFlushPromise := false;
          microtasks := [];
          user := after_jobs run_job (user st) (first_queued (q :: qs));
          ran := ran st ++ first_queued (q :: qs);
          queued := queued st ++ q :: qs |}.
Proof.
  intros Hidle Hquiet Hreturn. rewrite (queueJob_from_idle st q qs Hidle).
  set (jobs := first_queued (q :: qs)) in *.
  replace (length jobs + 3 + extra)%nat with (S (S (S (length jobs + extra)))) by lia.
  cbn [run_microtasks microtasks]. unfold flush_then, pop_microtask. cbn [microtasks tail].
  rewrite forEach_quiet by (done || (simpl; lia)).
  cbn [mbind result_bind run_microtasks microtasks app]. unfold flush_finally, pop_microtask.
  cbn [microtasks tail run_microtasks jobQueue user ran queued]. by rewrite drop_0.
Qed.

(** X18.  A job that queues itself while it runs is not called again: it is
    in the queue already, and the queue is cleared when the flush ends, so
    the request is lost.  So it is whether the job then returns or throws. *)
Theorem job_queueing_itself_runs_once (fn : job) (u : U) (extra : nat) :
  (forall u, (run_job fn u).2 = [fn]) ->
  run_microtasks run_job throws (4 + extra) (queueJob fn (initial u))
  = Ok {| jobQueue := []; isFlushing := false; currentFlushPromise := false;
          microtasks := []; user := (run_job fn u).1; ran := [fn];
          queued := [fn; fn] |}.
Proof.
  intros Hself. specialize (Hself u).
  assert (queueJob fn (initial u)
          = {| jobQueue := [fn]; isFlushing := true; currentFlushPromise := true;
               microtasks := [MFlushThen]; user := u; ran := []; queued := [fn] |}) as ->.
  { unfold queueJob, flushJob, set_add. cbn [jobQueue initial].
    by rewrite bool_decide_false by (by intros ?%elem_of_nil). }
  assert (forall st : state job U,
            st = {| jobQueue := [fn]; isFlushing := true; currentFlushPromise := true;
                    microtasks := []; user := u; ran := []; queued := [fn] |} ->
            call_job run_job fn st
            = {| jobQueue := [fn]; isFlushing := true; currentFlushPromise := true;
                 microtasks := []; user := (run_job fn u).1; ran := [fn];
                 queued := [fn; fn] |}) as Hcall.
  { intros st ->. unfold call_job. simpl.
    destruct (run_job fn u) as [u' qs]. simpl in Hself. subst qs.
    unfold queueJob, flushJob, set_add. cbn [foldl jobQueue].
    by rewrite bool_decide_true by (by apply list_elem_of_singleton). }
  change (4 + extra)%nat with (S (S (S (S extra)))).
  cbn [run_microtasks microtasks]. unfold flush_then, pop_microtask.
  cbn [microtasks tail jobQueue isFlushing currentFlushPromise user ran queued].
  cbn [forEach jobQueue lookup list_lookup user]. rewrite Hcall by done.
  destruct (throws fn u); destruct extra; simpl; done.
Qed.

End Batches.

(** [queueJob] of jobs 2, 1, 2, 3, 1 in a row. *)
Lemma queueJob_batches_witness :
  let st' := foldl (fun st q => queueJob q st) (initial tt) [2; 1; 2; 3; 1]%nat in
  microtasks st' = [MFlushThen]
  /\ jobQueue st' = [2; 1; 3]%nat
  /\ isFlushing st' = true
  /\ currentFlushPromise st' = true
  /\ queued st' = [2; 1; 2; 3; 1]%nat
  /\ ran st' = [] /\ user st' = tt.
Proof.
  exact (queueJob_batches (initial tt) 2%nat [1; 2; 3; 1]%nat
           (conj eq_refl (conj eq_refl eq_refl))).
Defined.

(** The same jobs, each recording its call: 2, 1 and 3 are called once. *)
Lemma flush_runs_each_job_once_witness :
  run_microtasks (fun (fn : nat) (u : list nat) => (fn :: u, [])) never_throws 6
    (foldl (fun st q => queueJob q st) (initial []) [2; 1; 2; 3; 1]%nat)
  = Ok {| jobQueue := []; isFlushing := false; currentFlushPromise := false;
          microtasks := []; user := [3; 1; 2]%nat; ran := [2; 1; 3]%nat;
          queued := [2; 1; 2; 3; 1]%nat |}.
Proof.
  exact (flush_runs_each_job_once (fun (fn : nat) (u : list nat) => (fn :: u, []))
           never_throws (initial []) 2%nat [1; 2; 3; 1]%nat 0
           (conj eq_refl (conj eq_refl eq_refl)) (fun _ _ => eq_refl) (fun _ _ => eq_refl)).
Defined.

(** Job 7 counts its calls, queues itself and throws: it is called once. *)
Lemma job_queueing_itself_runs_once_witness :
  run_microtasks (fun (fn : nat) (u : nat) => (S u, [fn])) (fun _ _ => true) 4
    (queueJob 7%nat (initial 0%nat))
  = Ok {| jobQueue := []; isFlushing := false; currentFlushPromise := false;
          microtasks := []; user := 1%nat; ran := [7%nat]; queued := [7; 7]%nat |}.
Proof.
  exact (job_queueing_itself_runs_once (fun (fn : nat) (u : nat) => (S u, [fn]))
           (fun _ _ => true) 7%nat 0%nat 0 (fun _ => eq_refl)).
Defined.

End SchedulerProofs.

(** ** Component *)

Module ComponentProofs.
Import Component.

(** The loop of [updateProps] over the vnode's props. *)
Definition assign (c : descriptor) (inst : Instance) (kv : string * value) : Instance :=
  let '(key, v) := kv in
  if isDeclared c key then setInstanceProp inst key v else setInstanceAttr inst key v.

Lemma updateProps_unfold inst vnode :
  i_props (updateProps inst vnode)
  = i_props (foldl (assign (type vnode)) inst (default [] (props vnode)))
  /\ i_attrs (updateProps inst vnode)
     = i_attrs (foldl (assign (type vnode)) inst (default [] (props vnode))).
Proof. done. Qed.

Lemma assign_other c inst kv key :
  key ≠ kv.1 ->
  i_props (assign c inst kv) !! key = i_props inst !! key
  /\ i_attrs (assign c inst kv) !! key = i_attrs inst !! key.
Proof.
  destruct kv as [k v]. simpl. intros Hne. destruct (isDeclared c k); simpl.
  - by rewrite lookup_insert_ne.
  - by rewrite lookup_insert_ne.
Qed.

Lemma assign_keeps_entries c inst kv key :
  (is_Some (i_props inst !! key) -> is_Some (i_props (assign c inst kv) !! key))
  /\ (is_Some (i_attrs inst !! key) -> is_Some (i_attrs (assign c inst kv) !! key)).
Proof.
  destruct kv as [k v]. simpl. destruct (isDeclared c k); simpl; split; try done.
  - intros H. rewrite lookup_insert. by case_decide.
  - intros H. rewrite lookup_insert. by case_decide.
Qed.

Lemma assign_all_other c l : forall inst key,
  key ∉ l.*1 ->
  i_props (foldl (assign c) inst l) !! key = i_props inst !! key
  /\ i_attrs (foldl (assign c) inst l) !! key = i_attrs inst !! key.
Proof.
  induction l as [|kv l IH]; intros inst key Hkey; simpl; [done|].
  rewrite fmap_cons in Hkey. apply not_elem_of_cons in Hkey. destruct Hkey as [Hne Hkey].
  destruct (IH (assign c inst kv) key Hkey) as [-> ->].
  by apply assign_other.
Qed.

Lemma assign_all_keeps_entries c l : forall inst key,
  (is_Some (i_props inst !! key) -> is_Some (i_props (foldl (assign c) inst l) !! key))
  /\ (is_Some (i_attrs inst !! key) -> is_Some (i_attrs (foldl (assign c) inst l) !! key)).
Proof.
  induction l as [|kv l IH]; intros inst key; simpl; [done|].
  destruct (IH (assign c inst kv) key) as [H1 H2].
  destruct (assign_keeps_entries c inst kv key) as [H3 H4]. split; auto.
Qed.

(** On a mounted instance [updateComponent] comes down to [updateProps]
    as far as props and attrs go. *)
Lemma updateComponent_props inst vnode :
  i_isMounted inst = true ->
  i_props (updateComponent inst vnode)
  = i_props (foldl (assign (type vnode)) inst (default [] (props vnode)))
  /\ i_attrs (updateComponent inst vnode)
     = i_attrs (foldl (assign (type vnode)) inst (default [] (props vnode))).
Proof.
  intros Hm. unfold updateComponent, update. simpl. rewrite Hm. simpl.
  set (inst' := MkInstance _ _ _ _ _ _ _ _).
  assert (H : forall l i1 i2, i_props i1 = i_props i2 -> i_attrs i1 = i_attrs i2 ->
             i_props (foldl (assign (type vnode)) i1 l) = i_props (foldl (assign (type vnode)) i2 l)
             /\ i_attrs (foldl (assign (type vnode)) i1 l) = i_attrs (foldl (assign (type vnode)) i2 l)).
  { induction l as [|[k v] l IH]; intros i1 i2 Hp Ha; simpl; [done|].
    apply IH; destruct (isDeclared (type vnode) k); simpl; congruence. }
  by apply H.
Qed.

Lemma updateProps_isMounted inst vnode :
  i_isMounted (updateProps inst vnode) = i_isMounted inst.
Proof.
  unfold updateProps. simpl. generalize (default [] (props vnode)). intros l.
  revert inst. induction l as [|[k v] l IH]; intros inst; simpl; [done|].
  rewrite IH. by destruct (isDeclared (type vnode) k).
Qed.

Lemma updateComponent_mounted inst vnode :
  i_isMounted inst = true -> i_isMounted (updateComponent inst vnode) = true.
Proof.
  intros Hm. unfold updateComponent, update. cbn [i_isMounted i_next].
  rewrite Hm. cbn [i_isMounted]. by rewrite updateProps_isMounted.
Qed.

(** C10.  An update of a mounted component writes the props the new
    vnode passes and nothing else: a key the new vnode does not pass keeps
    the value it had in [instance.props] and in [instance.attrs], and an
    entry present before the update is present after it, whatever the new
    vnode passes.  So it is over any number of updates: no entry is ever
    removed. *)
Theorem updateComponent_never_deletes (inst : Instance) (vnodes : list ComponentVnode)
    (vnode : ComponentVnode) (key : string) :
  i_isMounted inst = true ->
  (key ∉ passed vnode ->
     i_props (updateComponent inst vnode) !! key = i_props inst !! key
     /\ i_attrs (updateComponent inst vnode) !! key = i_attrs inst !! key)
  /\ (key ∉ passed vnode ->
        i_props (updateProps inst vnode) !! key = i_props inst !! key
        /\ i_attrs (updateProps inst vnode) !! key = i_attrs inst !! key)
  /\ (is_Some (i_props inst !! key) ->
        is_Some (i_props (foldl updateComponent inst vnodes) !! key))
  /\ (is_Some (i_attrs inst !! key) ->
        is_Some (i_attrs (foldl updateComponent inst vnodes) !! key)).
Proof.
  intros Hm. split; [|split].
  - intros Hkey. destruct (updateComponent_props inst vnode Hm) as [-> ->].
    by apply assign_all_other.
  - intros Hkey. destruct (updateProps_unfold inst vnode) as [-> ->].
    by apply assign_all_other.
  - revert inst Hm. induction vnodes as [|v vnodes IH]; intros inst Hm; simpl; [done|].
    destruct (IH (updateComponent inst v) (updateComponent_mounted inst v Hm)) as [H1 H2].
    destruct (updateComponent_props inst v Hm) as [Hp Ha].
    destruct (assign_all_keeps_entries (type v) (default [] (props v)) inst key) as [H3 H4].
    split; intros H.
    + apply H1. rewrite Hp. auto.
    + apply H2. rewrite Ha. auto.
Qed.

(** The theorem at work: the component is updated with [{ title: 'b' }]
    alone; [id], passed at mount only, stays among the attrs. *)
Lemma updateComponent_never_deletes_witness :
  let vnode := CVnode titled (Some [("title"%string, VStr "b")]) in
  (("id"%string ∉ passed vnode ->
     i_props (updateComponent mounted_instance vnode) !! "id"%string
     = i_props mounted_instance !! "id"%string
     /\ i_attrs (updateComponent mounted_instance vnode) !! "id"%string
        = i_attrs mounted_instance !! "id"%string)
  /\ ("id"%string ∉ passed vnode ->
        i_props (updateProps mounted_instance vnode) !! "id"%string
        = i_props mounted_instance !! "id"%string
        /\ i_attrs (updateProps mounted_instance vnode) !! "id"%string
           = i_attrs mounted_instance !! "id"%string)
  /\ (is_Some (i_props mounted_instance !! "id"%string) ->
        is_Some (i_props (foldl updateComponent mounted_instance [vnode; vnode]) !! "id"%string))
  /\ (is_Some (i_attrs mounted_instance !! "id"%string) ->
        is_Some (i_attrs (foldl updateComponent mounted_instance [vnode; vnode]) !! "id"%string)))
  /\ i_attrs (updateComponent mounted_instance vnode) !! "id"%string = Some (VStr "x")
  /\ i_props (updateComponent mounted_instance vnode) !! "title"%string = Some (VStr "b").
Proof.
  split; [|split; reflexivity].
  apply (updateComponent_never_deletes mounted_instance).
  reflexivity.
Defined.

(** *** Props, attrs and their fall-through *)

Lemma assign_all_lookup c l : NoDup l.*1 -> forall inst key,
  i_props (foldl (assign c) inst l) !! key
  = match (list_to_map l : gmap string value) !! key with
    | Some v => if isDeclared c key then Some v else i_props inst !! key
    | None => i_props inst !! key
    end
  /\ i_attrs (foldl (assign c) inst l) !! key
     = match (list_to_map l : gmap string value) !! key with
       | Some v => if isDeclared c key then i_attrs inst !! key else Some v
       | None => i_attrs inst !! key
       end.
Proof.
  induction l as [|[k v] l IH]; intros Hnd inst key; [done|].
  rewrite fmap_cons in Hnd. apply NoDup_cons in Hnd as [Hk Hnd].
  cbn [foldl list_to_map foldr uncurry fst snd].
  destruct (decide (key = k)) as [->|Hne].
  - rewrite lookup_insert_eq.
    destruct (assign_all_other c l (assign c inst (k, v)) k Hk) as [-> ->].
    simpl. destruct (isDeclared c k); simpl; by rewrite lookup_insert_eq.
  - rewrite lookup_insert_ne by done.
    destruct (IH Hnd (assign c inst (k, v)) key) as [-> ->].
    destruct (assign_other c inst (k, v) key Hne) as [-> ->]. done.
Qed.

(** X19.  [updateProps], for a vnode whose props are distinct keys.  A key
    the vnode passes goes to the instance's props when the component
    declares it and to the instance's attrs when it does not, with the value
    passed; in the other of the two, and for a key the vnode does not pass,
    the instance keeps what it had. *)
Theorem updateProps_sorts_what_is_passed (inst : Instance) (vnode : ComponentVnode)
    (key : string) :
  NoDup (passed vnode) ->
  i_props (updateProps inst vnode) !! key
  = match passed_value vnode key with
    | Some v => if isDeclared (type vnode) key then Some v else i_props inst !! key
    | None => i_props inst !! key
    end
  /\ i_attrs (updateProps inst vnode) !! key
     = match passed_value vnode key with
       | Some v => if isDeclared (type vnode) key then i_attrs inst !! key else Some v
       | None => i_attrs inst !! key
       end.
Proof.
  intros Hnd. destruct (updateProps_unfold inst vnode) as [-> ->].
  by apply assign_all_lookup.
Qed.

Lemma updateProps_sorts_what_is_passed_witness :
  let vnode := CVnode titled (Some [("title"%string, VStr "a"); ("id"%string, VStr "x")]) in
  (i_props (updateProps newInstance vnode) !! "title"%string = Some (VStr "a")
   /\ i_attrs (updateProps newInstance vnode) !! "title"%string = None)
  /\ (i_props (updateProps newInstance vnode) !! "id"%string = None
      /\ i_attrs (updateProps newInstance vnode) !! "id"%string = Some (VStr "x")).
Proof.
  split.
  - apply (updateProps_sorts_what_is_passed newInstance
             (CVnode titled (Some [("title"%string, VStr "a"); ("id"%string, VStr "x")]))
             "title"%string).
    refine (bool_decide_unpack _ _). vm_compute. exact I.
  - apply (updateProps_sorts_what_is_passed newInstance
             (CVnode titled (Some [("title"%string, VStr "a"); ("id"%string, VStr "x")]))
             "id"%string).
    refine (bool_decide_unpack _ _). vm_compute. exact I.
Defined.

Lemma filter_agree {A} (P1 P2 : A -> Prop) `{!forall x, Decision (P1 x)}
    `{!forall x, Decision (P2 x)} (l : list A) :
  (forall x, x ∈ l -> (P1 x <-> P2 x)) -> filter P1 l = filter P2 l.
Proof.
  induction l as [|x l IH]; intros Hl; [done|].
  rewrite !filter_cons. rewrite IH by (intros; apply Hl; by right).
  destruct (decide (P1 x)) as [H1|H1], (decide (P2 x)) as [H2|H2]; try done;
    exfalso; apply (Hl x) in H1 || apply (Hl x) in H2; try done; by left.
Qed.

Lemma assign_reactive c inst kv : i_props_reactive (assign c inst kv) = i_props_reactive inst.
Proof. destruct kv as [k v]. simpl. by destruct (isDeclared c k). Qed.

Lemma assign_all_triggered c l : NoDup l.*1 -> forall inst,
  i_triggered (foldl (assign c) inst l)
  = i_triggered inst ++ (filter (fun kv => changed_declared inst c kv = true) l).*1.
Proof.
  induction l as [|[k v] l IH]; intros Hnd inst; [by rewrite app_nil_r|].
  rewrite fmap_cons in Hnd. apply NoDup_cons in Hnd as [Hk Hnd].
  cbn [foldl]. rewrite (IH Hnd).
  assert (filter (fun kv => changed_declared (assign c inst (k, v)) c kv = true) l
          = filter (fun kv => changed_declared inst c kv = true) l) as ->.
  { apply filter_agree. intros [k' v'] Hin. unfold changed_declared.
    rewrite assign_reactive. unfold getProp. cbn [fst snd].
    assert (k' ≠ k) as Hne.
    { intros ->. apply Hk. apply list_elem_of_fmap. by exists (k, v'). }
    destruct (assign_other c inst (k, v) k' Hne) as [-> _]. done. }
  rewrite filter_cons.
  generalize (filter (fun kv => changed_declared inst c kv = true) l). intros rest.
  unfold changed_declared. cbn [fst snd assign].
  destruct (isDeclared c k) eqn:Hd, (i_props_reactive inst) eqn:Hr,
    (hasChanged (getProp (i_props inst) k) v) eqn:Hc;
    cbn [i_triggered setInstanceProp setInstanceAttr]; rewrite ?Hr, ?Hc; simpl;
    rewrite <- ?app_assoc; done.
Qed.

(** X20.  The writes of [updateProps] that notify the subscribers of the
    instance's props: those to keys the component declares, once the props
    are reactive, whose value passed differs from the value held (as
    [hasChanged] tells), in the order of the vnode's props.  Writes to attrs
    notify nobody. *)
Theorem updateProps_triggers_changed_props (inst : Instance) (vnode : ComponentVnode) :
  NoDup (passed vnode) ->
  i_triggered (updateProps inst vnode)
  = i_triggered inst
    ++ (filter (fun kv => changed_declared inst (type vnode) kv = true)
               (default [] (props vnode))).*1.
Proof. intros Hnd. unfold updateProps. cbn [i_triggered]. by apply assign_all_triggered. Qed.

(** X21.  A component mounted with a prop it has not declared hands it to
    the root of what it renders, unless the root sets a prop of that name
    itself; a prop it has declared is not handed on.  The root keeps its own
    key. *)
Theorem undeclared_props_fall_through (vnode : ComponentVnode) (subTree : Renderer.vnode)
    (key : string) (v : value) :
  NoDup (passed vnode) ->
  passed_value vnode key = Some v ->
  let inst := updateProps newInstance vnode in
  prop_of (fallThrough inst subTree) key
  = match prop_of subTree key with
    | Some own => Some own
    | None => if isDeclared (type vnode) key then None else Some v
    end
  /\ Renderer.vn_key (fallThrough inst subTree) = Renderer.vn_key subTree.
Proof.
  intros Hnd Hv inst.
  assert (i_attrs inst !! key = if isDeclared (type vnode) key then None else Some v) as Hattr.
  { unfold inst. destruct (updateProps_unfold newInstance vnode) as [_ ->].
    destruct (assign_all_lookup (type vnode) (default [] (props vnode)) Hnd newInstance key)
      as [_ ->].
    unfold passed_value in Hv. rewrite Hv. by destruct (isDeclared (type vnode) key). }
  clearbody inst. unfold fallThrough. case_bool_decide as Hempty.
  - split; [|done]. destruct (prop_of subTree key); [done|].
    rewrite Hempty, lookup_empty in Hattr. by destruct (isDeclared (type vnode) key).
  - destruct subTree as [t p c f k]. split; [|done].
    unfold prop_of. cbn [Renderer.vn_props mbind option_bind]. rewrite lookup_union.
    destruct p as [p|]; simpl.
    + rewrite Hattr. destruct (p !! key); by destruct (isDeclared (type vnode) key).
    + rewrite lookup_empty, Hattr. by destruct (isDeclared (type vnode) key).
Qed.

Lemma undeclared_props_fall_through_witness :
  let vnode := CVnode titled (Some [("title"%string, VStr "a"); ("id"%string, VStr "x")]) in
  let inst := updateProps newInstance vnode in
  let root := Renderer.h (Renderer.TTag "div") None Renderer.ChNull in
  prop_of (fallThrough inst root) "id"
  = match prop_of root "id" with
    | Some own => Some own
    | None => if isDeclared (type vnode) "id" then None else Some (VStr "x")
    end
  /\ Renderer.vn_key (fallThrough inst root) = Renderer.vn_key root.
Proof.
  apply (undeclared_props_fall_through
           (CVnode titled (Some [("title"%string, VStr "a"); ("id"%string, VStr "x")]))
           (Renderer.h (Renderer.TTag "div") None Renderer.ChNull) "id" (VStr "x")).
  - refine (bool_decide_unpack _ _). vm_compute. exact I.
  - reflexivity.
Defined.

Lemma updateProps_triggers_changed_props_witness :
  let vnode := CVnode titled (Some [("title"%string, VStr "b"); ("id"%string, VStr "y")]) in
  i_triggered (updateProps mounted_instance vnode)
  = i_triggered mounted_instance
    ++ (filter (fun kv => changed_declared mounted_instance (type vnode) kv = true)
               (default [] (props vnode))).*1.
Proof.
  apply (updateProps_triggers_changed_props mounted_instance
           (CVnode titled (Some [("title"%string, VStr "b"); ("id"%string, VStr "y")]))).
  refine (bool_decide_unpack _ _). vm_compute. exact I.
Defined.

(** The update above at work: the declared prop that changed is the one
    write that reaches [trigger]. *)
Lemma update_triggers_title_only :
  i_triggered (updateProps mounted_instance
                 (CVnode titled (Some [("title"%string, VStr "b"); ("id"%string, VStr "y")])))
  = ["title"%string].
Proof. vm_compute. reflexivity. Qed.

End ComponentProofs.

(** ** Reactivity *)

Module ReactivityProofs.
Import Reactivity.

(** *** The dependency graph *)

(** [track] writes the graph's set and nothing else: the effect's own
    list of dependencies stays as it was. *)
Lemma track_effects t k s : effects (track t k s) = effects s.
Proof. unfold track. by destruct (activeEffect s). Qed.


Lemma deps_add_elem e deps : e ∈ set_add e deps.
Proof. unfold set_add. case_bool_decide; [done|]. set_solver. Qed.

Lemma deps_add_mono e e' deps : e' ∈ deps -> e' ∈ set_add e deps.
Proof. unfold set_add. case_bool_decide; [done|]. set_solver. Qed.

Lemma track_deps_mono t k s t' k' e :
  e ∈ deps_of s t' k' -> e ∈ deps_of (track t k s) t' k'.
Proof.
  unfold track. destruct (activeEffect s) as [a|]; [|done].
  unfold deps_of at 2. simpl.
  destruct (decide ((t, k) = (t', k'))) as [[= <- <-]|Hne].
  - rewrite lookup_insert_eq. simpl. apply deps_add_mono.
  - by rewrite lookup_insert_ne.
Qed.

Lemma track_deps_active t k s e :
  activeEffect s = Some e -> e ∈ deps_of (track t k s) t k.
Proof.
  intros Ha. unfold track. rewrite Ha. unfold deps_of at 1. simpl.
  rewrite lookup_insert_eq. simpl. apply deps_add_elem.
Qed.


(** C1, evaluated on the code.  The effect reads [flag] and [a] on its
    first run.  After [flag = false] it reruns and reads [flag] and [b]
    only, yet it is still in the set of [a]: [track] never recorded
    that set in the effect's [deps] (the list is empty), so [clean] had
    nothing to remove the effect from.  A write to [a] then reruns the
    effect although its last run did not read [a]. *)
Theorem effect_stays_in_stale_dependency_set :
  exists a e s,
    conditional_reads = Ok (a, e, s)
    /\ log s = [EvRun e; EvTrigger (TObj a) (KName "flag"); EvRun e]
    /\ e ∈ deps_of s (TObj a) (KName "b")
    /\ e ∈ deps_of s (TObj a) (KName "a")
    /\ (e_deps <$> effects s !! e) = Some []
    /\ (log <$> (snd <$> main (Put a (KName "a") (VNum 5) (Ret VUndef)) 10 s))
       = Ok (log s ++ [EvTrigger (TObj a) (KName "a"); EvRun e]).
Proof.
  eexists _, _, _. split; [vm_compute; reflexivity|].
  repeat split; try (vm_compute; reflexivity).
  - vm_compute. set_solver.
  - vm_compute. set_solver.
Qed.

(** *** Dependency sets never lose a member *)

Lemma grows_refl s : grows s s.
Proof. by split. Qed.

Lemma grows_trans s1 s2 s3 : grows s1 s2 -> grows s2 s3 -> grows s1 s3.
Proof. intros [E1 D1] [E2 D2]. split; [congruence|auto]. Qed.

Lemma grows_free s s' : grows s s' -> deps_free s -> deps_free s'.
Proof. intros [E _] Hf e r. rewrite E. apply Hf. Qed.

Lemma grows_same s s' :
  effects s' = effects s -> targetMap s' = targetMap s -> grows s s'.
Proof. intros E T. split; [done|]. unfold deps_of. by rewrite T. Qed.

Lemma track_grows t k s : grows s (track t k s).
Proof. split; [apply track_effects|]. intros. by apply track_deps_mono. Qed.

Lemma clean_free e s : deps_free s -> clean e s = s.
Proof.
  intros Hf. unfold clean. destruct (effects s !! e) as [r|] eqn:He; [|done].
  by rewrite (Hf e r He).
Qed.

Lemma deps_free_eq s s' : effects s' = effects s -> deps_free s -> deps_free s'.
Proof. intros E Hf e r. rewrite E. apply Hf. Qed.

Ltac grows_same := apply grows_same; reflexivity.
Ltac free_from H :=
  match type of H with
  | grows _ ?x => apply (deps_free_eq x); [reflexivity|]; eapply grows_free; [exact H|]; done
  end.

Section Calls.
Variable fuel : nat.
Variable call : task -> store -> result (value * store).
Hypothesis call_grows :
  forall t s v s', deps_free s -> call t s = Ok (v, s') -> grows s s'.

Lemma trigger_grows t k s s' :
  deps_free s -> trigger call t k s = Ok s' -> grows s s'.
Proof.
  intros Hf. unfold trigger. simpl targetMap.
  destruct (targetMap s !! (t, k)); [|intros [= <-]; grows_same].
  destruct (call _ _) as [[v s1]| |] eqn:Hc; [|done|done]. intros [= <-].
  apply call_grows in Hc; [|done]. eapply grows_trans; [|exact Hc]. grows_same.
Qed.

Lemma proxy_get_grows a k s v s' : proxy_get a k s = Ok (v, s') -> grows s s'.
Proof.
  unfold proxy_get. destruct (heap s !! a); [|done].
  case_bool_decide; intros [= <- <-]; [apply grows_refl|apply track_grows].
Qed.

Lemma ref_get_grows r s v s' : ref_get r s = Ok (v, s') -> grows s s'.
Proof.
  unfold ref_get. destruct (refs s !! r); [|done]. intros [= <- <-]. apply track_grows.
Qed.

Lemma proxy_set_grows a k v s s' :
  deps_free s -> proxy_set call a k v s = Ok s' -> grows s s'.
Proof.
  intros Hf. unfold proxy_set. destruct (heap s !! a) as [o|]; [|done].
  destruct (reflect_set o k v) as [o'| |]; [|done|done]. cbn [mbind result_bind].
  set (s1 := with_heap _ s). assert (H1 : grows s s1) by grows_same.
  destruct (hasChanged _ _); [|by intros [= <-]].
  destruct (trigger call (TObj a) k s1) as [s2| |] eqn:Ht; [|done|done].
  cbn [mbind result_bind].
  apply trigger_grows in Ht; [|by eapply grows_free].
  assert (H2 : grows s s2) by (by eapply grows_trans).
  destruct (heap s2 !! a) as [o''|]; [|by intros [= <-]].
  destruct (_ && _); [|by intros [= <-]].
  intros Ht2. apply trigger_grows in Ht2; [|by eapply grows_free].
  by eapply grows_trans.
Qed.

Lemma ref_set_grows r v s s' :
  deps_free s -> ref_set call r v s = Ok s' -> grows s s'.
Proof.
  intros Hf. unfold ref_set. destruct (refs s !! r); [|done].
  destruct (hasChanged _ _); [|intros [= <-]; apply grows_refl].
  intros Ht. apply trigger_grows in Ht; [|done]. eapply grows_trans; [|exact Ht]. grows_same.
Qed.

Lemma computed_get_grows c s v s' :
  deps_free s -> computed_get call c s = Ok (v, s') -> grows s s'.
Proof.
  intros Hf. unfold computed_get. destruct (computeds s !! c) as [cr|]; [|done].
  destruct (c_dirty cr); [|intros [= <- <-]; apply grows_refl].
  destruct (call _ _) as [[v1 s1]| |] eqn:Hc; [|done|done]. cbn [mbind result_bind].
  apply call_grows in Hc; [|done].
  destruct (computeds s1 !! c); [|done]. intros [= <- <-].
  eapply grows_trans; [exact Hc|]. eapply grows_trans; [|apply track_grows]. grows_same.
Qed.

Lemma computed_set_grows c v s s' :
  deps_free s -> computed_set call c v s = Ok s' -> grows s s'.
Proof.
  intros Hf. unfold computed_set.
  destruct (call _ _) as [[v1 s1]| |] eqn:Hc; [|done|done]. intros [= <-].
  by apply call_grows in Hc.
Qed.

Lemma onInvalidate_grows o fn s s' : onInvalidate o fn s = Ok s' -> grows s s'.
Proof.
  unfold onInvalidate. destruct o as [|w|w]; [done| |].
  - simpl. destruct (watchers s !! w); [|done]. intros [= <-]. grows_same.
  - simpl. destruct (watchEffects s !! w); [|done]. intros [= <-]. grows_same.
Qed.

Lemma exec_grows o c : forall s v s',
  deps_free s -> exec call o c s = Ok (v, s') -> grows s s'.
Proof.
  induction c as [v0|a k cont IH|a k v0 cont IH|r cont IH|r v0 cont IH|c0 cont IH
                  |c0 v0 cont IH|fn _ cont IH|tag cont IH]; intros s v s' Hf; simpl.
  - intros [= <- <-]. apply grows_refl.
  - destruct (proxy_get a k s) as [[v1 s1]| |] eqn:H1; [|done|done]. cbn [mbind result_bind].
    apply proxy_get_grows in H1. intros H2. apply IH in H2; [|by eapply grows_free].
    by eapply grows_trans.
  - destruct (proxy_set call a k v0 s) as [s1| |] eqn:H1; [|done|done]. cbn [mbind result_bind].
    apply proxy_set_grows in H1; [|done]. intros H2. apply IH in H2; [|by eapply grows_free].
    by eapply grows_trans.
  - destruct (ref_get r s) as [[v1 s1]| |] eqn:H1; [|done|done]. cbn [mbind result_bind].
    apply ref_get_grows in H1. intros H2. apply IH in H2; [|by eapply grows_free].
    by eapply grows_trans.
  - destruct (ref_set call r v0 s) as [s1| |] eqn:H1; [|done|done]. cbn [mbind result_bind].
    apply ref_set_grows in H1; [|done]. intros H2. apply IH in H2; [|by eapply grows_free].
    by eapply grows_trans.
  - destruct (computed_get call c0 s) as [[v1 s1]| |] eqn:H1; [|done|done].
    cbn [mbind result_bind].
    apply computed_get_grows in H1; [|done]. intros H2. apply IH in H2; [|by eapply grows_free].
    by eapply grows_trans.
  - destruct (computed_set call c0 v0 s) as [s1| |] eqn:H1; [|done|done].
    cbn [mbind result_bind].
    apply computed_set_grows in H1; [|done]. intros H2. apply IH in H2; [|by eapply grows_free].
    by eapply grows_trans.
  - destruct (onInvalidate o fn s) as [s1| |] eqn:H1; [|done|done]. cbn [mbind result_bind].
    apply onInvalidate_grows in H1. intros H2. apply IH in H2; [|by eapply grows_free].
    by eapply grows_trans.
  - intros H2. apply IH in H2; [|done]. eapply grows_trans; [|exact H2]. grows_same.
Qed.

Lemma traverse_grows n : forall v seen s v' seen' s',
  traverse n v seen s = Ok (v', seen', s') -> grows s s'.
Proof.
  induction n as [|n IH]; intros v seen s v' seen' s'; simpl; [done|].
  destruct v; try (intros [= <- <- <-]; apply grows_refl).
  - destruct (proxy_get a (KName "__isRef") s) as [[flag s1]| |] eqn:H1; [|done|done].
    cbn [mbind result_bind]. apply proxy_get_grows in H1.
    destruct (truthy flag).
    + destruct (proxy_get a kvalue s1) as [[inner s2]| |] eqn:H2; [|done|done].
      cbn [mbind result_bind]. apply proxy_get_grows in H2.
      intros H3. apply IH in H3. eapply grows_trans; [exact H1|]. by eapply grows_trans.
    + case_bool_decide; [by intros [= <- <- <-]|].
      destruct (heap s1 !! a) as [o|]; [|done].
      generalize (enumerable_keys o). intros keys.
      assert (Hfold : forall keys acc seen2 s2,
                 (forall seen1 s1', acc = Ok (seen1, s1') -> grows s1 s1') ->
                 foldl (fun acc key =>
                          '(seen, s) ← acc;
                          '(x, s) ← proxy_get a key s;
                          '(_, seen, s) ← traverse n x seen s;
                          Ok (seen, s)) acc keys = Ok (seen2, s2) ->
                 grows s1 s2).
      { clear -IH. induction keys as [|key keys IHk]; intros acc seen2 s2 Hacc; simpl.
        - intros ->. by eapply Hacc.
        - apply IHk. intros seen1 s1'.
          destruct acc as [[seen0 s0]| |]; [|done|done]. cbn [mbind result_bind].
          destruct (proxy_get a key s0) as [[x s3]| |] eqn:H1; [|done|done].
          cbn [mbind result_bind]. apply proxy_get_grows in H1.
          destruct (traverse n x seen0 s3) as [[[v3 seen3] s4]| |] eqn:H2; [|done|done].
          cbn [mbind result_bind]. apply IH in H2. intros [= <- <-].
          eapply grows_trans; [by eapply Hacc|]. by eapply grows_trans. }
      destruct (foldl _ _ keys) as [[seen2 s2]| |] eqn:Hf; [|done|done].
      cbn [mbind result_bind]. intros [= <- <- <-].
      eapply grows_trans; [exact H1|]. eapply Hfold; [|exact Hf].
      intros seen1 s1' [= <- <-]. apply grows_refl.
  - destruct (ref_get r s) as [[inner s1]| |] eqn:H1; [|done|done].
    cbn [mbind result_bind]. apply ref_get_grows in H1.
    intros H3. apply IH in H3. by eapply grows_trans.
Qed.

Lemma run_getter_grows g s v s' :
  deps_free s -> run_getter fuel call g s = Ok (v, s') -> grows s s'.
Proof.
  intros Hf. destruct g; simpl.
  - by apply exec_grows.
  - apply ref_get_grows.
  - apply proxy_get_grows.
  - destruct (traverse fuel v0 [] s) as [[[v1 seen1] s1]| |] eqn:H1; [|done|done].
    cbn [mbind result_bind]. intros [= <- <-]. by apply traverse_grows in H1.
  - intros [= <- <-]. apply grows_refl.
Qed.

Lemma run_body_grows b s v s' :
  deps_free s -> run_body fuel call b s = Ok (v, s') -> grows s s'.
Proof.
  intros Hf. destruct b as [c|w|w]; simpl.
  - by apply exec_grows.
  - destruct (watchers s !! w) as [wr|]; [|done].
    destruct (w_impl wr); [intros [= <- <-]; apply grows_refl|by apply run_getter_grows].
  - destruct (watchEffects s !! w) as [wr|]; [|done].
    intros H. apply exec_grows in H; [|done]. eapply grows_trans; [|exact H]. grows_same.
Qed.

Lemma effectFn_grows e s v s' :
  deps_free s -> effectFn fuel call e s = Ok (v, s') -> grows s s'.
Proof.
  intros Hf. unfold effectFn. destruct (effects s !! e) as [r|]; [|done].
  rewrite (clean_free e s Hf).
  destruct (run_body _ _ _ _) as [[res s1]| |] eqn:H1; [|done|done].
  cbn [mbind result_bind]. intros [= <- <-].
  apply run_body_grows in H1; [|done].
  eapply grows_trans; [|eapply grows_trans; [exact H1|]]; grows_same.
Qed.

Lemma watch_job_grows w s s' :
  deps_free s -> watch_job call w s = Ok s' -> grows s s'.
Proof.
  intros Hf. unfold watch_job. destruct (watchers s !! w) as [wr|]; [|done].
  destruct (call _ s) as [[newVal s1]| |] eqn:H1; [|done|done]. cbn [mbind result_bind].
  apply call_grows in H1; [|done].
  destruct (watchers s1 !! w) as [wr1|]; [|done]. cbn [from_option mbind result_bind].
  set (s2 := with_watchers _ s1).
  assert (H2 : grows s s2) by (eapply grows_trans; [exact H1|grows_same]).
  assert (H3 : forall s3,
             match w_cleanUp wr1 with
             | Some fn => '(_, s) ← exec call (OfWatch w) fn (emit (EvCleanup (OfWatch w)) s2); Ok s
             | None => Ok s2
             end = Ok s3 -> grows s s3).
  { intros s3. destruct (w_cleanUp wr1) as [fn|]; [|by intros [= <-]].
    destruct (exec _ _ _ _) as [[v3 s3']| |] eqn:H3; [|done|done]. intros [= <-].
    apply exec_grows in H3; [|free_from H2].
    eapply grows_trans; [exact H2|]. eapply grows_trans; [|exact H3]. grows_same. }
  destruct (match w_cleanUp wr1 with Some _ => _ | None => _ end) as [s3| |];
    [|done|done].
  specialize (H3 s3 eq_refl). cbn [mbind result_bind].
  destruct (watchers s3 !! w) as [wr3|]; [|done]. cbn [from_option mbind result_bind].
  destruct (exec _ _ _ _) as [[v4 s4]| |] eqn:H4; [|done|done]. cbn [mbind result_bind].
  apply exec_grows in H4; [|free_from H3].
  destruct (watchers s4 !! w) as [wr4|]; [|done]. cbn [from_option mbind result_bind].
  intros [= <-].
  eapply grows_trans; [exact H3|]. eapply grows_trans; [|eapply grows_trans; [exact H4|]];
    grows_same.
Qed.

Lemma watchEffect_job_grows w s s' :
  deps_free s -> watchEffect_job call w s = Ok s' -> grows s s'.
Proof.
  intros Hf. unfold watchEffect_job. destruct (watchEffects s !! w) as [wr|]; [|done].
  assert (H3 : forall s3,
             match we_cleanUp wr with
             | Some fn =>
                 '(_, s) ← exec call (OfWatchEffect w) fn (emit (EvCleanup (OfWatchEffect w)) s);
                 Ok s
             | None => Ok s
             end = Ok s3 -> grows s s3).
  { intros s3. destruct (we_cleanUp wr) as [fn|]; [|by intros [= <-]].
    destruct (exec _ _ _ _) as [[v3 s3']| |] eqn:H3; [|done|done]. intros [= <-].
    apply exec_grows in H3; [|by apply (deps_free_eq s)].
    eapply grows_trans; [|exact H3]. grows_same. }
  destruct (match we_cleanUp wr with Some _ => _ | None => _ end) as [s3| |];
    [|done|done].
  specialize (H3 s3 eq_refl). cbn [mbind result_bind].
  destruct (watchEffects s3 !! w) as [wr3|]; [|done]. cbn [from_option mbind result_bind].
  destruct (exec _ _ _ _) as [[v4 s4]| |] eqn:H4; [|done|done]. cbn [mbind result_bind].
  apply exec_grows in H4; [|free_from H3].
  intros [= <-].
  eapply grows_trans; [exact H3|]. eapply grows_trans; [|exact H4]. grows_same.
Qed.

Lemma run_scheduler_grows sch s s' :
  deps_free s -> run_scheduler call sch s = Ok s' -> grows s s'.
Proof.
  intros Hf. destruct sch as [c|w|w]; simpl.
  - destruct (computeds s !! c) as [cr|]; [|done].
    destruct (c_dirty cr); [intros [= <-]; apply grows_refl|].
    intros H. apply trigger_grows in H; [|done]. eapply grows_trans; [|exact H]. grows_same.
  - destruct (watchers s !! w) as [wr|]; [|done].
    destruct (w_post wr); [intros [= <-]; grows_same|by apply watch_job_grows].
  - by apply watchEffect_job_grows.
Qed.

Lemma trigger_from_grows t k i s s' :
  deps_free s -> trigger_from call t k i s = Ok s' -> grows s s'.
Proof.
  intros Hf. unfold trigger_from. destruct (deps_of s t k !! i) as [e|]; [|by intros [= <-]].
  assert (H1 : forall s1,
             match effects s !! e with
             | Some r =>
                 match e_scheduler r with
                 | Some sch => run_scheduler call sch (emit (EvScheduler e) s)
                 | None => '(_, s) ← call (TEffect e) s; Ok s
                 end
             | None => Throw TypeError
             end = Ok s1 -> grows s s1).
  { intros s1. destruct (effects s !! e) as [r|]; [|done].
    destruct (e_scheduler r) as [sch|].
    - intros H. apply run_scheduler_grows in H; [|done].
      eapply grows_trans; [|exact H]. grows_same.
    - destruct (call _ s) as [[v1 s1']| |] eqn:H; [|done|done]. intros [= <-].
      by apply call_grows in H. }
  destruct (match effects s !! e with Some _ => _ | None => _ end) as [s1| |];
    [|done|done].
  specialize (H1 s1 eq_refl). cbn [mbind result_bind].
  destruct (call _ s1) as [[v2 s2]| |] eqn:H2; [|done|done]. intros [= <-].
  apply call_grows in H2; [|by eapply grows_free]. by eapply grows_trans.
Qed.

Lemma step_grows t s v s' :
  deps_free s -> step fuel call t s = Ok (v, s') -> grows s s'.
Proof.
  intros Hf. destruct t as [e|t k i|c v0]; simpl.
  - by apply effectFn_grows.
  - destruct (trigger_from call t k i s) as [s1| |] eqn:H; [|done|done]. intros [= <- <-].
    by apply trigger_from_grows in H.
  - destruct (computeds s !! c) as [cr|]; [|done].
    destruct (c_setter cr); [by apply exec_grows|]. intros [= <- <-]. grows_same.
Qed.

End Calls.

(** Whatever runs, no effect is ever taken out of a dependency set: the
    sets only grow. *)
Lemma run_grows fuel : forall t s v s',
  deps_free s -> run fuel t s = Ok (v, s') -> grows s s'.
Proof.
  induction fuel as [|n IH]; intros t s v s' Hf; simpl; [done|].
  by apply step_grows.
Qed.

(** So it is for the code of the application outside any callback, and
    the stores the library builds keep the effects' lists empty. *)
Lemma main_grows c fuel s v s' :
  deps_free s -> main c fuel s = Ok (v, s') -> grows s s'.
Proof. intros Hf. apply exec_grows; [|done]. apply run_grows. Qed.

Lemma empty_store_deps_free : deps_free empty_store.
Proof. intros e r. simpl. by rewrite lookup_empty. Qed.

Lemma effect_deps_free fn lazy sch fuel s e s' :
  deps_free s -> effect fn lazy sch fuel s = Ok (e, s') -> deps_free s'.
Proof.
  intros Hf. unfold effect.
  set (s1 := with_effects _ s).
  assert (Hf1 : deps_free s1).
  { intros e1 r1. simpl. rewrite lookup_insert. case_decide; [|apply Hf].
    by intros [= <-]. }
  destruct lazy; [by intros [= <- <-]|].
  destruct (run fuel _ s1) as [[v s2]| |] eqn:Hr; [|done|done]. intros [= <- <-].
  apply run_grows in Hr; [|done]. by eapply grows_free.
Qed.

(** *** Writes that change nothing *)

(** C7.  A write of a value for which [hasChanged] is false, through a
    reactive proxy or to a ref's [.value], performs the write and returns:
    [trigger] is not called and no subscriber runs, whatever the library
    would do on a call back ([call] is never used).  This is so even when
    the write changes the length of an array. *)
Theorem unchanged_write_never_triggers
    (call : task -> store -> result (value * store)) (s : store) (v : value) :
  (forall a k o, heap s !! a = Some o ->
     hasChanged (reflect_get o k) v = false ->
     proxy_set call a k v s
     = (o' ← reflect_set o k v; Ok (with_heap (<[a := o']> (heap s)) s)))
  /\ (forall a k o s', heap s !! a = Some o ->
        hasChanged (reflect_get o k) v = false ->
        proxy_set call a k v s = Ok s' ->
        log s' = log s /\ targetMap s' = targetMap s /\ effects s' = effects s)
  /\ (forall r old, refs s !! r = Some old ->
        hasChanged old v = false ->
        ref_set call r v s = Ok s).
Proof.
  split; [|split].
  - intros a k o Ho Hc. unfold proxy_set. rewrite Ho.
    destruct (reflect_set o k v); simpl; [|done|done]. by rewrite Hc.
  - intros a k o s' Ho Hc. unfold proxy_set. rewrite Ho.
    destruct (reflect_set o k v); simpl; [|done|done]. rewrite Hc.
    by intros [= <-].
  - intros r old Hr Hc. unfold ref_set. by rewrite Hr, Hc.
Qed.

(** The theorem at work, on the array [[1, 2, 3]] whose length an effect
    has read: [proxy[5] = undefined] writes the value that index 5 already
    reads as, so nothing is triggered, although the length goes from 3 to
    6; and writing 2 to a ref that holds 2 leaves the store as it is. *)
Lemma unchanged_write_never_triggers_witness :
  deps_of watched_array (TObj 0) klength = [0%nat]
  /\ (exists s', proxy_set (run 10) 0 (KIdx 5) VUndef watched_array = Ok s'
                 /\ (array_length <$> heap watched_array !! 0%nat) = Some 3%nat
                 /\ (array_length <$> heap s' !! 0%nat) = Some 6%nat
                 /\ log s' = log watched_array
                 /\ targetMap s' = targetMap watched_array
                 /\ effects s' = effects watched_array)
  /\ ref_set (run 10) 0 (VNum 2) (ref (VNum 2) watched_array).2
     = Ok (ref (VNum 2) watched_array).2.
Proof.
  destruct (unchanged_write_never_triggers (run 10) watched_array VUndef)
    as (Hset & Hlog & _).
  destruct (unchanged_write_never_triggers (run 10) (ref (VNum 2) watched_array).2 (VNum 2))
    as (_ & _ & Href).
  split; [reflexivity|]. split.
  - eexists. split.
    { rewrite (Hset 0%nat (KIdx 5) three_items) by reflexivity. reflexivity. }
    split; [reflexivity|]. split; [vm_compute; reflexivity|].
    apply (Hlog 0%nat (KIdx 5) three_items); reflexivity.
  - apply (Href 0%nat (VNum 2)); reflexivity.
Defined.

(** The model does trigger when there is a change: writing 4 at index 5
    of the watched array [[1, 2, 3]] triggers the key and, the length having
    gone from 3 to 6, the length, whose reader runs again. *)
Lemma changed_write_triggers_length :
  (log <$> proxy_set (run 10) 0 (KIdx 5) (VNum 4) watched_array)
  = Ok (log watched_array
          ++ [EvTrigger (TObj 0) (KIdx 5); EvTrigger (TObj 0) klength; EvRun 0]).
Proof. vm_compute. reflexivity. Qed.

(** *** watch *)

(** The [watch] of src/reactivity/watch.ts, whatever its source: the old
    value it stores at subscription time is the getter function itself.
    The getter is not called, so nothing is tracked. *)
Lemma watch_ts_stores_the_getter src cb post n s :
  exists w s',
    watch WatchTs src cb false post (S n) s = Ok (w, s')
    /\ (w_oldVal <$> watchers s' !! w) = Some (VFun (getter_name w src))
    /\ targetMap s' = targetMap s
    /\ log s' = log s ++ [EvRun (fresh (dom (effects s)))].
Proof.
  unfold watch.
  assert (Hn : exists g, normalize WatchTs src s = Ok (g, s)).
  { destruct src; simpl; eauto. }
  destruct Hn as [g ->].
  cbn [mbind result_bind effect].
  set (e := fresh (dom (effects s))).
  set (w0 := fresh (dom (watchers s))).
  cbn [run step]. unfold effectFn. simpl effects. rewrite lookup_insert_eq.
  unfold clean. simpl effects. rewrite lookup_insert_eq. cbn [e_deps foldl e_fn run_body].
  simpl watchers. rewrite lookup_insert_eq. cbn [w_impl w_getter_name mbind result_bind].
  simpl watchers. rewrite lookup_insert_eq. cbn [from_option mbind result_bind].
  eexists _, _. split; [done|]. simpl. by rewrite lookup_insert_eq.
Qed.

(** The corrected [watch]: the old value stored at subscription time is
    what the getter returned, called within the run of the effect. *)
Lemma watch_fixed_stores_the_getter_value src cb post n s w s' :
  watch WatchFixed src cb false post (S n) s = Ok (w, s') ->
  exists g s0 s1 v s2,
    normalize WatchFixed src s = Ok (g, s0)
    /\ activeEffect s1 = Some (fresh (dom (effects s0)))
    /\ run_getter n (run n) g s1 = Ok (v, s2)
    /\ (w_oldVal <$> watchers s' !! w) = Some v.
Proof.
  unfold watch. destruct (normalize WatchFixed src s) as [[g s0]| |] eqn:Hn; [|done|done].
  cbn [mbind result_bind effect]. 
  set (e := fresh (dom (effects s0))).
  set (w0 := fresh (dom (watchers s))).
  cbn [run step]. unfold effectFn. simpl effects. rewrite lookup_insert_eq.
  unfold clean. simpl effects. rewrite lookup_insert_eq. cbn [e_deps foldl e_fn run_body].
  simpl watchers. rewrite lookup_insert_eq. cbn [w_impl w_getter].
  match goal with |- context [run_getter n (run n) g ?x] => set (s1 := x) end.
  destruct (run_getter n (run n) g s1) as [[v s2]| |] eqn:Hg; [|done|done].
  cbn [mbind result_bind]. simpl watchers.
  destruct (watchers s2 !! w0) as [wr|] eqn:Hw; [|done].
  cbn [from_option mbind result_bind].
  intros [= <- <-].
  exists g, s0, s1, v, s2. split; [done|]. split; [done|]. split; [done|].
  simpl. by rewrite lookup_insert_eq.
Qed.


(** C6, evaluated on the code.  In src/reactivity/watch.ts the effect
    wraps [() => getter]: running it returns the getter, it does not call
    it.  So for [watch(() => count.value, cb)] with [count.value] being 1,
    the old value stored at subscription time is the getter function, not
    1; nothing is tracked, and the change to 2 calls no callback at all.
    The corrected copy of [watch], which wraps [() => getter()], stores 1
    and calls the callback with old value 1 and new value 2. *)
Theorem watch_ts_stores_the_getter_not_its_value :
  (exists w s0 s,
      watch_count WatchTs = Ok (w, s0, s)
      /\ (w_oldVal <$> watchers s0 !! w) = Some (VFun (FUser 7))
      /\ targetMap s0 = ∅
      /\ log s = [EvRun 0; EvTrigger (TRef 0) kvalue])
  /\ (exists w s0 s,
         watch_count WatchFixed = Ok (w, s0, s)
         /\ (w_oldVal <$> watchers s0 !! w) = Some (VNum 1)
         /\ deps_of s0 (TRef 0) kvalue = [0%nat]
         /\ log s = [EvRun 0; EvTrigger (TRef 0) kvalue; EvScheduler 0; EvRun 0;
                     EvCallback w (VNum 1) (VNum 2); EvLog "cb"]).
Proof.
  split; eexists _, _, _; (split; [vm_compute; reflexivity|]);
    repeat split; vm_compute; reflexivity.
Qed.

(** *** Calm callbacks *)

Lemma owner_kept_trans o s1 s2 s3 :
  owner_kept o s1 s2 -> owner_kept o s2 s3 -> owner_kept o s1 s3.
Proof.
  destruct o as [|w|w]; simpl; [done| |].
  - intros (wr & c1 & H1 & H2) (wr' & c2 & H3 & H4).
    rewrite H2 in H3. injection H3 as <-. simpl in H4. eauto.
  - intros (wr & c1 & H1 & H2) (wr' & c2 & H3 & H4).
    rewrite H2 in H3. injection H3 as <-. simpl in H4. eauto.
Qed.

Lemma owner_kept_self o s s' : owner_kept o s s' -> owner_kept o s' s'.
Proof.
  destruct o as [|w|w]; simpl; [done| |].
  - intros (wr & c' & H1 & H2). eauto.
  - intros (wr & c' & H1 & H2). eauto.
Qed.

Lemma calm_run_trans o s1 s2 s3 l1 l2 :
  calm_run o s1 s2 l1 -> calm_run o s2 s3 l2 -> calm_run o s1 s3 (l1 ++ l2).
Proof.
  intros [Hl1 He1 Hh1 Hr1 Hk1 Hp1 Hs1 Hi1] [Hl2 He2 Hh2 Hr2 Hk2 Hp2 Hs2 Hi2]. split.
  - rewrite Hl2, Hl1. by rewrite app_assoc.
  - by apply Forall_app.
  - congruence.
  - congruence.
  - by eapply owner_kept_trans.
  - auto.
  - intros Hn. rewrite not_elem_of_app in Hn. destruct Hn as [Hn1 Hn2].
    by rewrite (Hs2 Hn2), (Hs1 Hn1).
  - auto.
Qed.

Lemma track_calm_run o t k s : owner_kept o s s -> calm_run o s (track t k s) [].
Proof.
  intros Hk. unfold track.
  destruct (activeEffect s); split; simpl; rewrite ?app_nil_r; try done.
Qed.

Lemma emit_log_calm_run o tag s :
  owner_kept o s s -> calm_run o s (emit (EvLog tag) s) [EvLog tag].
Proof.
  intros Hk. split; simpl; try done.
  apply Forall_singleton. left. eauto.
Qed.

(** [onInvalidate(fn)] puts [fn] in the place of whatever cleanup was
    held: one is held at most, the one registered last. *)
Lemma onInvalidate_calm_run o fn s :
  owner_kept o s s -> calm (heap s) (refs s) fn ->
  exists s', onInvalidate o fn s = Ok s' /\ calm_run o s s' [EvOnInvalidate o]
             /\ cleanUp_of o s' = Some fn.
Proof.
  intros Hk Hfn. destruct o as [|w|w]; simpl in Hk; [done| |].
  - destruct Hk as (wr & c' & Hw & _). unfold onInvalidate. simpl. rewrite Hw.
    eexists. split; [done|]. split; [split|]; simpl; try done.
    + apply Forall_singleton. by right.
    + exists wr, (Some fn). by rewrite lookup_insert_eq.
    + intros _. unfold pending_calm. simpl. by rewrite lookup_insert_eq.
    + intros Hn. exfalso. apply Hn. set_solver.
    + intros _. by rewrite lookup_insert_eq.
    + by rewrite lookup_insert_eq.
  - destruct Hk as (wr & c' & Hw & _). unfold onInvalidate. simpl. rewrite Hw.
    eexists. split; [done|]. split; [split|]; simpl; try done.
    + apply Forall_singleton. by right.
    + exists wr, (Some fn). by rewrite lookup_insert_eq.
    + intros _. unfold pending_calm. simpl. by rewrite lookup_insert_eq.
    + intros Hn. exfalso. apply Hn. set_solver.
    + intros _. by rewrite lookup_insert_eq.
    + by rewrite lookup_insert_eq.
Qed.

(** A calm callback runs to its end, whatever the library would do on a
    call back. *)
Lemma exec_calm call o hp rf c :
  calm hp rf c ->
  forall s, heap s = hp -> refs s = rf -> owner_kept o s s ->
    exists v s' l, exec call o c s = Ok (v, s') /\ calm_run o s s' l.
Proof.
  induction 1 as [v|a k cont ob Ha Hc IH|r cont v Hr Hc IH|tag cont Hc IH|fn cont Hfn _ Hc IH];
    intros s Hhp Hrf Hk; simpl.
  - exists v, s, []. split; [done|]. split; rewrite ?app_nil_r; try done.
  - unfold proxy_get. rewrite Hhp, Ha. case_bool_decide; simpl.
    + destruct (IH s Hhp Hrf Hk) as (v & s' & l & -> & Hrun). eauto.
    + pose proof (track_calm_run o (TObj a) k s Hk) as H1.
      destruct (IH (track (TObj a) k s)) as (v & s' & l & -> & Hrun).
      { by rewrite (cr_heap _ _ _ _ H1). } { by rewrite (cr_refs _ _ _ _ H1). }
      { eapply owner_kept_self, (cr_kept _ _ _ _ H1). }
      exists v, s', ([] ++ l). split; [done|]. by eapply calm_run_trans.
  - unfold ref_get. rewrite Hrf, Hr. simpl.
    pose proof (track_calm_run o (TRef r) kvalue s Hk) as H1.
    destruct (IH (track (TRef r) kvalue s)) as (v' & s' & l & -> & Hrun).
    { by rewrite (cr_heap _ _ _ _ H1). } { by rewrite (cr_refs _ _ _ _ H1). }
    { eapply owner_kept_self, (cr_kept _ _ _ _ H1). }
    exists v', s', ([] ++ l). split; [done|]. by eapply calm_run_trans.
  - pose proof (emit_log_calm_run o tag s Hk) as H1.
    destruct (IH (emit (EvLog tag) s)) as (v' & s' & l & -> & Hrun); try done.
    exists v', s', ([EvLog tag] ++ l). split; [done|]. by eapply calm_run_trans.
  - destruct (onInvalidate_calm_run o fn s Hk) as (s1 & -> & H1 & _).
    { by rewrite Hhp, Hrf. }
    simpl. destruct (IH s1) as (v' & s' & l & -> & Hrun).
    { by rewrite (cr_heap _ _ _ _ H1). } { by rewrite (cr_refs _ _ _ _ H1). }
    { eapply owner_kept_self, (cr_kept _ _ _ _ H1). }
    exists v', s', ([EvOnInvalidate o] ++ l). split; [done|]. by eapply calm_run_trans.
Qed.







(** The job of the corrected [watch] does the same: registered once, the
    cleanup runs before the second and before the third callback. *)
Lemma watch_cleanup_runs_again_without_registration :
  exists w s,
    three_changes WatchFixed = Ok (w, s)
    /\ count_event (EvOnInvalidate (OfWatch w)) (log s) = 1%nat
    /\ count_event (EvCleanup (OfWatch w)) (log s) = 2%nat
    /\ ~ cleanups_run_once (OfWatch w) (log s).
Proof.
  eexists _, _. split; [vm_compute; reflexivity|].
  repeat split; try (vm_compute; reflexivity).
  unfold cleanups_run_once. vm_compute. lia.
Qed.

(** Why cleanup and callback are taken to be calm: a cleanup that writes
    what the watcher observes sets off the job again while it runs.  The
    cleanup called first is followed, not by the callback of its run, but
    by a second call of the cleanup and the callback of the run inside. *)
Lemma writing_cleanup_reenters_the_job :
  exists w s,
    cleanup_that_writes = Ok (w, s)
    /\ log s = [EvRun 0; EvEffectCallback w; EvOnInvalidate (OfWatchEffect w); EvLog "cb";
                EvTrigger (TRef 0) kvalue; EvScheduler 0;
                EvCleanup (OfWatchEffect w);
                EvTrigger (TRef 0) kvalue; EvScheduler 0;
                EvCleanup (OfWatchEffect w); EvLog "cleanup";
                EvEffectCallback w; EvOnInvalidate (OfWatchEffect w); EvLog "cb";
                EvLog "cleanup";
                EvEffectCallback w; EvOnInvalidate (OfWatchEffect w); EvLog "cb"].
Proof. eexists _, _. split; vm_compute; reflexivity. Qed.

(** *** computed *)

Lemma read_run_refl s : read_run s s [].
Proof. split; rewrite ?app_nil_r; try done. Qed.

Lemma read_run_trans s1 s2 s3 l1 l2 :
  read_run s1 s2 l1 -> read_run s2 s3 l2 -> read_run s1 s3 (l1 ++ l2).
Proof.
  intros [Hl1 He1 Hh1 Hr1 Hc1 Hf1 Ha1 Hs1 Hd1] [Hl2 He2 Hh2 Hr2 Hc2 Hf2 Ha2 Hs2 Hd2].
  split; try congruence.
  - rewrite Hl2, Hl1. by rewrite app_assoc.
  - by apply Forall_app.
  - auto.
Qed.

Lemma track_read_run t k s : read_run s (track t k s) [].
Proof.
  split; rewrite ?app_nil_r;
    try (unfold track; by destruct (activeEffect s) eqn:E).
  intros. by apply track_deps_mono.
Qed.

Lemma emit_log_read_run tag s : read_run s (emit (EvLog tag) s) [EvLog tag].
Proof. split; try done. apply Forall_singleton. by exists tag. Qed.

(** A getter that only reads runs to its end, whatever the library would do
    on a call back, and the effect in whose run it reads is then in the
    set of every (target, key) it read. *)
Lemma exec_reads call o hp rf g tks :
  reads hp rf g tks ->
  forall s, heap s = hp -> refs s = rf ->
    exists v s' l, exec call o g s = Ok (v, s') /\ read_run s s' l
      /\ forall e, activeEffect s = Some e ->
           forall tk, tk ∈ tks -> e ∈ deps_of s' tk.1 tk.2.
Proof.
  induction 1 as [v|a k cont ob tks Ha Hk Hc IH|r cont v tks Hr Hc IH|tag cont tks Hc IH];
    intros s Hhp Hrf; simpl.
  - exists v, s, []. split; [done|]. split; [apply read_run_refl|]. set_solver.
  - unfold proxy_get. rewrite Hhp, Ha. rewrite bool_decide_eq_false_2 by done. simpl.
    pose proof (track_read_run (TObj a) k s) as H1.
    destruct (IH (track (TObj a) k s)) as (v & s' & l & -> & Hrun & Hdeps).
    { by rewrite (rr_heap _ _ _ H1). } { by rewrite (rr_refs _ _ _ H1). }
    exists v, s', ([] ++ l). split; [done|]. split; [by eapply read_run_trans|].
    intros e He tk [->|Htk]%elem_of_cons.
    + simpl. apply (rr_deps _ _ _ Hrun). by apply track_deps_active.
    + apply Hdeps; [|done]. by rewrite (rr_active _ _ _ H1).
  - unfold ref_get. rewrite Hrf, Hr. simpl.
    pose proof (track_read_run (TRef r) kvalue s) as H1.
    destruct (IH (track (TRef r) kvalue s)) as (v' & s' & l & -> & Hrun & Hdeps).
    { by rewrite (rr_heap _ _ _ H1). } { by rewrite (rr_refs _ _ _ H1). }
    exists v', s', ([] ++ l). split; [done|]. split; [by eapply read_run_trans|].
    intros e He tk [->|Htk]%elem_of_cons.
    + simpl. apply (rr_deps _ _ _ Hrun). by apply track_deps_active.
    + apply Hdeps; [|done]. by rewrite (rr_active _ _ _ H1).
  - pose proof (emit_log_read_run tag s) as H1.
    destruct (IH (emit (EvLog tag) s)) as (v' & s' & l & -> & Hrun & Hdeps); try done.
    exists v', s', ([EvLog tag] ++ l). split; [done|]. split; [by eapply read_run_trans|].
    intros e He tk Htk. by apply Hdeps.
Qed.

(** [clean] touches the graph only. *)
Lemma clean_fields e s :
  heap (clean e s) = heap s /\ refs (clean e s) = refs s
  /\ computeds (clean e s) = computeds s /\ effects (clean e s) = effects s
  /\ log (clean e s) = log s /\ effectStack (clean e s) = effectStack s.
Proof.
  unfold clean. destruct (effects s !! e) as [r|]; [|done].
  generalize (e_deps r). intros l. revert s.
  induction l as [|d l IH]; intros s; simpl; [done|].
  destruct (IH (with_targetMap (alter (filter (fun x => x ≠ e)) d (targetMap s)) s))
    as (-> & -> & -> & -> & -> & ->). done.
Qed.

(** A read of a dirty computed whose getter only reads: the getter runs
    exactly once. *)
Lemma computed_get_dirty n c s cr r g tks :
  computeds s !! c = Some cr -> c_dirty cr = true ->
  effects s !! c_effect cr = Some r -> e_fn r = BCmd g ->
  reads (heap s) (refs s) g tks ->
  exists v s' l,
    computed_get (run (S n)) c s = Ok (v, s')
    /\ log s' = log s ++ EvRun (c_effect cr) :: l
    /\ Forall log_event l
    /\ computeds s' !! c = Some (Computed v false (c_effect cr) (c_setter cr))
    /\ (forall tk, tk ∈ tks -> c_effect cr ∈ deps_of s' tk.1 tk.2)
    /\ heap s' = heap s /\ refs s' = refs s.
Proof.
  intros Hc Hd He Hfn Hg. unfold computed_get. rewrite Hc, Hd.
  cbn [run step]. unfold effectFn. rewrite He, Hfn. cbn [run_body].
  destruct (clean_fields (c_effect cr) s) as (Hh & Hr & Hcs & Hes & Hl & Hst).
  set (s1 := emit _ _).
  destruct (exec_reads (run n) NoOwner _ _ g tks Hg s1) as (v & s2 & l & -> & Hrun & Hdeps).
  { simpl. done. } { simpl. done. }
  cbn [mbind result_bind]. simpl computeds.
  rewrite (rr_computeds _ _ _ Hrun). simpl. rewrite Hcs, Hc.
  eexists v, _, l. split; [done|].
  split; [|split; [|split; [|split; [|split]]]].
  - unfold track. simpl. destruct (last _); simpl; rewrite (rr_log _ _ _ Hrun); simpl; rewrite Hl;
      by rewrite <- app_assoc.
  - apply (rr_events _ _ _ Hrun).
  - unfold track. simpl. destruct (last _); simpl; by rewrite lookup_insert_eq.
  - intros tk Htk. apply track_deps_mono. unfold deps_of. simpl.
    by apply (Hdeps (c_effect cr)).
  - unfold track. simpl. destruct (last _); simpl; rewrite (rr_heap _ _ _ Hrun); done.
  - unfold track. simpl. destruct (last _); simpl; rewrite (rr_refs _ _ _ Hrun); done.
Qed.

(** After a read the cache is clean and holds what the read returned;
    the next read returns it without a call of the getter, and changes
    nothing. *)
Lemma computed_get_twice call c s v s1 :
  computed_get call c s = Ok (v, s1) -> computed_get call c s1 = Ok (v, s1).
Proof.
  unfold computed_get at 1. destruct (computeds s !! c) as [cr|] eqn:Hc; [|done].
  destruct (c_dirty cr) eqn:Hd.
  - destruct (call _ s) as [[v' s']| |]; [|done|done]. cbn [mbind result_bind].
    destruct (computeds s' !! c) as [cr'|]; [|done].
    intros [= <- <-]. unfold computed_get.
    assert (H : computeds (track (TComputed c) kvalue
                (with_computeds (<[c := Computed v' false (c_effect cr') (c_setter cr')]>
                   (computeds s')) s')) !! c
                = Some (Computed v' false (c_effect cr') (c_setter cr'))).
    { unfold track. simpl. destruct (activeEffect s'); simpl; by rewrite lookup_insert_eq. }
    by rewrite H.
  - intros [= <- <-]. unfold computed_get. by rewrite Hc, Hd.
Qed.

(** With no subscriber of its own, the scheduler of a clean computed marks
    it dirty and that is all. *)
Lemma scheduler_marks_dirty n c s cr :
  computeds s !! c = Some cr -> c_dirty cr = false ->
  deps_of s (TComputed c) kvalue = [] ->
  run_scheduler (run (S n)) (SComputed c) s
  = Ok (emit (EvTrigger (TComputed c) kvalue)
          (with_computeds
             (<[c := Computed (c_value cr) true (c_effect cr) (c_setter cr)]> (computeds s)) s)).
Proof.
  intros Hc Hd Hdeps. unfold run_scheduler. rewrite Hc, Hd. unfold trigger. simpl targetMap.
  unfold deps_of in Hdeps.
  destruct (targetMap s !! (TComputed c, kvalue)) as [l|] eqn:Hl; [|done].
  simpl in Hdeps. subst l. cbn [run step]. unfold trigger_from, deps_of. simpl targetMap.
  rewrite Hl. done.
Qed.

(** A trigger on a source that only the computed's effect has read: the
    scheduler is called, the computed becomes dirty and notifies its own
    (here absent) subscribers if it was clean; the getter is not called. *)
Lemma trigger_on_source n t k s e r c cr :
  targetMap s !! (t, k) = Some [e] ->
  effects s !! e = Some r -> e_scheduler r = Some (SComputed c) ->
  computeds s !! c = Some cr ->
  deps_of s (TComputed c) kvalue = [] ->
  (t, k) ≠ (TComputed c, kvalue) ->
  exists s',
    trigger (run (S (S n))) t k s = Ok s'
    /\ log s' = log s ++ [EvTrigger t k; EvScheduler e]
                      ++ (if c_dirty cr then [] else [EvTrigger (TComputed c) kvalue])
    /\ computeds s' !! c = Some (Computed (c_value cr) true (c_effect cr) (c_setter cr))
    /\ heap s' = heap s /\ refs s' = refs s /\ targetMap s' = targetMap s
    /\ effects s' = effects s.
Proof.
  intros Ht He Hs Hc Hdeps Hne. unfold trigger. simpl targetMap. rewrite Ht.
  cbn [run step]. unfold trigger_from at 1. unfold deps_of at 1. simpl targetMap.
  rewrite Ht. simpl. rewrite He, Hs.
  destruct (c_dirty cr) eqn:Hd.
  - unfold run_scheduler. simpl computeds. rewrite Hc, Hd. cbn [mbind result_bind].
    cbn [run step]. unfold trigger_from, deps_of. simpl targetMap. rewrite Ht. simpl.
    eexists. split; [done|]. simpl. rewrite <- ?app_assoc. simpl.
    destruct cr. simpl in *. subst. done.
  - rewrite (scheduler_marks_dirty n c _ cr); [|done|done|done].
    cbn [mbind result_bind].
    cbn [run step]. unfold trigger_from, deps_of. simpl targetMap. rewrite Ht. simpl.
    eexists. split; [done|]. simpl. rewrite <- ?app_assoc. simpl.
    by rewrite lookup_insert_eq.
Qed.

Lemma count_event_app ev l1 l2 :
  count_event ev (l1 ++ l2) = (count_event ev l1 + count_event ev l2)%nat.
Proof. unfold count_event. by rewrite filter_app, length_app. Qed.

Lemma count_event_log e l : Forall log_event l -> count_event (EvRun e) l = 0%nat.
Proof.
  unfold count_event. induction 1 as [|ev l [tag ->] _ IH]; [done|].
  rewrite filter_cons_False by done. exact IH.
Qed.

(** What holds of every computed [c], and of one whose getter reads no
    other computed:
    - a read while it is clean returns the cached value and leaves the
      store as it is, without any call of the getter;
    - its scheduler, which is what a trigger on a source calls, does
      nothing when the computed is dirty already, and otherwise marks it
      dirty and triggers the computed's own subscribers; a trigger on a
      source that the computed's effect has read reaches the scheduler and
      calls no getter;
    - a read that follows a read returns the same value and changes
      nothing: the getter is not called a second time;
    - a read while it is dirty calls the getter exactly once (the getter
      being one that only reads reactive state), caches its value, marks
      the computed clean and leaves the effect subscribed to what the
      getter read. *)
Theorem computed_caches_until_a_source_changes
    (call : task -> store -> result (value * store)) (n : nat)
    (s : store) (c : nat) (cr : computed_rec) :
  computeds s !! c = Some cr ->
  (c_dirty cr = false -> computed_get call c s = Ok (c_value cr, s))
  /\ (c_dirty cr = true -> run_scheduler call (SComputed c) s = Ok s)
  /\ (c_dirty cr = false ->
      run_scheduler call (SComputed c) s
      = trigger call (TComputed c) kvalue
          (with_computeds
             (<[c := Computed (c_value cr) true (c_effect cr) (c_setter cr)]>
                (computeds s)) s))
  /\ (forall t k e r,
        targetMap s !! (t, k) = Some [e] ->
        effects s !! e = Some r -> e_scheduler r = Some (SComputed c) ->
        deps_of s (TComputed c) kvalue = [] ->
        (t, k) ≠ (TComputed c, kvalue) ->
        exists s',
          trigger (run (S (S n))) t k s = Ok s'
          /\ log s' = log s ++ [EvTrigger t k; EvScheduler e]
                            ++ (if c_dirty cr then [] else [EvTrigger (TComputed c) kvalue])
          /\ computeds s' !! c
             = Some (Computed (c_value cr) true (c_effect cr) (c_setter cr)))
  /\ (forall v s1, computed_get call c s = Ok (v, s1) ->
                   computed_get call c s1 = Ok (v, s1))
  /\ (c_dirty cr = true ->
      forall r g tks,
        effects s !! c_effect cr = Some r -> e_fn r = BCmd g ->
        reads (heap s) (refs s) g tks ->
        exists v s',
          computed_get (run (S n)) c s = Ok (v, s')
          /\ count_event (EvRun (c_effect cr)) (log s')
             = S (count_event (EvRun (c_effect cr)) (log s))
          /\ computeds s' !! c = Some (Computed v false (c_effect cr) (c_setter cr))
          /\ (forall tk, tk ∈ tks -> c_effect cr ∈ deps_of s' tk.1 tk.2)).
Proof.
  intros Hc. split; [|split; [|split; [|split; [|split]]]].
  - intros Hd. unfold computed_get. by rewrite Hc, Hd.
  - intros Hd. unfold run_scheduler. by rewrite Hc, Hd.
  - intros Hd. unfold run_scheduler. by rewrite Hc, Hd.
  - intros t k e r Ht He Hs Hdeps Hne.
    destruct (trigger_on_source n t k s e r c cr Ht He Hs Hc Hdeps Hne)
      as (s' & H1 & H2 & H3 & _).
    by exists s'.
  - apply computed_get_twice.
  - intros Hd r g tks He Hfn Hg.
    destruct (computed_get_dirty n c s cr r g tks Hc Hd He Hfn Hg)
      as (v & s' & l & H1 & H2 & H3 & H4 & H5 & _).
    exists v, s'. split; [done|]. split; [|done].
    rewrite H2, count_event_app. change (EvRun (c_effect cr) :: l) with ([EvRun (c_effect cr)] ++ l).
    rewrite count_event_app, (count_event_log _ l H3).
    unfold count_event at 2. rewrite filter_cons_True by done. simpl. lia.
Qed.

(** The theorem at work on [double = computed(() => n.value * 2)] with
    [n.value] being 1, read for the first time. *)
Lemma computed_caches_until_a_source_changes_witness :
  exists v s',
    computed_get (run 6) 0 fresh_double = Ok (v, s')
    /\ count_event (EvRun 0) (log s') = S (count_event (EvRun 0) (log fresh_double))
    /\ computeds s' !! 0%nat = Some (Computed v false 0 None)
    /\ (forall tk, tk ∈ [(TRef 0, kvalue)] -> 0%nat ∈ deps_of s' tk.1 tk.2).
Proof.
  destruct (computed_caches_until_a_source_changes (run 6) 5 fresh_double 0
              (Computed VUndef true 0 None) eq_refl) as (_ & _ & _ & _ & _ & H).
  apply (H eq_refl (Effect (BCmd (double_of 0)) [] true (Some (SComputed 0)))
           (double_of 0) [(TRef 0, kvalue)]).
  - reflexivity.
  - reflexivity.
  - eapply reads_RefGet; [reflexivity|]. apply reads_Ret.
Defined.

(** The whole course of it: two reads, a change of the source, two reads.
    The getter runs on the first read and on the first read after the
    change, and at no other time. *)
Lemma double_recomputes_once_per_change :
  exists s,
    read_twice_change_read_twice = Ok ([VNum 2; VNum 2; VNum 10; VNum 10], s)
    /\ log s = [EvRun 0;
                EvTrigger (TRef 0) kvalue; EvScheduler 0; EvTrigger (TComputed 0) kvalue;
                EvRun 0].
Proof. eexists. split; vm_compute; reflexivity. Qed.

(** C5, evaluated on the code.  [plusOne = computed(() => double.value + 1)]
    over [double = computed(() => n.value * 2)], [n.value] being 1.  After
    [double.value], which is 2, and [plusOne.value], which is 3,
    [n.value = 5] changes what [plusOne] depends on, and the claim has the
    next read of [plusOne] call its getter once.  That read calls no getter,
    leaves the store as it is and returns the stale 3, where the getter
    gives 11.  [plusOne] read [double] while [double] was clean, and
    [get value()] calls [track] inside [if (this.dirty)] only: [plusOne] is
    not among the subscribers of [double], so the change never marks it
    dirty. *)
Theorem computed_over_clean_computed_goes_stale :
  let s := store_of read_both_then_change in
  (fst <$> read_both_then_change) = Ok [VNum 2; VNum 3]
  /\ log s = [EvRun 0; EvRun 1;
              EvTrigger (TRef 0) kvalue; EvScheduler 0; EvTrigger (TComputed 0) kvalue]
  /\ main (ComputedGet 1 Ret) 10 s = Ok (VNum 3, s)
  /\ (fst <$> main (plus_one_of 0) 10 s) = Ok (VNum 11)
  /\ computeds s !! 1%nat = Some (Computed (VNum 3) false 1 None)
  /\ deps_of s (TComputed 0) kvalue = []
  /\ ~ recomputes_on_read 1 1 s.
Proof.
  cbv zeta.
  assert (main (ComputedGet 1 Ret) 10 (store_of read_both_then_change)
          = Ok (VNum 3, store_of read_both_then_change)) as Hread.
  { vm_compute. reflexivity. }
  split; [vm_compute; reflexivity|]. split; [vm_compute; reflexivity|].
  split; [exact Hread|]. split; [vm_compute; reflexivity|].
  split; [vm_compute; reflexivity|]. split; [vm_compute; reflexivity|].
  intros (v & s' & Hrun & Hcount). rewrite Hread in Hrun.
  injection Hrun as _ <-. lia.
Qed.

(** The sibling path.  Without the read of [double] at the start,
    [plusOne] reads [double] while that is dirty and is tracked; it follows
    the change of [n]: the next read calls its getter once and returns 11. *)
Lemma computed_over_dirty_computed_follows :
  let s := store_of read_plus_one_then_change in
  (fst <$> read_plus_one_then_change) = Ok [VNum 3]
  /\ deps_of s (TComputed 0) kvalue = [1%nat]
  /\ computeds s !! 1%nat = Some (Computed (VNum 3) true 1 None)
  /\ (fst <$> main (ComputedGet 1 Ret) 10 s) = Ok (VNum 11)
  /\ recomputes_on_read 1 1 s.
Proof.
  cbv zeta. split; [vm_compute; reflexivity|]. split; [vm_compute; reflexivity|].
  split; [vm_compute; reflexivity|]. split; [vm_compute; reflexivity|].
  unfold recomputes_on_read.
  destruct (main (ComputedGet 1 Ret) 10 (store_of read_plus_one_then_change))
    as [[v s']| |] eqn:Hrun; [|by vm_compute in Hrun|by vm_compute in Hrun].
  exists v, s'. split; [done|].
  change s' with (store_of (Ok (v, s'))). rewrite <- Hrun.
  vm_compute. reflexivity.
Qed.

(** *** The effect stack, subscribers, round trips, watchers *)

Lemma same_stack_refl s : same_stack s s.
Proof. by split. Qed.

Lemma same_stack_trans s1 s2 s3 : same_stack s1 s2 -> same_stack s2 s3 -> same_stack s1 s3.
Proof. intros [A1 S1] [A2 S2]. split; congruence. Qed.

Lemma same_stack_settled s s' : same_stack s s' -> settled s -> settled s'.
Proof. intros [A S]. unfold settled. by rewrite A, S. Qed.

Lemma track_same_stack t k s : same_stack s (track t k s).
Proof. unfold track. by destruct (activeEffect s). Qed.

Lemma clean_same_stack e s : same_stack s (clean e s).
Proof.
  unfold clean. destruct (effects s !! e) as [r|]; [|apply same_stack_refl].
  generalize (e_deps r). intros ds. revert s.
  induction ds as [|d ds IH]; intros s; simpl; [apply same_stack_refl|].
  eapply same_stack_trans; [|apply IH]. by split.
Qed.

Ltac stack_same := split; reflexivity.

Ltac settled_from H :=
  eapply same_stack_settled; [|eapply same_stack_settled; [exact H|]; done]; stack_same.

Section Stack.

Variable fuel : nat.

Variable call : task -> store -> result (value * store).

Hypothesis call_same_stack :
  forall t s v s', settled s -> call t s = Ok (v, s') -> same_stack s s'.

Lemma trigger_same_stack t k s s' :
  settled s -> trigger call t k s = Ok s' -> same_stack s s'.
Proof.
  intros Hf. unfold trigger. simpl targetMap.
  destruct (targetMap s !! (t, k)); [|intros [= <-]; stack_same].
  destruct (call _ _) as [[v s1]| |] eqn:Hc; [|done|done]. intros [= <-].
  apply call_same_stack in Hc; [|done]. eapply same_stack_trans; [|exact Hc]. stack_same.
Qed.

Lemma proxy_get_same_stack a k s v s' : proxy_get a k s = Ok (v, s') -> same_stack s s'.
Proof.
  unfold proxy_get. destruct (heap s !! a); [|done].
  case_bool_decide; intros [= <- <-]; [apply same_stack_refl|apply track_same_stack].
Qed.

Lemma ref_get_same_stack r s v s' : ref_get r s = Ok (v, s') -> same_stack s s'.
Proof.
  unfold ref_get. destruct (refs s !! r); [|done]. intros [= <- <-]. apply track_same_stack.
Qed.

Lemma proxy_set_same_stack a k v s s' :
  settled s -> proxy_set call a k v s = Ok s' -> same_stack s s'.
Proof.
  intros Hf. unfold proxy_set. destruct (heap s !! a) as [o|]; [|done].
  destruct (reflect_set o k v) as [o'| |]; [|done|done]. cbn [mbind result_bind].
  set (s1 := with_heap _ s). assert (H1 : same_stack s s1) by stack_same.
  destruct (hasChanged _ _); [|by intros [= <-]].
  destruct (trigger call (TObj a) k s1) as [s2| |] eqn:Ht; [|done|done].
  cbn [mbind result_bind].
  apply trigger_same_stack in Ht; [|by eapply same_stack_settled].
  assert (H2 : same_stack s s2) by (by eapply same_stack_trans).
  destruct (heap s2 !! a) as [o''|]; [|by intros [= <-]].
  destruct (_ && _); [|by intros [= <-]].
  intros Ht2. apply trigger_same_stack in Ht2; [|by eapply same_stack_settled].
  by eapply same_stack_trans.
Qed.

Lemma ref_set_same_stack r v s s' :
  settled s -> ref_set call r v s = Ok s' -> same_stack s s'.
Proof.
  intros Hf. unfold ref_set. destruct (refs s !! r); [|done].
  destruct (hasChanged _ _); [|intros [= <-]; apply same_stack_refl].
  intros Ht. apply trigger_same_stack in Ht; [|done].
  eapply same_stack_trans; [|exact Ht]. stack_same.
Qed.

Lemma computed_get_same_stack c s v s' :
  settled s -> computed_get call c s = Ok (v, s') -> same_stack s s'.
Proof.
  intros Hf. unfold computed_get. destruct (computeds s !! c) as [cr|]; [|done].
  destruct (c_dirty cr); [|intros [= <- <-]; apply same_stack_refl].
  destruct (call _ _) as [[v1 s1]| |] eqn:Hc; [|done|done]. cbn [mbind result_bind].
  apply call_same_stack in Hc; [|done].
  destruct (computeds s1 !! c); [|done]. intros [= <- <-].
  eapply same_stack_trans; [exact Hc|].
  eapply same_stack_trans; [|apply track_same_stack]. stack_same.
Qed.

Lemma computed_set_same_stack c v s s' :
  settled s -> computed_set call c v s = Ok s' -> same_stack s s'.
Proof.
  intros Hf. unfold computed_set.
  destruct (call _ _) as [[v1 s1]| |] eqn:Hc; [|done|done]. intros [= <-].
  by apply call_same_stack in Hc.
Qed.

Lemma onInvalidate_same_stack o fn s s' : onInvalidate o fn s = Ok s' -> same_stack s s'.
Proof.
  unfold onInvalidate. destruct o as [|w|w]; [done| |].
  - simpl. destruct (watchers s !! w); [|done]. intros [= <-]. stack_same.
  - simpl. destruct (watchEffects s !! w); [|done]. intros [= <-]. stack_same.
Qed.

Lemma exec_same_stack o c : forall s v s',
  settled s -> exec call o c s = Ok (v, s') -> same_stack s s'.
Proof.
  induction c as [v0|a k cont IH|a k v0 cont IH|r cont IH|r v0 cont IH|c0 cont IH
                  |c0 v0 cont IH|fn _ cont IH|tag cont IH]; intros s v s' Hf; simpl.
  - intros [= <- <-]. apply same_stack_refl.
  - destruct (proxy_get a k s) as [[v1 s1]| |] eqn:H1; [|done|done]. cbn [mbind result_bind].
    apply proxy_get_same_stack in H1. intros H2.
    apply IH in H2; [|by eapply same_stack_settled]. by eapply same_stack_trans.
  - destruct (proxy_set call a k v0 s) as [s1| |] eqn:H1; [|done|done]. cbn [mbind result_bind].
    apply proxy_set_same_stack in H1; [|done]. intros H2.
    apply IH in H2; [|by eapply same_stack_settled]. by eapply same_stack_trans.
  - destruct (ref_get r s) as [[v1 s1]| |] eqn:H1; [|done|done]. cbn [mbind result_bind].
    apply ref_get_same_stack in H1. intros H2.
    apply IH in H2; [|by eapply same_stack_settled]. by eapply same_stack_trans.
  - destruct (ref_set call r v0 s) as [s1| |] eqn:H1; [|done|done]. cbn [mbind result_bind].
    apply ref_set_same_stack in H1; [|done]. intros H2.
    apply IH in H2; [|by eapply same_stack_settled]. by eapply same_stack_trans.
  - destruct (computed_get call c0 s) as [[v1 s1]| |] eqn:H1; [|done|done].
    cbn [mbind result_bind].
    apply computed_get_same_stack in H1; [|done]. intros H2.
    apply IH in H2; [|by eapply same_stack_settled]. by eapply same_stack_trans.
  - destruct (computed_set call c0 v0 s) as [s1| |] eqn:H1; [|done|done].
    cbn [mbind result_bind].
    apply computed_set_same_stack in H1; [|done]. intros H2.
    apply IH in H2; [|by eapply same_stack_settled]. by eapply same_stack_trans.
  - destruct (onInvalidate o fn s) as [s1| |] eqn:H1; [|done|done]. cbn [mbind result_bind].
    apply onInvalidate_same_stack in H1. intros H2.
    apply IH in H2; [|by eapply same_stack_settled]. by eapply same_stack_trans.
  - intros H2. apply IH in H2; [|done]. eapply same_stack_trans; [|exact H2]. stack_same.
Qed.

Lemma traverse_same_stack n : forall v seen s v' seen' s',
  traverse n v seen s = Ok (v', seen', s') -> same_stack s s'.
Proof.
  induction n as [|n IH]; intros v seen s v' seen' s'; simpl; [done|].
  destruct v; try (intros [= <- <- <-]; apply same_stack_refl).
  - destruct (proxy_get a (KName "__isRef") s) as [[flag s1]| |] eqn:H1; [|done|done].
    cbn [mbind result_bind]. apply proxy_get_same_stack in H1.
    destruct (truthy flag).
    + destruct (proxy_get a kvalue s1) as [[inner s2]| |] eqn:H2; [|done|done].
      cbn [mbind result_bind]. apply proxy_get_same_stack in H2.
      intros H3. apply IH in H3. eapply same_stack_trans; [exact H1|].
      by eapply same_stack_trans.
    + case_bool_decide; [by intros [= <- <- <-]|].
      destruct (heap s1 !! a) as [o|]; [|done].
      generalize (enumerable_keys o). intros keys.
      assert (Hfold : forall keys acc seen2 s2,
                 (forall seen1 s1', acc = Ok (seen1, s1') -> same_stack s1 s1') ->
                 foldl (fun acc key =>
                          '(seen, s) ← acc;
                          '(x, s) ← proxy_get a key s;
                          '(_, seen, s) ← traverse n x seen s;
                          Ok (seen, s)) acc keys = Ok (seen2, s2) ->
                 same_stack s1 s2).
      { clear -IH. induction keys as [|key keys IHk]; intros acc seen2 s2 Hacc; simpl.
        - intros ->. by eapply Hacc.
        - apply IHk. intros seen1 s1'.
          destruct acc as [[seen0 s0]| |]; [|done|done]. cbn [mbind result_bind].
          destruct (proxy_get a key s0) as [[x s3]| |] eqn:H1; [|done|done].
          cbn [mbind result_bind]. apply proxy_get_same_stack in H1.
          destruct (traverse n x seen0 s3) as [[[v3 seen3] s4]| |] eqn:H2; [|done|done].
          cbn [mbind result_bind]. apply IH in H2. intros [= <- <-].
          eapply same_stack_trans; [by eapply Hacc|]. by eapply same_stack_trans. }
      destruct (foldl _ _ keys) as [[seen2 s2]| |] eqn:Hf; [|done|done].
      cbn [mbind result_bind]. intros [= <- <- <-].
      eapply same_stack_trans; [exact H1|]. eapply Hfold; [|exact Hf].
      intros seen1 s1' [= <- <-]. apply same_stack_refl.
  - destruct (ref_get r s) as [[inner s1]| |] eqn:H1; [|done|done].
    cbn [mbind result_bind]. apply ref_get_same_stack in H1.
    intros H3. apply IH in H3. by eapply same_stack_trans.
Qed.

Lemma run_getter_same_stack g s v s' :
  settled s -> run_getter fuel call g s = Ok (v, s') -> same_stack s s'.
Proof.
  intros Hf. destruct g; simpl.
  - by apply exec_same_stack.
  - apply ref_get_same_stack.
  - apply proxy_get_same_stack.
  - destruct (traverse fuel v0 [] s) as [[[v1 seen1] s1]| |] eqn:H1; [|done|done].
    cbn [mbind result_bind]. intros [= <- <-]. by apply traverse_same_stack in H1.
  - intros [= <- <-]. apply same_stack_refl.
Qed.

Lemma run_body_same_stack b s v s' :
  settled s -> run_body fuel call b s = Ok (v, s') -> same_stack s s'.
Proof.
  intros Hf. destruct b as [c|w|w]; simpl.
  - by apply exec_same_stack.
  - destruct (watchers s !! w) as [wr|]; [|done].
    destruct (w_impl wr); [intros [= <- <-]; apply same_stack_refl|by apply run_getter_same_stack].
  - destruct (watchEffects s !! w) as [wr|]; [|done].
    intros H. apply exec_same_stack in H; [|done].
    eapply same_stack_trans; [|exact H]. stack_same.
Qed.

(** The function [effect] returns pushes itself, runs, and pops: what it
    leaves is what it found. *)
Lemma effectFn_same_stack e s v s' :
  settled s -> effectFn fuel call e s = Ok (v, s') -> same_stack s s'.
Proof.
  intros Hf. unfold effectFn. destruct (effects s !! e) as [r|]; [|done].
  destruct (clean_same_stack e s) as [Ha Hs].
  destruct (run_body _ _ _ _) as [[res s1]| |] eqn:H1; [|done|done].
  cbn [mbind result_bind]. intros [= <- <-].
  apply run_body_same_stack in H1 as [_ Hs1].
  - simpl in Hs1. unfold same_stack. simpl. rewrite Hs1, Hs, removelast_last.
    split; [|done]. symmetry. apply Hf.
  - unfold settled. simpl. by rewrite last_snoc.
Qed.

Lemma watch_job_same_stack w s s' :
  settled s -> watch_job call w s = Ok s' -> same_stack s s'.
Proof.
  intros Hf. unfold watch_job. destruct (watchers s !! w) as [wr|]; [|done].
  destruct (call _ s) as [[newVal s1]| |] eqn:H1; [|done|done]. cbn [mbind result_bind].
  apply call_same_stack in H1; [|done].
  destruct (watchers s1 !! w) as [wr1|]; [|done]. cbn [from_option mbind result_bind].
  set (s2 := with_watchers _ s1).
  assert (H2 : same_stack s s2) by (eapply same_stack_trans; [exact H1|stack_same]).
  assert (H3 : forall s3,
             match w_cleanUp wr1 with
             | Some fn => '(_, s) ← exec call (OfWatch w) fn (emit (EvCleanup (OfWatch w)) s2); Ok s
             | None => Ok s2
             end = Ok s3 -> same_stack s s3).
  { intros s3. destruct (w_cleanUp wr1) as [fn|]; [|by intros [= <-]].
    destruct (exec _ _ _ _) as [[v3 s3']| |] eqn:H3; [|done|done]. intros [= <-].
    apply exec_same_stack in H3; [|settled_from H2].
    eapply same_stack_trans; [exact H2|]. eapply same_stack_trans; [|exact H3]. stack_same. }
  destruct (match w_cleanUp wr1 with Some _ => _ | None => _ end) as [s3| |];
    [|done|done].
  specialize (H3 s3 eq_refl). cbn [mbind result_bind].
  destruct (watchers s3 !! w) as [wr3|]; [|done]. cbn [from_option mbind result_bind].
  destruct (exec _ _ _ _) as [[v4 s4]| |] eqn:H4; [|done|done]. cbn [mbind result_bind].
  apply exec_same_stack in H4; [|settled_from H3].
  destruct (watchers s4 !! w) as [wr4|]; [|done]. cbn [from_option mbind result_bind].
  intros [= <-].
  eapply same_stack_trans; [exact H3|].
  eapply same_stack_trans; [|eapply same_stack_trans; [exact H4|]]; stack_same.
Qed.

Lemma watchEffect_job_same_stack w s s' :
  settled s -> watchEffect_job call w s = Ok s' -> same_stack s s'.
Proof.
  intros Hf. unfold watchEffect_job. destruct (watchEffects s !! w) as [wr|]; [|done].
  assert (H3 : forall s3,
             match we_cleanUp wr with
             | Some fn =>
                 '(_, s) ← exec call (OfWatchEffect w) fn (emit (EvCleanup (OfWatchEffect w)) s);
                 Ok s
             | None => Ok s
             end = Ok s3 -> same_stack s s3).
  { intros s3. destruct (we_cleanUp wr) as [fn|]; [|by intros [= <-]].
    destruct (exec _ _ _ _) as [[v3 s3']| |] eqn:H3; [|done|done]. intros [= <-].
    apply exec_same_stack in H3; [|done].
    eapply same_stack_trans; [|exact H3]. stack_same. }
  destruct (match we_cleanUp wr with Some _ => _ | None => _ end) as [s3| |];
    [|done|done].
  specialize (H3 s3 eq_refl). cbn [mbind result_bind].
  destruct (watchEffects s3 !! w) as [wr3|]; [|done]. cbn [from_option mbind result_bind].
  destruct (exec _ _ _ _) as [[v4 s4]| |] eqn:H4; [|done|done]. cbn [mbind result_bind].
  apply exec_same_stack in H4; [|settled_from H3].
  intros [= <-].
  eapply same_stack_trans; [exact H3|]. eapply same_stack_trans; [|exact H4]. stack_same.
Qed.

Lemma run_scheduler_same_stack sch s s' :
  settled s -> run_scheduler call sch s = Ok s' -> same_stack s s'.
Proof.
  intros Hf. destruct sch as [c|w|w]; simpl.
  - destruct (computeds s !! c) as [cr|]; [|done].
    destruct (c_dirty cr); [intros [= <-]; apply same_stack_refl|].
    intros H. apply trigger_same_stack in H; [|done].
    eapply same_stack_trans; [|exact H]. stack_same.
  - destruct (watchers s !! w) as [wr|]; [|done].
    destruct (w_post wr); [intros [= <-]; stack_same|by apply watch_job_same_stack].
  - by apply watchEffect_job_same_stack.
Qed.

Lemma trigger_from_same_stack t k i s s' :
  settled s -> trigger_from call t k i s = Ok s' -> same_stack s s'.
Proof.
  intros Hf. unfold trigger_from. destruct (deps_of s t k !! i) as [e|]; [|by intros [= <-]].
  assert (H1 : forall s1,
             match effects s !! e with
             | Some r =>
                 match e_scheduler r with
                 | Some sch => run_scheduler call sch (emit (EvScheduler e) s)
                 | None => '(_, s) ← call (TEffect e) s; Ok s
                 end
             | None => Throw TypeError
             end = Ok s1 -> same_stack s s1).
  { intros s1. destruct (effects s !! e) as [r|]; [|done].
    destruct (e_scheduler r) as [sch|].
    - intros H. apply run_scheduler_same_stack in H; [|done].
      eapply same_stack_trans; [|exact H]. stack_same.
    - destruct (call _ s) as [[v1 s1']| |] eqn:H; [|done|done]. intros [= <-].
      by apply call_same_stack in H. }
  destruct (match effects s !! e with Some _ => _ | None => _ end) as [s1| |];
    [|done|done].
  specialize (H1 s1 eq_refl). cbn [mbind result_bind].
  destruct (call _ s1) as [[v2 s2]| |] eqn:H2; [|done|done]. intros [= <-].
  apply call_same_stack in H2; [|by eapply same_stack_settled]. by eapply same_stack_trans.
Qed.

Lemma step_same_stack t s v s' :
  settled s -> step fuel call t s = Ok (v, s') -> same_stack s s'.
Proof.
  intros Hf. destruct t as [e|t k i|c v0]; simpl.
  - by apply effectFn_same_stack.
  - destruct (trigger_from call t k i s) as [s1| |] eqn:H; [|done|done]. intros [= <- <-].
    by apply trigger_from_same_stack in H.
  - destruct (computeds s !! c) as [cr|]; [|done].
    destruct (c_setter cr); [by apply exec_same_stack|]. intros [= <- <-]. stack_same.
Qed.

End Stack.

Lemma run_same_stack fuel : forall t s v s',
  settled s -> run fuel t s = Ok (v, s') -> same_stack s s'.
Proof.
  induction fuel as [|n IH]; intros t s v s' Hf; simpl; [done|].
  by apply step_same_stack.
Qed.

(** X22.  Whatever an effect function, a trigger or a setter runs, nested
    effects included: when it returns, the effect that collects dependencies
    is the one that did before, and the stack of running effects is as it
    was. *)
Theorem run_restores_the_active_effect fuel t s v s' :
  activeEffect s = last (effectStack s) ->
  run fuel t s = Ok (v, s') ->
  activeEffect s' = activeEffect s /\ effectStack s' = effectStack s.
Proof. apply run_same_stack. Qed.

Lemma run_restores_the_active_effect_witness :
  exists v s',
    run 6 (TEffect 1) reader_of_double = Ok (v, s')
    /\ count_event (EvRun 0) (log s') = 1%nat
    /\ activeEffect s' = activeEffect reader_of_double
    /\ effectStack s' = effectStack reader_of_double.
Proof.
  exists (VNum 2).
  exists (store_of (run 6 (TEffect 1) reader_of_double)).
  split; [vm_compute; reflexivity|].
  split; [vm_compute; reflexivity|].
  apply (run_restores_the_active_effect 6 (TEffect 1) reader_of_double (VNum 2)).
  - reflexivity.
  - vm_compute. reflexivity.
Defined.

















(** [hasChanged] holds of two values when they differ and neither
    is NaN. *)
Lemma hasChanged_spec (oldVal newVal : value) :
  hasChanged oldVal newVal = true
  <-> oldVal ≠ newVal /\ oldVal ≠ VNaN /\ newVal ≠ VNaN.
Proof.
  unfold hasChanged.
  destruct (decide (oldVal = VNaN)) as [->|Ho].
  { simpl. split; [done|]. by intros (_ & ? & _). }
  destruct (decide (newVal = VNaN)) as [->|Hn].
  { destruct oldVal; simpl; rewrite ?andb_false_r; split; try done; by intros (_ & _ & ?). }
  assert (forall a b, a ≠ VNaN -> b ≠ VNaN -> strict_eq a b = bool_decide (a = b)) as Heq.
  { intros a b Ha Hb. destruct a, b; done. }
  rewrite !Heq by done. rewrite (bool_decide_true (oldVal = oldVal)) by done.
  assert (loose_eq_self newVal = true) as -> by (by destruct newVal).
  rewrite !andb_true_r. case_bool_decide; simpl; split; try done.
  - by intros (? & _).
Qed.

(** X26.  A value that is not an object (a primitive or a function),
    written to the [value] of a ref that has no subscriber, is the value read
    back, unless that value or the value it replaces is NaN: [hasChanged] is
    false whenever one of the two is NaN, so the write is dropped and the old
    value is read back.  A ref that holds NaN cannot be given another
    value.  (An object is stored as its reactive proxy, which is another
    object.) *)
Theorem ref_write_then_read call r s old v :
  isObject v = false ->
  refs s !! r = Some old ->
  targetMap s !! (TRef r, kvalue) = None ->
  exists s',
    ref_set call r v s = Ok s'
    /\ (fst <$> ref_get r s')
       = Ok (if bool_decide (old = VNaN \/ v = VNaN) then old else v).
Proof.
  intros _ Hr Ht. unfold ref_set. rewrite Hr.
  destruct (hasChanged old v) eqn:Hch.
  - apply hasChanged_spec in Hch as (_ & Ho & Hn).
    unfold trigger. simpl targetMap. rewrite Ht.
    eexists. split; [done|]. unfold ref_get. simpl. rewrite lookup_insert_eq. simpl.
    rewrite bool_decide_false; [done|]. by intros [?|?].
  - exists s. split; [done|]. unfold ref_get. rewrite Hr. simpl.
    case_bool_decide as Hnan; [done|].
    destruct (decide (old = v)) as [->|Hne]; [done|].
    assert (hasChanged old v = true) as Hc; [|congruence].
    apply hasChanged_spec. split; [done|]. split; intros ->; apply Hnan; auto.
Qed.

Lemma ref_write_then_read_witness :
  let s := (ref VNaN empty_store).2 in
  exists s',
    ref_set (run 3) 0 (VNum 5) s = Ok s'
    /\ (fst <$> ref_get 0 s')
       = Ok (if bool_decide (VNaN = VNaN \/ VNum 5 = VNaN) then VNaN else VNum 5).
Proof.
  apply (ref_write_then_read (run 3) 0 (ref VNaN empty_store).2 VNaN (VNum 5)).
  - reflexivity.
  - reflexivity.
  - reflexivity.
Defined.



(** [computed(fn)] runs nothing: the getter waits for the first
    read.  Made from a function alone the computed is read-only: an
    assignment to [.value] warns and changes nothing. *)
Lemma computed_is_lazy_and_read_only getter fuel n v s :
  exists e s',
    computed getter None fuel s = Ok (fresh (dom (computeds s)), s')
    /\ computeds s' !! fresh (dom (computeds s)) = Some (Computed VUndef true e None)
    /\ (e_fn <$> effects s' !! e) = Some (BCmd getter)
    /\ log s' = log s /\ targetMap s' = targetMap s
    /\ computed_set (run (S n)) (fresh (dom (computeds s))) v s' = Ok (emit EvWarn s').
Proof.
  unfold computed, effect. cbn [mbind result_bind].
  eexists _, _. split; [reflexivity|]. simpl.
  rewrite !lookup_insert_eq. do 4 (split; [reflexivity|]).
  unfold computed_set, step. simpl. by rewrite lookup_insert_eq.
Qed.

(** A calm callback run while no effect collects leaves the graph alone. *)
Lemma exec_calm_untracked call o hp rf c :
  calm hp rf c ->
  forall s v s', heap s = hp -> refs s = rf -> activeEffect s = None ->
    exec call o c s = Ok (v, s') ->
    targetMap s' = targetMap s /\ activeEffect s' = None
    /\ heap s' = heap s /\ refs s' = refs s.
Proof.
  induction 1 as [v|a k cont ob Ha Hc IH|r cont v Hr Hc IH|tag cont Hc IH|fn cont Hfn _ Hc IH];
    intros s v0 s' Hhp Hrf Hact; simpl.
  - by intros [= <- <-].
  - unfold proxy_get. rewrite Hhp, Ha.
    assert (track (TObj a) k s = s) as Htr by (unfold track; by rewrite Hact).
    set (b := bool_decide _) in *.
    destruct b; simpl; rewrite ?Htr; intros Hex;
      (apply IH in Hex as (? & ? & ? & ?); [repeat split; congruence|done..]).
  - unfold ref_get. rewrite Hrf, Hr. simpl.
    assert (track (TRef r) kvalue s = s) as -> by (unfold track; by rewrite Hact).
    intros Hex. apply IH in Hex as (? & ? & ? & ?); [repeat split; congruence|done..].
  - intros Hex. by apply IH in Hex.
  - destruct (onInvalidate o fn s) as [s1| |] eqn:Hon; [|done|done]. cbn [mbind result_bind].
    assert (targetMap s1 = targetMap s /\ activeEffect s1 = activeEffect s
            /\ heap s1 = heap s /\ refs s1 = refs s) as (Ht & Ha1 & Hh & Hr1).
    { unfold onInvalidate in Hon. destruct o as [|w|w]; [done| |]; simpl in Hon.
      - destruct (watchers s !! w); [|done]. by injection Hon as <-.
      - destruct (watchEffects s !! w); [|done]. by injection Hon as <-. }
    intros Hex. apply IH in Hex as (? & ? & ? & ?); [|congruence..].
    repeat split; congruence.
Qed.

(** X28.  When the job of a [watchEffect] runs while no effect is running
    (as a rerun does), what its callback reads is not recorded: the job
    calls the callback directly, not through the effect function, so a rerun
    subscribes to nothing.  The cleanup and the callback are those that
    neither write reactive state nor start effects. *)
Theorem watchEffect_rerun_tracks_nothing call w s wr :
  watchEffects s !! w = Some wr ->
  activeEffect s = None ->
  calm (heap s) (refs s) (we_cb wr) ->
  pending_calm (OfWatchEffect w) s ->
  exists s',
    watchEffect_job call w s = Ok s'
    /\ targetMap s' = targetMap s
    /\ EvEffectCallback w ∈ drop (length (log s)) (log s').
Proof.
  intros Hw Hact Hcb Hpend. unfold watchEffect_job. rewrite Hw.
  assert (owner_kept (OfWatchEffect w) s s) as Hkept.
  { exists wr, (we_cleanUp wr). split; [done|]. rewrite Hw. by destruct wr. }
  assert (exists s1,
            match we_cleanUp wr with
            | Some fn =>
                '(_, s) ← exec call (OfWatchEffect w) fn (emit (EvCleanup (OfWatchEffect w)) s);
                Ok s
            | None => Ok s
            end = Ok s1
            /\ targetMap s1 = targetMap s /\ activeEffect s1 = None
            /\ heap s1 = heap s /\ refs s1 = refs s
            /\ owner_kept (OfWatchEffect w) s s1
            /\ exists l1, log s1 = log s ++ l1) as (s1 & -> & Ht1 & Ha1 & Hh1 & Hr1 & Hk1 & l1 & Hl1).
  { destruct (we_cleanUp wr) as [fn|] eqn:Hcl.
    - assert (calm (heap s) (refs s) fn) as Hfn.
      { unfold pending_calm, cleanUp_of in Hpend. rewrite Hw in Hpend. simpl in Hpend.
        by rewrite Hcl in Hpend. }
      destruct (exec_calm call (OfWatchEffect w) _ _ fn Hfn (emit (EvCleanup (OfWatchEffect w)) s))
        as (v & s1 & l & Hex & Hrun); [done|done|done|].
      rewrite Hex. cbn [mbind result_bind].
      apply exec_calm_untracked with (hp := heap s) (rf := refs s) in Hex
          as (Ht & Ha & Hh & Hr); [|done..].
      exists s1. split; [done|]. repeat split; try done.
      + apply (cr_kept _ _ _ _ Hrun).
      + exists (EvCleanup (OfWatchEffect w) :: l). rewrite (cr_log _ _ _ _ Hrun). simpl.
        by rewrite <- app_assoc.
    - exists s. repeat split; try done. exists []. by rewrite app_nil_r. }
  cbn [mbind result_bind].
  destruct Hk1 as (wr0 & c1 & Hw0 & Hw1). rewrite Hw in Hw0. injection Hw0 as <-.
  rewrite Hw1. cbn [from_option mbind result_bind we_cb].
  destruct (exec_calm call (OfWatchEffect w) (heap s) (refs s) (we_cb wr) Hcb
              (emit (EvEffectCallback w) s1))
    as (v & s2 & l2 & Hex & Hrun); [done|done| |].
  { exists (WatchEffect (we_cb wr) (we_effect wr) c1), c1. simpl. by rewrite Hw1. }
  rewrite Hex. cbn [mbind result_bind].
  apply exec_calm_untracked with (hp := heap s) (rf := refs s) in Hex
      as (Ht & Ha & Hh & Hr); [|done..].
  exists s2. split; [done|]. split; [by rewrite Ht|].
  rewrite (cr_log _ _ _ _ Hrun). simpl. rewrite Hl1, <- !app_assoc.
  rewrite drop_app_length. apply elem_of_app. right. simpl. by left.
Qed.

Lemma watchEffect_rerun_tracks_nothing_witness :
  exists s',
    watchEffect_job (run 10) 0 effect_with_cleanup = Ok s'
    /\ targetMap s' = targetMap effect_with_cleanup
    /\ EvEffectCallback 0 ∈ drop (length (log effect_with_cleanup)) (log s').
Proof.
  apply (watchEffect_rerun_tracks_nothing (run 10) 0 effect_with_cleanup
           (WatchEffect (RefGet 0 (register_when 0)) 0 (Some (Log "cleanup" (Ret VUndef))))).
  - reflexivity.
  - reflexivity.
  - eapply calm_RefGet; [vm_compute; reflexivity|]. repeat constructor.
  - repeat constructor.
Defined.

(** X29.  A watcher made with [flush: 'post']: a trigger on a key whose only
    subscriber is the watcher's effect calls its scheduler, which hands the
    job to the host as a microtask and returns.  No effect function and no
    callback runs before the host runs the microtask. *)
Theorem post_watcher_waits_for_the_microtask n t k s e r w wr :
  targetMap s !! (t, k) = Some [e] ->
  effects s !! e = Some r -> e_scheduler r = Some (SWatch w) ->
  watchers s !! w = Some wr -> w_post wr = true ->
  trigger (run (S (S n))) t k s
  = Ok (with_microtasks (microtasks s ++ [w])
          (emit (EvScheduler e) (emit (EvTrigger t k) s))).
Proof.
  intros Ht He Hs Hw Hp. unfold trigger. simpl targetMap. rewrite Ht.
  cbn [run step]. unfold trigger_from at 1. unfold deps_of at 1. simpl targetMap.
  rewrite Ht. simpl. rewrite He, Hs. simpl. rewrite Hw, Hp. cbn [mbind result_bind].
  unfold trigger_from, deps_of. simpl targetMap. rewrite Ht. done.
Qed.

Lemma post_watcher_waits_for_the_microtask_witness :
  trigger (run 2) (TRef 0) kvalue post_watcher
  = Ok (with_microtasks (microtasks post_watcher ++ [0%nat])
          (emit (EvScheduler 0) (emit (EvTrigger (TRef 0) kvalue) post_watcher))).
Proof.
  apply (post_watcher_waits_for_the_microtask 0 (TRef 0) kvalue post_watcher 0
           (Effect (BWatch 0) [] true (Some (SWatch 0))) 0
           (Watcher WatchFixed (GFn (RefGet 0 Ret)) (FUser 7)
              (fun _ _ => Log "cb" (Ret VUndef)) true 0 (VNum 1) VUndef None));
    vm_compute; reflexivity.
Defined.

(** The course of it: two writes before the host runs the microtasks
    make two jobs, and each calls the callback, the second with the same
    value as old and as new. *)
Lemma post_watcher_runs_once_per_write :
  exists s s',
    main (RefPut 0 (VNum 2) (RefPut 0 (VNum 3) (Ret VUndef))) 10 post_watcher = Ok (VUndef, s)
    /\ microtasks s = [0%nat; 0%nat]
    /\ count_event (EvRun 0) (log s) = 1%nat
    /\ run_microtasks 10 s = Ok s'
    /\ drop (length (log s)) (log s')
       = [EvRun 0; EvCallback 0 (VNum 1) (VNum 3); EvLog "cb";
          EvRun 0; EvCallback 0 (VNum 3) (VNum 3); EvLog "cb"].
Proof.
  eexists _, _. split; [vm_compute; reflexivity|].
  split; [vm_compute; reflexivity|]. split; [vm_compute; reflexivity|].
  split; vm_compute; reflexivity.
Qed.




End ReactivityProofs.
